(** * AdNauseam-Obscure: the seeded query generator and the browse session loop

    A shallow embedding of [src/automation/humanize.ts],
    [src/automation/queryGenerator.ts] and the shopping session module,
    with the properties the specification states about them.

    Conventions of the embedding.
    - A JavaScript [number] is modelled twice.  The programs compute on
      exact rationals ([Q]), with [Math.ceil] and [Math.floor] as [Qceiling]
      and [Qfloor]; module [Float64] gives [randomInt] and the index of
      [randomChoice] in IEEE 754 double arithmetic, with NaN, the infinities,
      rounding and overflow.  The two agree when the draws are multiples of
      [2^-32], as the draws of [mulberry32] are, and the ranges are short
      ([randomInt_exact], [choiceIndex_exact]), and for any double draw
      in [0, 1) the result of [randomInt] stays in its range
      ([randomInt_within]); statements that depend on the arithmetic are
      made where it is exact.
    - 32-bit integer operators are written out on [Z] with their wrap-around.
    - A JavaScript string is the list of its UTF-16 code units.
    - Code that only consumes random draws is a tree of draws ([Gen]); code
      that also talks to the browser is a tree of effects ([Prog]).  Both are
      run against an explicit environment. *)

From Stdlib Require Import Ascii String DecimalString.
From Stdlib Require Import ZArith QArith Qround Qminmax Qabs Qpower Bool Lia Lqa List.
Import ListNotations.

Set Implicit Arguments.

Local Open Scope Z_scope.

(* ================================================================== *)
(** * 32-bit integer operators *)

Module Int32.

Definition two32 : Z := 4294967296.
Definition two31 : Z := 2147483648.

(** ToUint32 and ToInt32 on an integral value. *)
Definition toUint32 (z : Z) : Z := z mod two32.
Definition toInt32 (z : Z) : Z := (z + two31) mod two32 - two31.

(** [x | y], [x ^ y], [x >>> n] and [Math.imul x y]. *)
Definition or32 (x y : Z) : Z := toInt32 (Z.lor (toInt32 x) (toInt32 y)).
Definition xor32 (x y : Z) : Z := toInt32 (Z.lxor (toInt32 x) (toInt32 y)).
Definition ushr32 (x n : Z) : Z := Z.shiftr (toUint32 x) (n mod 32).
Definition imul (x y : Z) : Z := toInt32 (toInt32 x * toInt32 y).

(** ToUint32 on a number: truncate towards zero, then wrap. *)
Definition Qtrunc (x : Q) : Z := Z.quot (Qnum x) (Z.pos (Qden x)).
Definition toUint32Q (x : Q) : Z := toUint32 (Qtrunc x).

End Int32.

(* ================================================================== *)
(** * Thrown values and results *)

Definition jsstring := list N.

(** A string literal of the source, as code units. *)
Definition js (s : string) : jsstring := map N_of_ascii (list_ascii_of_string s).

Record JsError := mkError { err_name : jsstring; err_message : jsstring }.

(** [new Error(msg)]. *)
Definition Error_ (msg : string) : JsError := mkError (js "Error") (js msg).

Inductive Res (A : Type) : Type :=
| Ok (a : A)
| Err (e : JsError).
Arguments Ok {A} a.
Arguments Err {A} e.

(* ================================================================== *)
(** * Programs over a stream of random draws *)

(** [Gen A]: a computation that calls [rng()] some number of times and
    then returns an [A] or throws. *)
Inductive Gen (A : Type) : Type :=
| GRet (a : A)
| GThrow (e : JsError)
| GRand (k : Q -> Gen A).
Arguments GRet {A} a.
Arguments GThrow {A} e.
Arguments GRand {A} k.

Fixpoint gbind {A B} (m : Gen A) (f : A -> Gen B) : Gen B :=
  match m with
  | GRet a => f a
  | GThrow e => GThrow e
  | GRand k => GRand (fun r => gbind (k r) f)
  end.

Definition rand : Gen Q := GRand (fun r => GRet r).

Declare Scope gen_scope.
Delimit Scope gen_scope with gen.
Notation "x <- m ;; k" := (gbind m (fun x => k))
  (at level 61, m at next level, right associativity) : gen_scope.
Notation "m ;;; k" := (gbind m (fun _ => k))
  (at level 61, right associativity) : gen_scope.

(** Running a [Gen] against a generator given by its state and its step. *)
Fixpoint runGen {A St} (step : St -> Q * St) (m : Gen A) (s : St) : Res A * St :=
  match m with
  | GRet a => (Ok a, s)
  | GThrow e => (Err e, s)
  | GRand k => let (r, s') := step s in runGen step (k r) s'
  end.

(** The first [n] results of calling a stateful function again and again. *)
Fixpoint produce {A St} (step : St -> A * St) (n : nat) (s : St) : list A :=
  match n with
  | O => []
  | S n' => let (x, s') := step s in x :: produce step n' s'
  end.

(** A draw honours the contract of [Rng] when it lies in [0, 1). *)
Definition unit_draw (r : Q) : Prop := (0 <= r)%Q /\ (r < 1)%Q.

(** [Returns P m]: on every sequence of draws in [0, 1), [m] returns
    normally with a value satisfying [P]. *)
Inductive Returns {A} (P : A -> Prop) : Gen A -> Prop :=
| Returns_ret a : P a -> Returns P (GRet a)
| Returns_rand k : (forall r, unit_draw r -> Returns P (k r)) -> Returns P (GRand k).

(* ================================================================== *)
(** * humanize.ts *)

Module Humanize.
Import Int32.

(** ** mulberry32

    The closure variable [a] is the state of the generator. *)
Definition C_mul : Z := 1831565813.   (* 0x6d2b79f5 *)

Definition mulberry32 (seed : Q) : Z := toUint32Q seed.

Definition mulberry32_next (a : Z) : Q * Z :=
  let a := or32 a 0 in
  let a := or32 (a + C_mul) 0 in
  let t := imul (xor32 a (ushr32 a 15)) (or32 1 a) in
  let t := xor32 (t + imul (xor32 t (ushr32 t 7)) (or32 61 t)) t in
  (inject_Z (ushr32 (xor32 t (ushr32 t 14)) 0) / inject_Z two32, a)%Q.

(** The first [n] draws of a generator in state [a]. *)
Definition draws (n : nat) (a : Z) : list Q := produce mulberry32_next n a.

(** ** randomInt

    In exact arithmetic; [Float64.randomInt] below is the same function
    in double arithmetic. *)
Definition randomInt (minInclusive maxInclusive : Q) : Gen Z :=
  let min := Qceiling minInclusive in
  let max := Qfloor maxInclusive in
  if max <? min then GRet min
  else GRand (fun r => GRet (Qfloor (r * inject_Z (max - min + 1)) + min)).

(** ** randomChoice

    [items[i]] is read with the first element as the default; for a draw
    in [0, 1) the index is always in range (see [choiceIndex_range]). *)
Definition choiceIndex (r : Q) (len : nat) : Z :=
  Qfloor (r * inject_Z (Z.of_nat len)).

Definition randomChoice {T} (items : list T) : Gen T :=
  match items with
  | [] => GThrow (Error_ "randomChoice: empty array")
  | d :: _ =>
      GRand (fun r => GRet (nth (Z.to_nat (choiceIndex r (length items))) items d))
  end.

End Humanize.
Import Humanize.

(* ================================================================== *)
(** * JavaScript numbers as IEEE 754 doubles

    [Humanize.randomInt] and [Humanize.choiceIndex] compute on exact
    rationals.  This module gives the same two functions in double
    arithmetic, so that the two readings can be compared: they agree when
    the draw is a multiple of [2^-32] and the range is short (see
    [randomInt_exact] and [choiceIndex_exact]), and differ outside. *)

Module Float64.

(** A number is NaN, an infinity, or a finite value.  The two zeros are
    identified: the code modelled here neither divides by a result nor
    reads its sign.  A finite double is a rational [m * 2^e] with
    [|m| < 2^53] and [-1074 <= e <= 971]; the operations round their exact
    result to the nearest such value, ties to the even significand. *)
Inductive number : Type :=
| NaN
| Infinity (negative : bool)
| Finite (q : Q).

Definition pow2 (e : Z) : Q := (2 # 1) ^ e.

(** [floor(log2 a)] for [a > 0]: the estimate from the bit lengths of the
    numerator and the denominator is right or one too large. *)
Definition ilog2 (a : Q) : Z :=
  let l := Z.log2 (Qnum a) - Z.log2 (Z.pos (Qden a)) in
  if Qle_bool (pow2 l) a then l else l - 1.

(** The nearest integer, a tie going to the even one. *)
Definition nearest_even (x : Q) : Z :=
  let f := Qfloor x in
  match (x - inject_Z f ?= 1 # 2)%Q with
  | Lt => f
  | Gt => f + 1
  | Eq => if Z.even f then f else f + 1
  end.

Definition negative (q : Q) : bool := Qnum q <? 0.

(** Rounding of an exact result to a double: 53 significant bits, the
    least exponent -1074 (subnormals), overflow to an infinity. *)
Definition round (q : Q) : number :=
  if Qeq_bool q 0 then Finite 0
  else
    let a := Qabs q in
    let e := Z.max (ilog2 a - 52) (-1074) in
    let v := (inject_Z (nearest_even (a / pow2 e)) * pow2 e)%Q in
    if Qle_bool (pow2 1024) v then Infinity (negative q)
    else Finite (Qred (if negative q then - v else v)).

(** [Math.ceil] and [Math.floor]. *)
Definition ceil (x : number) : number :=
  match x with
  | Finite q => Finite (inject_Z (Qceiling q))
  | _ => x
  end.

Definition floor (x : number) : number :=
  match x with
  | Finite q => Finite (inject_Z (Qfloor q))
  | _ => x
  end.

(** [x < y]: false when either side is NaN. *)
Definition lt (x y : number) : bool :=
  match x, y with
  | NaN, _ | _, NaN => false
  | Infinity sx, Infinity sy => sx && negb sy
  | Infinity sx, Finite _ => sx
  | Finite _, Infinity sy => negb sy
  | Finite a, Finite b => negb (Qle_bool b a)
  end.

Definition neg (x : number) : number :=
  match x with
  | NaN => NaN
  | Infinity s => Infinity (negb s)
  | Finite q => Finite (- q)
  end.

(** [x + y], [x - y] and [x * y]. *)
Definition add (x y : number) : number :=
  match x, y with
  | NaN, _ | _, NaN => NaN
  | Infinity sx, Infinity sy => if Bool.eqb sx sy then Infinity sx else NaN
  | Infinity sx, Finite _ => Infinity sx
  | Finite _, Infinity sy => Infinity sy
  | Finite a, Finite b => round (a + b)
  end.

Definition sub (x y : number) : number := add x (neg y).

Definition mul (x y : number) : number :=
  match x, y with
  | NaN, _ | _, NaN => NaN
  | Infinity sx, Infinity sy => Infinity (xorb sx sy)
  | Infinity s, Finite q | Finite q, Infinity s =>
      if Qeq_bool q 0 then NaN else Infinity (xorb s (negative q))
  | Finite a, Finite b => round (a * b)
  end.

(** [Math.max(x, y)]: NaN when either side is NaN. *)
Definition max (x y : number) : number :=
  match x, y with
  | NaN, _ | _, NaN => NaN
  | _, _ => if lt x y then y else x
  end.

(** [randomInt] of humanize.ts, in double arithmetic. *)
Definition randomInt (minInclusive maxInclusive : number) : Gen number :=
  let min := ceil minInclusive in
  let max := floor maxInclusive in
  if lt max min then GRet min
  else GRand (fun r =>
         GRet (add (floor (mul (Finite r) (add (sub max min) (Finite 1)))) min)).

(** [Math.floor(rng() * items.length)] of [randomChoice]. *)
Definition choiceIndex (r : Q) (len : nat) : number :=
  floor (mul (Finite r) (Finite (inject_Z (Z.of_nat len)))).

(** The three counts of [browseShoppingForQuery], from the configured
    maxima. *)
Definition pagesToBrowse (maxPagesPerQuery : number) : Gen number :=
  randomInt (Finite 1) (max (Finite 1) maxPagesPerQuery).
Definition scrolls (maxScrollsPerPage : number) : Gen number :=
  randomInt (Finite 2) (max (Finite 2) maxScrollsPerPage).
Definition productOpens (maxProductOpensPerQuery : number) : Gen number :=
  randomInt (Finite 0) (max (Finite 0) maxProductOpensPerQuery).

End Float64.

(* ================================================================== *)
(** * JavaScript strings *)

Module JsString.

Local Open Scope N_scope.

(** The code units that [String.prototype.trim] strips and that [\s]
    matches: WhiteSpace and LineTerminator of ECMAScript. *)
Definition is_ws (c : N) : bool :=
  ((9 <=? c) && (c <=? 13))
  || (c =? 32) || (c =? 160) || (c =? 5760)
  || ((8192 <=? c) && (c <=? 8202))
  || (c =? 8232) || (c =? 8233) || (c =? 8239) || (c =? 8287)
  || (c =? 12288) || (c =? 65279).

Definition space : N := 32.
Definition hash : N := 35.
Definition LF : N := 10.
Definition CR : N := 13.

Fixpoint trimStart (s : jsstring) : jsstring :=
  match s with
  | c :: r => if is_ws c then trimStart r else s
  | [] => []
  end.

Definition trimEnd (s : jsstring) : jsstring := rev (trimStart (rev s)).

Definition trim (s : jsstring) : jsstring := trimEnd (trimStart s).

(** [s.replace(/\s+/g, " ")]: every maximal run of whitespace becomes one
    space.  [in_run] tells whether the previous code unit was whitespace. *)
Fixpoint collapse_from (in_run : bool) (s : jsstring) : jsstring :=
  match s with
  | [] => []
  | c :: r =>
      if is_ws c
      then (if in_run then collapse_from true r else space :: collapse_from true r)
      else c :: collapse_from false r
  end.

Definition collapse_ws (s : jsstring) : jsstring := collapse_from false s.

(** [s.split(/\r?\n/g)]; [cur] is the current line, reversed. *)
Fixpoint split_from (cur : jsstring) (s : jsstring) : list jsstring :=
  match s with
  | [] => [rev cur]
  | c :: r =>
      if c =? LF then rev cur :: split_from [] r
      else if c =? CR then
        match r with
        | d :: r' => if d =? LF then rev cur :: split_from [] r'
                     else split_from (c :: cur) r
        | [] => split_from (c :: cur) r
        end
      else split_from (c :: cur) r
  end.

Definition split_lines (s : jsstring) : list jsstring := split_from [] s.

(** [s.startsWith("#")]. *)
Definition startsWithHash (s : jsstring) : bool :=
  match s with
  | c :: _ => c =? hash
  | [] => false
  end.

(** Truthiness of a string: non-empty. *)
Definition nonEmpty (s : jsstring) : bool :=
  match s with [] => false | _ => true end.

(** The decimal form of an integer, as in a template literal. *)
Definition ofZ (z : Z) : jsstring := js (NilZero.string_of_int (Z.to_int z)).

(** Shapes of a string that the specification speaks about. *)
Definition leading_ws (s : jsstring) : bool :=
  match s with c :: _ => is_ws c | [] => false end.

Definition trailing_ws (s : jsstring) : bool := leading_ws (rev s).

Fixpoint double_ws (s : jsstring) : bool :=
  match s with
  | a :: r => match r with
              | b :: _ => (is_ws a && is_ws b) || double_ws r
              | [] => false
              end
  | [] => false
  end.

(** Some code unit is not whitespace. *)
Definition has_ink (s : jsstring) : bool := existsb (fun c => negb (is_ws c)) s.

End JsString.
Import JsString.

(* ================================================================== *)
(** * queryGenerator.ts *)

Module QueryGenerator.
Local Open Scope gen_scope.
Local Open Scope string_scope.

Definition categories : list jsstring := map js
  [ "wireless earbuds"; "gaming laptop"; "4k monitor"; "robot vacuum";
    "air purifier"; "standing desk"; "office chair"; "running shoes";
    "winter jacket"; "skin care serum"; "vitamin d supplement";
    "protein powder"; "electric toothbrush"; "blender"; "espresso machine";
    "smartwatch"; "phone case"; "car dash cam"; "tool set"; "lego set";
    "mechanical keyboard"; "noise cancelling headphones"; "camping tent";
    "hiking backpack"; "yoga mat"; "sunscreen"; "electric scooter";
    "cat food"; "dog shampoo"; "air fryer"; "rice cooker"; "mattress topper";
    "humidifier"; "dehumidifier"; "printer ink"; "ssd 2tb"; "router wifi 6e";
    "smart light bulbs"; "coffee grinder" ].

Definition adjectives : list jsstring := map js
  [ "best"; "cheap"; "premium"; "budget"; "top rated"; "durable";
    "lightweight"; "waterproof"; "compact"; "new"; "refurbished";
    "eco friendly"; "quiet"; "portable"; "high performance" ].

Definition intents : list jsstring := map js
  [ "buy"; "deals"; "price"; "sale"; "discount"; "free shipping"; "near me";
    "online"; "coupon"; "clearance"; "bundle"; "gift"; "student discount" ].

Definition brands : list jsstring := map js
  [ "Samsung"; "Apple"; "Sony"; "LG"; "Dell"; "HP"; "Lenovo"; "Nike";
    "Adidas"; "Bosch"; "Philips"; "Dyson"; "Logitech"; "Anker"; "Asus";
    "Acer"; "Canon"; "Nikon"; "KitchenAid"; "Cuisinart"; "Instant Pot";
    "Razer"; "Corsair"; "New Balance"; "Puma" ].

Definition topics : list jsstring := map js
  [ "how to make sourdough starter"; "why do cats knead blankets";
    "history of the silk road"; "best time to visit iceland";
    "how to learn piano"; "moon phases calendar";
    "chess opening for beginners"; "what is photosynthesis";
    "stoicism basics"; "meditation breathing technique";
    "python list comprehension"; "linux fish shell tips";
    "how to fix a leaky faucet"; "volcanoes around the world";
    "recipe for ramen broth"; "difference between espresso and coffee";
    "how to train for a 5k"; "minimalist capsule wardrobe";
    "book recommendations sci fi"; "how to grow basil indoors" ].

Definition locations : list jsstring := map js
  [ "near me"; "in tokyo"; "in berlin"; "in new york"; "in london";
    "in san francisco"; "in sydney"; "in toronto" ].

Definition priceCaps : list Z := [25; 50; 100; 200; 300; 500; 1000]%Z.
Definition years : list Z := [2024; 2025]%Z.
Definition fragments : list jsstring := map js
  [ "for beginners"; "explained"; "meaning"; "tips"; "checklist"; "guide";
    "vs"; "and"; "ideas" ].
Definition questions : list jsstring := map js [ "why"; "how"; "what"; "when" ].
Definition glues : list jsstring := map js [ "and"; "vs"; "with"; "for" ].
Definition qualifiers : list jsstring := map js
  [ "review"; "comparison"; "specs"; "warranty"; "setup"; "troubleshooting" ].

Local Close Scope string_scope.

(** ** normalizeSeedLine and loadSeedPhrases *)

Definition normalizeSeedLine (line : jsstring) : option jsstring :=
  let s := trim line in
  if negb (nonEmpty s) then None
  else if startsWithHash s then None
  else Some s.

(** [.filter((x) => Boolean(x))] over the mapped lines: [undefined] and the
    empty string are dropped. *)
Definition keepTruthy (xs : list (option jsstring)) : list jsstring :=
  flat_map (fun x => match x with
                     | Some s => if nonEmpty s then [s] else []
                     | None => []
                     end) xs.

(** [readFile] is the file system: the decoded content of a path, or the
    error the read rejects with.  [seedFile] is the optional path. *)
Definition loadSeedPhrases (readFile : jsstring -> Res jsstring)
           (seedFile : option jsstring) : list jsstring :=
  match seedFile with
  | None => []
  | Some path =>
      if negb (nonEmpty path) then []
      else match readFile path with
           | Ok content => keepTruthy (map normalizeSeedLine (split_lines content))
           | Err _ => []
           end
  end.

(** ** templateQuery *)

Definition sp : jsstring := [space].

(** [x ?? ""] and [x ? `${x} ` : ""] on an optional string. *)
Definition orEmpty (x : option jsstring) : jsstring :=
  match x with Some s => s | None => [] end.

Definition truthy (x : option jsstring) : bool :=
  match x with Some s => nonEmpty s | None => false end.

Definition withSpaceAfter (x : option jsstring) : jsstring :=
  if truthy x then orEmpty x ++ sp else [].

Definition withSpaceBefore (x : option jsstring) : jsstring :=
  if truthy x then sp ++ orEmpty x else [].

(** [rng() < p ? e : undefined].  The thresholds 0.35, 0.25, 0.2 and 0.28
    are taken as decimal fractions; a draw [u / 2^32] lies below such a
    fraction exactly when it lies below the double nearest to it. *)
Definition lessThan (r p : Q) : bool := negb (Qle_bool p r).

Definition maybe {A} (p : Q) (e : Gen A) : Gen (option A) :=
  r <- rand ;;
  if lessThan r p then (x <- e ;; GRet (Some x)) else GRet None.

(** [topic ?? randomChoice(rng, topics)]. *)
Definition orChoice (x : option jsstring) (items : list jsstring) : Gen jsstring :=
  match x with Some s => GRet s | None => randomChoice items end.

Section Patterns.
Variables (seed : option jsstring) (category adjective intent : jsstring)
          (brand priceCap year location topic unrelatedFragment : option jsstring).

Definition patterns : list (Gen jsstring) :=
  [ GRet (trim (adjective ++ sp ++ category ++ sp ++ orEmpty year));
    GRet (trim (withSpaceAfter brand ++ category ++ sp ++ intent));
    GRet (trim (category ++ sp ++ intent ++ sp ++ orEmpty priceCap));
    GRet (trim (withSpaceAfter seed ++ category ++ sp ++ intent));
    GRet (trim (adjective ++ sp ++ withSpaceAfter brand ++ category ++ sp ++ intent));
    GRet (trim (category ++ sp ++ intent ++ sp ++ orEmpty year));
    (w <- randomChoice questions ;;
     t <- orChoice topic topics ;;
     GRet (collapse_ws (trim (category ++ sp ++ w ++ sp ++ t))));
    (t <- orChoice topic topics ;;
     GRet (trim (t ++ sp ++ category)));
    GRet (trim (category ++ sp ++ orEmpty location ++ sp ++ intent));
    (t <- orChoice topic topics ;;
     GRet (trim (withSpaceAfter seed ++ t ++ sp ++ category)));
    GRet (collapse_ws (trim (adjective ++ sp ++ category ++ sp
                             ++ orEmpty unrelatedFragment ++ sp
                             ++ withSpaceBefore topic)));
    (a <- randomChoice categories ;;
     b <- randomChoice topics ;;
     glue <- randomChoice glues ;;
     GRet (trim (a ++ sp ++ glue ++ sp ++ b))) ].
End Patterns.

Definition templateQuery (seedPhrases : list jsstring) : Gen jsstring :=
  seed <- (if (length seedPhrases =? 0)%nat then GRet None
           else (x <- randomChoice seedPhrases ;; GRet (Some x))) ;;
  category <- randomChoice categories ;;
  adjective <- randomChoice adjectives ;;
  intent <- randomChoice intents ;;
  brand <- maybe 0.35 (randomChoice brands) ;;
  priceCap <- maybe 0.25 (n <- randomChoice priceCaps ;;
                          GRet (js "under $" ++ ofZ n)) ;;
  year <- maybe 0.2 (n <- randomChoice years ;; GRet (ofZ n)) ;;
  location <- maybe 0.2 (randomChoice locations) ;;
  topic <- maybe 0.35 (randomChoice topics) ;;
  unrelatedFragment <- maybe 0.28 (randomChoice fragments) ;;
  pattern <- randomChoice (patterns seed category adjective intent brand
                                    priceCap year location topic
                                    unrelatedFragment) ;;
  q <- pattern ;;
  q <- (r <- rand ;;
        if lessThan r 0.25
        then (x <- randomChoice qualifiers ;; GRet (q ++ sp ++ x))
        else GRet q) ;;
  q <- (r <- rand ;;
        if lessThan r 0.2
        then (n <- randomInt 2 128 ;; GRet (q ++ sp ++ ofZ n))
        else GRet q) ;;
  GRet (trim (collapse_ws q)).

(** ** buildQuerySource

    The closure returned by [buildQuerySource] captures the loaded list;
    it is the state of the Query Source. *)
Record QuerySource := { seedPhrases : list jsstring }.

Record BuildOptions := { seedFile : option jsstring }.

Definition buildQuerySource (readFile : jsstring -> Res jsstring)
           (opts : BuildOptions) : QuerySource :=
  {| seedPhrases := loadSeedPhrases readFile (seedFile opts) |}.

Definition nextQuery (src : QuerySource) : Gen jsstring * QuerySource :=
  (templateQuery (seedPhrases src), src).

End QueryGenerator.
Import QueryGenerator.

(* ================================================================== *)
(** * Programs that talk to the browser *)

Definition PageId := nat.

(** The elements the session locates on a page. *)
Inductive Locator : Type :=
| RejectButton     (* getByRole("button", { name: /Reject all|Reject|Decline|Deny/i }).first() *)
| AcceptButton     (* getByRole("button", { name: /Accept all|I agree|Agree|Accept/i }).first() *)
| Body             (* locator("body") *)
| ProductLinks     (* locator('a[href*="/shopping/product/"]').filter({ hasNotText: "" }) *)
| ProductLink (idx : Z)   (* productLinks.nth(idx) *)
| NextLink.        (* locator('a#pnnext, a[aria-label*="Next"]').first() *)

(** The lines written by [log]; the timestamp field is left out. *)
Inductive Event : Type :=
| query_start (query url : jsstring)
| query_end (query : jsstring)
| query_error (query error : jsstring).

(** One constructor per operation of the outside world, indexed by the
    type of its answer.  An operation that returns a promise answers with a
    [Res]: the promise resolves or rejects. *)
Inductive Eff : Type -> Type :=
| Rand : Eff Q
| Sleep (ms : Z) : Eff unit
| ConsoleLog (ev : Event) : Eff unit
| AddInitScript : Eff (Res unit)
| NewPage : Eff (Res PageId)
| SetDefaultTimeout (page : PageId) (ms : Z) : Eff unit
| OnFrameNavigated (page : PageId) : Eff unit
| Goto (page : PageId) (url : jsstring) (timeout : Z) : Eff (Res unit)
| PageUrl (page : PageId) : Eff jsstring
| InnerText (page : PageId) (loc : Locator) (timeout : Z) : Eff (Res jsstring)
| IsVisible (page : PageId) (loc : Locator) : Eff (Res bool)
| Click (page : PageId) (loc : Locator) (timeout : Z) : Eff (Res unit)
| Count (page : PageId) (loc : Locator) : Eff (Res Z)
| ScrollIntoViewIfNeeded (page : PageId) (loc : Locator) (timeout : Z) : Eff (Res unit)
| WaitForPopup (timeout : Z) : Eff (Res PageId)
| WaitForNavigation (page : PageId) (timeout : Z) : Eff (Res unit)
| WaitForLoadState (page : PageId) : Eff (Res unit)
| ContextPages : Eff (list PageId)
| ClosePage (page : PageId) : Eff (Res unit)
| BringToFront (page : PageId) : Eff (Res unit)
| GoBack (page : PageId) (timeout : Z) : Eff (Res unit)
| MouseWheel (page : PageId) (dx dy : Z) : Eff (Res unit).

Inductive Prog (A : Type) : Type :=
| Ret (a : A)
| Throw (e : JsError)
| Vis (X : Type) (e : Eff X) (k : X -> Prog A).
Arguments Ret {A} a.
Arguments Throw {A} e.
Arguments Vis {A X} e k.

Fixpoint bind {A B} (m : Prog A) (f : A -> Prog B) : Prog B :=
  match m with
  | Ret a => f a
  | Throw e => Throw e
  | Vis e k => Vis e (fun x => bind (k x) f)
  end.

Declare Scope prog_scope.
Delimit Scope prog_scope with prog.
Notation "x <- m ;; k" := (bind m (fun x => k))
  (at level 61, m at next level, right associativity) : prog_scope.
Notation "m ;;; k" := (bind m (fun _ => k))
  (at level 61, right associativity) : prog_scope.

(** [try { p } catch (err) { ... }], with the outcome reified. *)
Fixpoint attempt {A} (p : Prog A) : Prog (Res A) :=
  match p with
  | Ret a => Ret (Ok a)
  | Throw e => Ret (Err e)
  | Vis e k => Vis e (fun x => attempt (k x))
  end.

Definition perform {X} (e : Eff X) : Prog X := Vis e (fun x => Ret x).

(** [await op]: a rejection is rethrown. *)
Definition await {X} (e : Eff (Res X)) : Prog X :=
  Vis e (fun r => match r with Ok x => Ret x | Err err => Throw err end).

(** [await op.catch(() => d)]: a rejection becomes [d]. *)
Definition orElse {X} (r : Res X) (d : X) : X :=
  match r with Ok x => x | Err _ => d end.

Definition awaitOr {X} (e : Eff (Res X)) (d : X) : Prog X :=
  Vis e (fun r => Ret (orElse r d)).

(** A [Gen] runs inside a [Prog] by drawing from the session's [rng]. *)
Fixpoint liftGen {A} (m : Gen A) : Prog A :=
  match m with
  | GRet a => Ret a
  | GThrow e => Throw e
  | GRand k => Vis Rand (fun r => liftGen (k r))
  end.

(** ** Running a program *)

(** The outside world: a state and, for each operation, its answer. *)
Record Env : Type := {
  World : Type;
  answer : forall X, Eff X -> World -> X * World
}.

(** What a run did: each operation with the answer it got. *)
Inductive Action : Type :=
| Act (X : Type) (e : Eff X) (x : X).
Arguments Act {X} e x.

Fixpoint exec (env : Env) {A} (p : Prog A) (w : World env)
  : Res A * list Action * World env :=
  match p with
  | Ret a => (Ok a, [], w)
  | Throw e => (Err e, [], w)
  | Vis e k =>
      let (x, w1) := answer env e w in
      let '(r, tr, w2) := exec env (k x) w1 in
      (r, Act e x :: tr, w2)
  end.

Definition outcome {A W} (x : Res A * list Action * W) : Res A := fst (fst x).
Definition trace {A W} (x : Res A * list Action * W) : list Action := snd (fst x).
Definition final {A W} (x : Res A * list Action * W) : W := snd x.

(** The events a run wrote to the log, in order. *)
Definition logged (a : Action) : list Event :=
  match a with
  | Act e _ => match e with ConsoleLog ev => [ev] | _ => [] end
  end.

Definition logOf (tr : list Action) : list Event := flat_map logged tr.

(** An environment whose [rng] honours the contract of [Rng]. *)
Definition rng_ok (env : Env) : Prop :=
  forall w, unit_draw (fst (answer env Rand w)).

(* ================================================================== *)
(** * The shopping session *)

Module ShoppingSession.

Local Open Scope prog_scope.

Record RunConfig : Type := {
  braveExecutablePath : jsstring;
  braveUserDataDir : jsstring;
  braveProfileDirectory : jsstring;
  headless : bool;
  locale : jsstring;
  cleanSingletons : bool;
  maxQueries : Q;
  minDwellMs : Q;
  maxDwellMs : Q;
  minBetweenQueriesMs : Q;
  maxBetweenQueriesMs : Q;
  maxProductOpensPerQuery : Q;
  maxScrollsPerPage : Q;
  maxPagesPerQuery : Q;
  seedFile : option jsstring;
  logVisitedUrls : bool
}.

Definition defaultConfig : RunConfig := {|
  braveExecutablePath := [];
  braveUserDataDir := [];
  braveProfileDirectory := js "Default";
  headless := false;
  locale := js "en-US";
  cleanSingletons := false;
  maxQueries := 100;
  minDwellMs := 1000;
  maxDwellMs := 5000;
  minBetweenQueriesMs := 7000;
  maxBetweenQueriesMs := 15000;
  maxProductOpensPerQuery := 2;
  maxScrollsPerPage := 8;
  maxPagesPerQuery := 2;
  seedFile := None;
  logVisitedUrls := false
|}.

(** [String(err)] for an error object: [Error.prototype.toString]. *)
Definition String_ (err : JsError) : jsstring :=
  match err_name err, err_message err with
  | [], msg => msg
  | name, [] => name
  | name, msg => name ++ js ": " ++ msg
  end.

(** ** String helpers used by the session *)

Fixpoint startsWith (s p : jsstring) : bool :=
  match p, s with
  | [], _ => true
  | _ :: _, [] => false
  | a :: p', b :: s' => N.eqb a b && startsWith s' p'
  end.

Fixpoint includes (s p : jsstring) : bool :=
  startsWith s p || match s with [] => false | _ :: r => includes r p end.

(** Case folding of a regular expression without the [u] flag, restricted
    to what can equal an ASCII pattern character: only ASCII letters fold. *)
Definition canonicalize (c : N) : N :=
  if ((97 <=? c) && (c <=? 122))%N then (c - 32)%N else c.

Definition includesIgnoreCase (s : jsstring) (p : string) : bool :=
  includes (map canonicalize s) (map canonicalize (js p)).

(** [/unusual traffic|detected unusual traffic|our systems have detected|to continue, please|not a robot/i.test(text)] *)
Definition blockPatternTest (text : jsstring) : bool :=
  includesIgnoreCase text "unusual traffic"
  || includesIgnoreCase text "detected unusual traffic"
  || includesIgnoreCase text "our systems have detected"
  || includesIgnoreCase text "to continue, please"
  || includesIgnoreCase text "not a robot".

(** [locale.split("-")[0]] *)
Fixpoint beforeDash (s : jsstring) : jsstring :=
  match s with
  | [] => []
  | c :: r => if (c =? 45)%N then [] else c :: beforeDash r
  end.

Definition blockedError : JsError := Error_ "Blocked/captcha detected on Google.".

(** ** Pacing helpers of humanize.ts that act on the world *)

Definition sleep (ms : Z) : Prog unit := perform (Sleep ms).

Definition jitter (minMs maxMs : Q) : Prog unit :=
  ms <- liftGen (randomInt minMs maxMs) ;;
  sleep ms.

Fixpoint humanScrollLoop (page : PageId) (n : nat) : Prog unit :=
  match n with
  | O => Ret tt
  | S n' =>
      dy <- liftGen (randomInt 320 980) ;;
      await (MouseWheel page 0 dy) ;;;
      jitter 250 900 ;;;
      humanScrollLoop page n'
  end.

(** [for (let i = 0; i < steps; i++)] runs [steps] times for an integer
    [steps], never for a negative one. *)
Definition humanScroll (page : PageId) (steps : Z) : Prog unit :=
  humanScrollLoop page (Z.to_nat steps).

Section Session.

(** Built-ins of the JavaScript runtime that depend on Unicode tables:
    [String.prototype.toLowerCase], and [encodeURIComponent], which
    throws a URIError on an unpaired surrogate. *)
Variable toLowerCase : jsstring -> jsstring.
Variable encodeURIComponent : jsstring -> Res jsstring.

Definition getHlFromLocale (locale : jsstring) : jsstring :=
  let lang := beforeDash locale in
  toLowerCase (if nonEmpty lang then lang else js "en").

Definition encode (s : jsstring) : Prog jsstring :=
  match encodeURIComponent s with
  | Ok x => Ret x
  | Err e => Throw e
  end.

Definition isBlocked (page : PageId) : Prog bool :=
  url <- perform (PageUrl page) ;;
  if includes url (js "/sorry/") then Ret true
  else
    text <- awaitOr (InnerText page Body 3000) [] ;;
    Ret (blockPatternTest text).

Definition maybeHandleConsent (page : PageId) : Prog unit :=
  rejectVisible <- awaitOr (IsVisible page RejectButton) false ;;
  if rejectVisible then
    awaitOr (Click page RejectButton 5000) tt
  else
    acceptVisible <- awaitOr (IsVisible page AcceptButton) false ;;
    if acceptVisible then awaitOr (Click page AcceptButton 5000) tt
    else Ret tt.

(** The waits for a popup and for an in-place navigation are started
    before the click and awaited after it; each operation appears here
    where its result is awaited. *)
Definition openRandomProduct (page : PageId) : Prog bool :=
  count <- awaitOr (Count page ProductLinks) 0 ;;
  if count <=? 0 then Ret false
  else
    let pickLimit := Z.min count 20 in
    idx <- liftGen (randomInt 0 (inject_Z (pickLimit - 1))) ;;
    let link := ProductLink idx in
    awaitOr (ScrollIntoViewIfNeeded page link 5000) tt ;;;
    jitter 200 900 ;;;
    awaitOr (Click page link 6000) tt ;;;
    popup <- Vis (WaitForPopup 6000)
                 (fun r => Ret (match r with Ok p => Some p | Err _ => None end)) ;;
    awaitOr (WaitForNavigation page 6000) tt ;;;
    match popup with
    | Some p => awaitOr (WaitForLoadState p) tt ;;; Ret true
    | None => Ret true
    end.

Definition returnFromProduct (page : PageId) : Prog unit :=
  pages <- perform ContextPages ;;
  let goBack := awaitOr (GoBack page 10000) tt in
  if (1 <? length pages)%nat then
    let newest := last pages page in
    if negb (Nat.eqb newest page) then
      awaitOr (ClosePage newest) tt ;;;
      awaitOr (BringToFront page) tt
    else goBack
  else goBack.

(** [Promise.allSettled] never rejects: both outcomes are dropped. *)
Definition clickNextPageIfPresent (page : PageId) : Prog bool :=
  visible <- awaitOr (IsVisible page NextLink) false ;;
  if negb visible then Ret false
  else
    perform (WaitForNavigation page 10000) ;;;
    perform (Click page NextLink 5000) ;;;
    Ret true.

Section Browse.
Variables (page : PageId) (config : RunConfig).

(** The three counts drawn by the browse phase. *)
Definition pagesToBrowse : Gen Z :=
  randomInt 1 (Qmax 1 (maxPagesPerQuery config)).
Definition scrolls : Gen Z :=
  randomInt 2 (Qmax 2 (maxScrollsPerPage config)).
Definition productOpens : Gen Z :=
  randomInt 0 (Qmax 0 (maxProductOpensPerQuery config)).

(** [for (let i = 0; i < productOpens; i++)], [n] iterations left. *)
Fixpoint productLoop (n : nat) : Prog unit :=
  match n with
  | O => Ret tt
  | S n' =>
      blocked <- isBlocked page ;;
      if blocked then Throw blockedError
      else
        opened <- openRandomProduct page ;;
        if negb opened then Ret tt
        else
          jitter (minDwellMs config) (maxDwellMs config) ;;;
          returnFromProduct page ;;;
          jitter 500 2000 ;;;
          productLoop n'
  end.

(** [for (let p = 0; p < pagesToBrowse; p++)], [n] iterations left;
    [p < pagesToBrowse - 1] holds when another iteration is left. *)
Fixpoint pageLoop (n : nat) : Prog unit :=
  match n with
  | O => Ret tt
  | S n' =>
      s <- liftGen scrolls ;;
      humanScroll page s ;;;
      opens <- liftGen productOpens ;;
      productLoop (Z.to_nat opens) ;;;
      match n' with
      | O => Ret tt
      | S _ =>
          ok <- clickNextPageIfPresent page ;;
          if negb ok then Ret tt
          else jitter 1000 4000 ;;; pageLoop n'
      end
  end.

Definition browseShoppingForQuery (query : jsstring) : Prog unit :=
  let hl := getHlFromLocale (locale config) in
  encHl <- encode hl ;;
  encQuery <- encode query ;;
  let url := js "https://www.google.com/search?tbm=shop&hl=" ++ encHl
             ++ js "&q=" ++ encQuery in
  perform (ConsoleLog (query_start query url)) ;;;
  await (Goto page url 30000) ;;;
  maybeHandleConsent page ;;;
  blocked <- isBlocked page ;;
  if blocked then Throw blockedError
  else
    pages <- liftGen pagesToBrowse ;;
    pageLoop (Z.to_nat pages) ;;;
    jitter (minDwellMs config) (maxDwellMs config) ;;;
    perform (ConsoleLog (query_end query)).

(** The Query Source: the computation behind its [i]-th call. *)
Variable nextQuery : nat -> Gen jsstring.

(** [for (let i = 0; i < config.maxQueries; i++)], [n] iterations left. *)
Fixpoint queryLoop (n : nat) (i : nat) : Prog unit :=
  match n with
  | O => Ret tt
  | S n' =>
      query <- liftGen (nextQuery i) ;;
      r <- attempt (browseShoppingForQuery query) ;;
      match r with
      | Err err =>
          perform (ConsoleLog (query_error query (String_ err)))
      | Ok _ =>
          jitter (minBetweenQueriesMs config) (maxBetweenQueriesMs config) ;;;
          queryLoop n' (S i)
      end
  end.

End Browse.

(** The listener registered when [logVisitedUrls] is set runs outside
    the session's own control flow; its registration is an operation,
    the lines it writes are not part of [Event]. *)
Definition runShoppingSession (config : RunConfig)
           (nextQuery : nat -> Gen jsstring) : Prog unit :=
  await AddInitScript ;;;
  page <- await NewPage ;;
  perform (SetDefaultTimeout page 20000) ;;;
  (if logVisitedUrls config then perform (OnFrameNavigated page) else Ret tt) ;;;
  queryLoop page config nextQuery (Z.to_nat (Qceiling (maxQueries config))) 0 ;;;
  awaitOr (ClosePage page) tt.

End Session.

End ShoppingSession.
Import ShoppingSession.

(* ================================================================== *)
(** * Vocabulary of the statements *)

(** ** Seed phrases *)

(** A trimmed line is usable when it is not empty and not a comment. *)
Definition usable (s : jsstring) : bool := nonEmpty s && negb (startsWithHash s).

Definition clean_phrase (s : jsstring) : Prop :=
  s <> [] /\ leading_ws s = false /\ trailing_ws s = false /\ startsWithHash s = false.

(** The Query Source after [n] calls of [nextQuery]. *)
Fixpoint afterCalls (n : nat) (src : QuerySource) : QuerySource :=
  match n with
  | O => src
  | S n' => afterCalls n' (snd (nextQuery src))
  end.

(** ** Queries *)

Definition well_formed_query (q : jsstring) : Prop :=
  q <> [] /\ double_ws q = false /\ leading_ws q = false /\ trailing_ws q = false.

(** ** Generators as closures

    Each call of [mulberry32] creates a closure with a variable [a] of its
    own.  The closures created so far live in a store; calling one of them
    reads and writes its own cell. *)
Module Closures.

Record Store : Type := { cell : nat -> Z; fresh : nat }.

Definition write (f : nat -> Z) (g : nat) (a : Z) : nat -> Z :=
  fun g' => if Nat.eqb g' g then a else f g'.

(** [const rng = mulberry32(seed)] *)
Definition create (seed : Q) (h : Store) : nat * Store :=
  (fresh h, {| cell := write (cell h) (fresh h) (mulberry32 seed);
               fresh := S (fresh h) |}).

(** [rng()] *)
Definition call (g : nat) (h : Store) : Q * Store :=
  let (r, a') := mulberry32_next (cell h g) in
  (r, {| cell := write (cell h) g a'; fresh := fresh h |}).

(** [querySource.nextQuery()] for a source built over generator [g]. *)
Definition callNextQuery (g : nat) (seedPhrases : list jsstring) (h : Store)
  : Res jsstring * Store :=
  runGen (call g) (templateQuery seedPhrases) h.

(** Two consumers called in the order given by a schedule ([true]: the
    first one); the two lists are what each of them returned. *)
Fixpoint interleave {A} (first second : Store -> A * Store)
         (schedule : list bool) (h : Store) : list A * list A :=
  match schedule with
  | [] => ([], [])
  | true :: rest =>
      let (x, h') := first h in
      let (l1, l2) := interleave first second rest h' in (x :: l1, l2)
  | false :: rest =>
      let (x, h') := second h in
      let (l1, l2) := interleave first second rest h' in (l1, x :: l2)
  end.

(** A consumer of the store [tracks] a pure step on cell [g] when it
    returns what the step returns on the content of [g], leaves the
    step's new state there, and touches no other cell. *)
Definition tracks {A} (g : nat) (onStore : Store -> A * Store) (pure : Z -> A * Z) : Prop :=
  forall h,
    fst (onStore h) = fst (pure (cell h g))
    /\ cell (snd (onStore h)) g = snd (pure (cell h g))
    /\ forall g', g' <> g -> cell (snd (onStore h)) g' = cell h g'.

End Closures.

(** The first [n] queries of a source over a generator in state [a]. *)
Definition queries (seedPhrases : list jsstring) (n : nat) (a : Z) : list (Res jsstring) :=
  produce (runGen mulberry32_next (templateQuery seedPhrases)) n a.

(** ** Properties of programs and traces *)

Definition is_query_start (ev : Event) : bool :=
  match ev with query_start _ _ => true | _ => false end.

Definition is_query_error (ev : Event) : bool :=
  match ev with query_error _ _ => true | _ => false end.

(** The product link an operation acts on, if any. *)
Definition linkIndex {X} (e : Eff X) : option Z :=
  match e with
  | Click _ (ProductLink idx) _ => Some idx
  | ScrollIntoViewIfNeeded _ (ProductLink idx) _ => Some idx
  | _ => None
  end.

(** Which answers are taken into account: all of them, or those in which
    every draw lies in [0, 1). *)
Definition ok_any (X : Type) (e : Eff X) (x : X) : Prop := True.

Definition ok_rng (X : Type) (e : Eff X) : X -> Prop :=
  match e in Eff X return X -> Prop with
  | Rand => fun r => unit_draw r
  | _ => fun _ => True
  end.

Definition respects (env : Env) (ok : forall X, Eff X -> X -> Prop) : Prop :=
  forall X (e : Eff X) w, ok X e (fst (answer env e w)).

(** [Sat ok phi Q p]: along every path of [p] whose answers are [ok], every
    operation satisfies [phi], and a value returned satisfies [Q]. *)
Inductive Sat {A} (ok : forall X, Eff X -> X -> Prop) (phi : forall X, Eff X -> Prop)
          (Q : A -> Prop) : Prog A -> Prop :=
| Sat_ret a : Q a -> Sat ok phi Q (Ret a)
| Sat_throw e : Sat ok phi Q (Throw e)
| Sat_vis X (e : Eff X) k :
    phi X e -> (forall x, ok X e x -> Sat ok phi Q (k x)) -> Sat ok phi Q (Vis e k).

(** No [query_error] line is written. *)
Definition no_error_line (X : Type) (e : Eff X) : Prop :=
  match e with
  | ConsoleLog ev => is_query_error ev = false
  | _ => True
  end.

(** A wheel movement is vertical, by 320 to 980. *)
Definition wheel_in_range (X : Type) (e : Eff X) : Prop :=
  match e with
  | MouseWheel _ dx dy => dx = 0 /\ 320 <= dy <= 980
  | _ => True
  end.

(** An operation that neither writes a log line nor moves the wheel. *)
Definition quiet {X} (e : Eff X) : bool :=
  match e with
  | ConsoleLog _ | MouseWheel _ _ _ => false
  | _ => true
  end.

(** A product link acted on is one of the first [min(count, 20)]. *)
Definition link_within (count : Z) (X : Type) (e : Eff X) : Prop :=
  forall idx, linkIndex e = Some idx -> 0 <= idx < Z.min count 20.

(** In a log, a [query_error] line is the last line. *)
Definition error_is_last (evs : list Event) : Prop :=
  forall pre query description post,
    evs = pre ++ query_error query description :: post -> post = [].

(** Every operation a run performed satisfies [phi]. *)
Definition each_action (phi : forall X, Eff X -> Prop) (tr : list Action) : Prop :=
  Forall (fun a => match a with Act e _ => phi _ e end) tr.

(** [humanScroll]: the trace of [n] scroll steps, each a draw, a wheel
    movement, a draw and a pause; a wheel movement that rejects ends the
    scroll with its error. *)
Inductive scroll_steps (page : PageId) : nat -> list Action -> Res unit -> Prop :=
| scroll_done : scroll_steps page O [] (Ok tt)
| scroll_step n r1 dy r2 ms tr res :
    320 <= dy <= 980 ->
    250 <= ms <= 900 ->
    scroll_steps page n tr res ->
    scroll_steps page (S n)
                 (Act Rand r1 :: Act (MouseWheel page 0 dy) (Ok tt)
                  :: Act Rand r2 :: Act (Sleep ms) tt :: tr) res
| scroll_rejected n r1 dy err :
    320 <= dy <= 980 ->
    scroll_steps page (S n)
                 [Act Rand r1; Act (MouseWheel page 0 dy) (Err err)] (Err err).

(** ** A scripted browser

    A page with [links] product links that shows the block page after the
    [blockOn]-th navigation; the session's [rng] is a [mulberry32]. *)
Module Stub.

Record World : Type := {
  rngState : Z;
  navigations : nat;
  blockOn : nat;
  links : Z
}.

Definition timeout : JsError := mkError (js "TimeoutError") (js "Timeout exceeded.").

Definition answer (X : Type) (e : Eff X) (w : World) : X * World :=
  match e in Eff X return X * World with
  | Rand =>
      let (r, a) := mulberry32_next (rngState w) in
      (r, {| rngState := a; navigations := navigations w;
             blockOn := blockOn w; links := links w |})
  | Sleep _ => (tt, w)
  | ConsoleLog _ => (tt, w)
  | AddInitScript => (Ok tt, w)
  | NewPage => (Ok 1%nat, w)
  | SetDefaultTimeout _ _ => (tt, w)
  | OnFrameNavigated _ => (tt, w)
  | Goto _ _ _ =>
      (Ok tt, {| rngState := rngState w; navigations := S (navigations w);
                 blockOn := blockOn w; links := links w |})
  | PageUrl _ =>
      (if Nat.eqb (navigations w) (blockOn w)
       then js "https://www.google.com/sorry/index"
       else js "https://www.google.com/search", w)
  | InnerText _ _ _ => (Ok (js "results"), w)
  | IsVisible _ _ => (Ok false, w)
  | Click _ _ _ => (Ok tt, w)
  | Count _ _ => (Ok (links w), w)
  | ScrollIntoViewIfNeeded _ _ _ => (Ok tt, w)
  | WaitForPopup _ => (Err timeout, w)
  | WaitForNavigation _ _ => (Ok tt, w)
  | WaitForLoadState _ => (Ok tt, w)
  | ContextPages => ([1%nat], w)
  | ClosePage _ => (Ok tt, w)
  | BringToFront _ => (Ok tt, w)
  | GoBack _ _ => (Ok tt, w)
  | MouseWheel _ _ _ => (Ok tt, w)
  end.

Definition env : Env := Build_Env answer.

Definition start (seed : Q) (blockOn : nat) (links : Z) : World :=
  {| rngState := mulberry32 seed; navigations := O; blockOn := blockOn; links := links |}.

(** ASCII-only stand-ins for the two built-ins; exact on the inputs used. *)
Definition toLowerCase (s : jsstring) : jsstring :=
  map (fun c => if ((65 <=? c) && (c <=? 90))%N then (c + 32)%N else c) s.

Definition encodeURIComponent (s : jsstring) : Res jsstring := Ok s.

(** A Query Source stubbed to return "a", "b", "c". *)
Definition abc (i : nat) : Gen jsstring := GRet (nth i [js "a"; js "b"; js "c"] []).

Definition threeQueries : RunConfig := {|
  braveExecutablePath := [];
  braveUserDataDir := [];
  braveProfileDirectory := js "Default";
  headless := false;
  locale := js "en-US";
  cleanSingletons := false;
  maxQueries := 3;
  minDwellMs := 1000;
  maxDwellMs := 5000;
  minBetweenQueriesMs := 7000;
  maxBetweenQueriesMs := 15000;
  maxProductOpensPerQuery := 2;
  maxScrollsPerPage := 8;
  maxPagesPerQuery := 1;
  seedFile := None;
  logVisitedUrls := false
|}.

End Stub.

(* ================================================================== *)
(** * Vocabulary of the further properties *)

(* ================================================================== *)
(** * Further functions of the source *)

(** ** typeLikeHuman (humanize.ts)

    The [page] argument is any object with a [type] method; it is the
    parameter [pageType], called with the selector, the text and the
    [delay] option. *)
Definition typeLikeHuman {A} (pageType : jsstring -> jsstring -> Z -> Prog A)
           (selector text : jsstring) : Prog A :=
  bind (liftGen (randomInt 30 120))
       (fun perCharDelay => pageType selector text perCharDelay).

(** ** Files of seed phrases *)

(** A file that lists the given lines, separated by line feeds. *)
Fixpoint joinLines (lines : list jsstring) : jsstring :=
  match lines with
  | [] => []
  | x :: rest =>
      match rest with
      | [] => x
      | _ :: _ => x ++ LF :: joinLines rest
      end
  end.

(** The same text with Windows line endings: every line feed preceded by a
    carriage return. *)
Fixpoint crlf (s : jsstring) : jsstring :=
  match s with
  | [] => []
  | c :: r => if (c =? LF)%N then CR :: LF :: crlf r else c :: crlf r
  end.

Definition has_no (c : N) (s : jsstring) : Prop := Forall (fun x => x <> c) s.

(** ** Draws consumed and words kept *)

(** The number of draws a run consumes. *)
Fixpoint drawCount {A St} (step : St -> Q * St) (m : Gen A) (s : St) : nat :=
  match m with
  | GRet _ | GThrow _ => O
  | GRand k => let (r, s') := step s in S (drawCount step (k r) s')
  end.

(** [DrawsIn P lo hi m]: on every sequence of draws in [0, 1), [m]
    consumes at least [lo] and at most [hi] draws and then returns a value
    satisfying [P]. *)
Inductive DrawsIn {A} (P : A -> Prop) : nat -> nat -> Gen A -> Prop :=
| DrawsIn_ret a hi : P a -> DrawsIn P 0 hi (GRet a)
| DrawsIn_rand k lo hi :
    (forall r, unit_draw r -> DrawsIn P (pred lo) hi (k r)) ->
    DrawsIn P lo (S hi) (GRand k).

(** [w] occurs in [q] as a contiguous piece. *)
Definition occurs_in (w q : jsstring) : Prop := exists p s, q = p ++ w ++ s.

(** Every whitespace code unit of [q] is the space U+0020. *)
Definition only_spaces (q : jsstring) : bool :=
  forallb (fun c => negb (is_ws c) || (c =? space)%N) q.

(** A non-empty word that starts and ends with ink, whose whitespace is
    single spaces. *)
Definition solid (w : jsstring) : bool :=
  nonEmpty w && negb (leading_ws w) && negb (trailing_ws w)
  && negb (double_ws w) && only_spaces w.

(** A query keeps a category, whatever is put around it. *)
Definition anchored (q : jsstring) : Prop :=
  exists c, In c categories /\ occurs_in c q.

(** ** Programs that cannot throw, and operations they avoid *)

(** [NoThrow p]: no path of [p] ends in a throw, whatever the answers. *)
Inductive NoThrow {A} : Prog A -> Prop :=
| NoThrow_ret a : NoThrow (Ret a)
| NoThrow_vis X (e : Eff X) k : (forall x, NoThrow (k x)) -> NoThrow (Vis e k).

(** Closing a page other than [page]. *)
Definition spares (page : PageId) (X : Type) (e : Eff X) : Prop :=
  match e with
  | ClosePage p => p <> page
  | _ => True
  end.

(** An operation on the "next results page" link. *)
Definition on_next_link {X} (e : Eff X) : bool :=
  match e with
  | IsVisible _ NextLink | Click _ NextLink _ => true
  | _ => false
  end.

(** The code unit of '-', the separator of the subtags of a locale. *)
Definition dash : N := 45.

(** An operation that the session's invariants never single out: anything
    but a pause, a log line, the closing of a page, a wheel movement, or an
    operation on the "next results page" link. *)
Definition plain {X} (e : Eff X) : bool :=
  match e with
  | Sleep _ | ConsoleLog _ | ClosePage _ | MouseWheel _ _ _ => false
  | IsVisible _ NextLink | Click _ NextLink _ => false
  | _ => true
  end.

(** A pause of at least [floor] milliseconds. *)
Definition pause_at_least (floor : Z) (X : Type) (e : Eff X) : Prop :=
  match e with
  | Sleep ms => floor <= ms
  | _ => True
  end.

(** Anything but an operation on the "next results page" link. *)
Definition off_next_link (X : Type) (e : Eff X) : Prop := on_next_link e = false.

(** The alternatives of the block pattern of [isBlocked]. *)
Definition blockPhrases : list string :=
  [ "unusual traffic"; "detected unusual traffic"; "our systems have detected";
    "to continue, please"; "not a robot" ]%string.

(** ** The shape of the session's log *)

(** An operation other than a log line. *)
Definition silent (X : Type) (e : Eff X) : Prop :=
  match e with
  | ConsoleLog _ => False
  | _ => True
  end.

(** [url] is the search URL of [query]: the fixed prefix, the encoded
    language hint of the configured locale, and the encoded query. *)
Definition searchUrl (toLowerCase : jsstring -> jsstring)
           (encodeURIComponent : jsstring -> Res jsstring)
           (config : RunConfig) (query url : jsstring) : Prop :=
  exists encHl encQuery,
    encodeURIComponent (getHlFromLocale toLowerCase (locale config)) = Ok encHl
    /\ encodeURIComponent query = Ok encQuery
    /\ url = js "https://www.google.com/search?tbm=shop&hl=" ++ encHl
             ++ js "&q=" ++ encQuery.

(** The logs of a session of at most [n] queries: a run of completed
    queries, each a [query_start] line and the [query_end] line of the same
    query, then possibly one failed query, which is a [query_error] line
    after the [query_start] line of the same query, or alone. *)
Inductive session_log (U : jsstring -> jsstring -> Prop) : nat -> list Event -> Prop :=
| log_over n : session_log U n []
| log_query n q url rest :
    U q url -> session_log U n rest ->
    session_log U (S n) (query_start q url :: query_end q :: rest)
| log_failed n q url d :
    U q url -> session_log U (S n) [query_start q url; query_error q d]
| log_refused n q d : session_log U (S n) [query_error q d].

(** The log of a run is [good] when it returns, and empty when it throws. *)
Definition logs {A W} (good : list Event) (x : Res A * list Action * W) : Prop :=
  logOf (trace x) = match outcome x with Ok _ => good | Err _ => [] end.

(** ** Programs that return *)

(** [Safe ok p]: no path of [p] whose answers are [ok] ends in a throw. *)
Inductive Safe {A} (ok : forall X, Eff X -> X -> Prop) : Prog A -> Prop :=
| Safe_ret a : Safe ok (Ret a)
| Safe_vis X (e : Eff X) k :
    (forall x, ok X e x -> Safe ok (k x)) -> Safe ok (Vis e k).

(** The rejection reason, when the action is a navigation or a wheel
    movement that rejected. *)
Definition rejection (a : Action) : option JsError :=
  match a with
  | @Act X e x =>
      match e in Eff X return X -> option JsError with
      | Goto _ _ _ => fun r => match r with Err err => Some err | Ok _ => None end
      | MouseWheel _ _ _ => fun r => match r with Err err => Some err | Ok _ => None end
      | _ => fun _ => None
      end x
  end.

(** A throw of [p] is an error of [E], or the rejection of the last
    operation performed. *)
Definition fails_from (E : JsError -> Prop) (env : Env) {A} (p : Prog A) : Prop :=
  forall (w : World env) err,
    outcome (exec env p w) = Err err ->
    E err \/ exists tr a, trace (exec env p w) = tr ++ [a] /\ rejection a = Some err.

(** ** The regime in which double arithmetic is exact *)

(** A draw that is a multiple of [2^-32] in [0, 1), as every draw of a
    [mulberry32] generator is. *)
Definition grid_draw (r : Q) : Prop :=
  exists u : Z, 0 <= u < Int32.two32 /\ (r == inject_Z u / inject_Z Int32.two32)%Q.

(** An environment whose [rng] draws on that grid. *)
Definition rng_grid (env : Env) : Prop :=
  forall w, grid_draw (fst (answer env Rand w)).

(** Bounds of [randomInt] with which every intermediate result is a
    double: the range is empty, or its ends are at most [2^52] in absolute
    value and it has at most [2^21] integers. *)
Definition exact_range (minInclusive maxInclusive : Q) : Prop :=
  Qfloor maxInclusive < Qceiling minInclusive
  \/ (- 2 ^ 52 <= Qceiling minInclusive
      /\ Qfloor maxInclusive <= 2 ^ 52
      /\ Qfloor maxInclusive - Qceiling minInclusive < 2 ^ 21).

(** [agree_on_grid m64 m]: a computation in double arithmetic and one in
    exact arithmetic make the same draws and, on draws of the grid, return
    the same integer. *)
Inductive agree_on_grid : Gen Float64.number -> Gen Z -> Prop :=
| agree_ret z : agree_on_grid (GRet (Float64.Finite (inject_Z z))) (GRet z)
| agree_rand k64 k :
    (forall r, grid_draw r -> agree_on_grid (k64 r) (k r)) ->
    agree_on_grid (GRand k64) (GRand k).

(** The integer of [lo .. hi] that [randomInt] returns on the draw [r]. *)
Definition scaled (lo hi : Z) (r : Q) : Z :=
  Qfloor (r * inject_Z (hi - lo + 1)) + lo.

(** A draw that is a double in [0, 1). *)
Definition double_draw (r : Q) : Prop :=
  unit_draw r
  /\ exists M E : Z,
       (r == inject_Z M * Float64.pow2 E)%Q /\ Z.abs M < 2 ^ 53 /\ -1074 <= E.

(** ** The counts of the browse phase *)

(** [m] draws once and returns the integer of [lo .. hi] whose share of
    [0, 1) holds the draw: on a draw [r] of the grid the result is [k]
    exactly when [(k - lo) / n <= r < (k - lo + 1) / n], for the [n]
    integers of the range. *)
Definition uniform_on (lo hi : Z) (m : Gen Z) : Prop :=
  lo <= hi
  /\ m = GRand (fun r => GRet (scaled lo hi r))
  /\ forall r, grid_draw r ->
       lo <= scaled lo hi r <= hi
       /\ forall k, scaled lo hi r = k <->
            (inject_Z (k - lo) / inject_Z (hi - lo + 1) <= r
             /\ r < inject_Z (k - lo + 1) / inject_Z (hi - lo + 1))%Q.

(** A configuration whose three maxima are at most 2^20. *)
Definition small_counts (config : RunConfig) : Prop :=
  (maxPagesPerQuery config <= 1048576)%Q
  /\ (maxScrollsPerPage config <= 1048576)%Q
  /\ (maxProductOpensPerQuery config <= 1048576)%Q.

(** Anything but a draw. *)
Definition no_draw (X : Type) (e : Eff X) : Prop :=
  match e with
  | Rand => False
  | _ => True
  end.

(** A run that failed before drawing, or whose first draw [r] is followed
    by the run of [rest r]. *)
Definition first_draw (env : Env) {A} (rest : Q -> Prog A)
           (x : Res A * list Action * World env) : Prop :=
  ((exists err, outcome x = Err err) /\ each_action no_draw (trace x))
  \/ exists pre r w1,
       each_action no_draw pre
       /\ grid_draw r
       /\ x = (let '(res, tr, wf) := exec env (rest r) w1 in
               (res, pre ++ Act Rand r :: tr, wf)).

(* ================================================================== *)
(** * Facts about draws and [Gen] *)

Lemma Returns_weaken {A} (P Q : A -> Prop) (m : Gen A) :
  (forall a, P a -> Q a) -> Returns P m -> Returns Q m.
Proof.
  intros HPQ H. induction H as [a Ha | k _ IH].
  - constructor. auto.
  - constructor. intros r Hr. exact (IH r Hr).
Qed.

Lemma Returns_bind {A B} (Q : A -> Prop) (P : B -> Prop) (m : Gen A) (f : A -> Gen B) :
  Returns Q m -> (forall a, Q a -> Returns P (f a)) -> Returns P (gbind m f).
Proof.
  intros Hm Hf. induction Hm as [a Ha | k _ IH]; simpl.
  - exact (Hf a Ha).
  - constructor. intros r Hr. exact (IH r Hr).
Qed.

Lemma Returns_rand_unit : Returns unit_draw rand.
Proof. constructor. intros r Hr. constructor. exact Hr. Qed.

(** A program that [Returns P] does so against every generator whose draws
    lie in [0, 1). *)
Lemma runGen_Returns {A St} (step : St -> Q * St) (P : A -> Prop) (m : Gen A) :
  (forall s, unit_draw (fst (step s))) ->
  Returns P m ->
  forall s, exists a, fst (runGen step m s) = Ok a /\ P a.
Proof.
  intros Hstep H. induction H as [a Ha | k _ IH]; intros s; simpl.
  - exists a. split; [reflexivity | exact Ha].
  - specialize (Hstep s). destruct (step s) as [r s']. simpl in Hstep.
    exact (IH r Hstep s').
Qed.

Lemma toUint32_range z : 0 <= Int32.toUint32 z < Int32.two32.
Proof. unfold Int32.toUint32, Int32.two32. apply Z.mod_pos_bound. lia. Qed.

Lemma unit_draw_of_uint32 u :
  0 <= u < Int32.two32 -> unit_draw (inject_Z u / inject_Z Int32.two32).
Proof.
  intros [H0 H1]. unfold unit_draw, Qle, Qlt, Int32.two32 in *. simpl. lia.
Qed.

Lemma mulberry32_next_unit a : unit_draw (fst (mulberry32_next a)).
Proof.
  unfold mulberry32_next. cbv zeta. cbn [fst].
  apply unit_draw_of_uint32.
  unfold Int32.ushr32. change (0 mod 32) with 0. rewrite Z.shiftr_0_r.
  apply toUint32_range.
Qed.

(** [Math.floor(r * n)] for a draw [r] in [0, 1) and a positive integer [n]. *)
Lemma floor_scale r n :
  unit_draw r -> 0 < n -> 0 <= Qfloor (r * inject_Z n) < n.
Proof.
  intros [H0 H1] Hn.
  assert (Hn' : (0 < inject_Z n)%Q)
    by (change 0%Q with (inject_Z 0); rewrite <- Zlt_Qlt; exact Hn).
  split.
  - change 0 with (Qfloor 0). apply Qfloor_resp_le.
    apply Qmult_le_0_compat; [exact H0 | apply Qlt_le_weak; exact Hn'].
  - rewrite Zlt_Qlt. apply Qle_lt_trans with (r * inject_Z n)%Q.
    + apply Qfloor_le.
    + setoid_replace (inject_Z n) with (1 * inject_Z n)%Q at 2 by ring.
      apply Qmult_lt_compat_r; assumption.
Qed.

(* ================================================================== *)
(** * randomInt and randomChoice *)

Lemma Returns_randomInt (minInclusive maxInclusive : Q) :
  Returns (fun n => (Qceiling minInclusive <= Qfloor maxInclusive ->
                     Qceiling minInclusive <= n <= Qfloor maxInclusive)
                    /\ (Qfloor maxInclusive < Qceiling minInclusive ->
                        n = Qceiling minInclusive))
          (randomInt minInclusive maxInclusive).
Proof.
  unfold randomInt.
  destruct (Z.ltb_spec (Qfloor maxInclusive) (Qceiling minInclusive)) as [Hlt | Hge].
  - constructor. split; intros; [lia | reflexivity].
  - constructor. intros r Hr. constructor.
    pose proof (@floor_scale r (Qfloor maxInclusive - Qceiling minInclusive + 1) Hr
                  ltac:(lia)) as Hf.
    split; intros; lia.
Qed.

Lemma randomInt_degenerate (minInclusive maxInclusive : Q) :
  Qfloor maxInclusive < Qceiling minInclusive ->
  randomInt minInclusive maxInclusive = GRet (Qceiling minInclusive).
Proof.
  intros H. unfold randomInt.
  destruct (Z.ltb_spec (Qfloor maxInclusive) (Qceiling minInclusive)); [reflexivity | lia].
Qed.

Lemma choiceIndex_range r len :
  unit_draw r -> (0 < len)%nat -> (Z.to_nat (choiceIndex r len) < len)%nat.
Proof.
  intros Hr Hlen. unfold choiceIndex.
  pose proof (@floor_scale r (Z.of_nat len) Hr ltac:(lia)). lia.
Qed.

Lemma Returns_randomChoice {T} (items : list T) :
  items <> [] -> Returns (fun x => In x items) (randomChoice items).
Proof.
  destruct items as [| d rest]; [congruence |]. intros _.
  unfold randomChoice. constructor. intros r Hr. constructor.
  apply nth_In. apply choiceIndex_range; [exact Hr | simpl; lia].
Qed.

(* ================================================================== *)
(** * Double arithmetic where it is exact *)

Section Rounding.
Import Float64.

Lemma pow2_pos e : (0 < pow2 e)%Q.
Proof. apply Qpower_0_lt. reflexivity. Qed.

Lemma pow2_add a b : (pow2 (a + b) == pow2 a * pow2 b)%Q.
Proof. apply Qpower_plus. discriminate. Qed.

Lemma pow2_Z n : 0 <= n -> (pow2 n == inject_Z (2 ^ n))%Q.
Proof. intros H. symmetry. exact (Zpower_Qpower 2 n H). Qed.

Lemma pow2_lt_inv a b : (pow2 a < pow2 b)%Q -> a < b.
Proof. intros H. apply (Qpower_lt_compat_l_inv (2 # 1) a b H). reflexivity. Qed.

Lemma pow2_le a b : a <= b -> (pow2 a <= pow2 b)%Q.
Proof. intros H. apply Qpower_le_compat_l; [exact H | discriminate]. Qed.

(** The estimate of [ilog2] is not above the true logarithm. *)
Lemma ilog2_le a : (0 < a)%Q -> (pow2 (ilog2 a) <= a)%Q.
Proof.
  intros Ha. unfold ilog2.
  destruct (Qle_bool (pow2 (Z.log2 (Qnum a) - Z.log2 (Z.pos (Qden a)))) a) eqn:E;
    [apply Qle_bool_iff; exact E |].
  destruct a as [n d]. cbn [Qnum Qden] in *.
  assert (Hn : 0 < n) by (unfold Qlt in Ha; cbn in Ha; lia).
  pose proof (Z.log2_spec n Hn) as [Hn1 _].
  pose proof (Z.log2_spec (Z.pos d) ltac:(lia)) as [_ Hd2].
  pose proof (Z.log2_nonneg n) as Hln. pose proof (Z.log2_nonneg (Z.pos d)) as Hld.
  set (ln := Z.log2 n) in *. set (ld := Z.log2 (Z.pos d)) in *.
  replace (ln - ld - 1) with (ln + - (ld + 1)) by lia.
  rewrite pow2_add. unfold pow2 at 2. rewrite Qpower_opp.
  fold (pow2 (ld + 1)). rewrite (pow2_Z Hln), (pow2_Z (n := ld + 1)) by lia.
  apply Qle_shift_div_r.
  - change 0%Q with (inject_Z 0). rewrite <- Zlt_Qlt. lia.
  - replace (Z.succ ld) with (ld + 1) in Hd2 by lia.
    unfold Qle, Qmult, inject_Z. cbn [Qnum Qden]. nia.
Qed.

Lemma nearest_even_Z x k : (x == inject_Z k)%Q -> nearest_even x = k.
Proof.
  intros H. unfold nearest_even.
  assert (Hf : Qfloor x = k) by (rewrite H; apply Qfloor_Z).
  rewrite Hf.
  assert (Hc : (x - inject_Z k ?= 1 # 2)%Q = Lt).
  { apply Qlt_alt. rewrite H. unfold Qminus. rewrite Qplus_opp_r. reflexivity. }
  rewrite Hc. reflexivity.
Qed.

Lemma Qred_inject_Z z : Qred (inject_Z z) = inject_Z z.
Proof.
  unfold Qred, inject_Z.
  pose proof (Z.ggcd_gcd z 1) as Hg. pose proof (Z.ggcd_correct_divisors z 1) as Hd.
  destruct (Z.ggcd z 1) as [g [a b]]. cbn [fst snd] in *. destruct Hd as [Ha Hb].
  rewrite Z.gcd_1_r in Hg. subst g. rewrite Z.mul_1_l in Ha, Hb.
  rewrite <- Ha, <- Hb. reflexivity.
Qed.

Lemma negative_signs q : ((if negative q then - Qabs q else Qabs q) == q)%Q.
Proof.
  unfold negative. destruct (Z.ltb_spec (Qnum q) 0) as [Hn | Hn].
  - rewrite Qabs_neg; [apply Qopp_involutive |]. unfold Qle. cbn. lia.
  - apply Qabs_pos. unfold Qle. cbn. lia.
Qed.

(** A value [M * 2^E] with less than 53 bits in [M] and [E] between -1074
    and 0 is a double: rounding returns it. *)
Lemma round_exact q M E :
  (q == inject_Z M * pow2 E)%Q -> Z.abs M < 2 ^ 53 -> -1074 <= E <= 0 ->
  round q = Finite (Qred q).
Proof.
  intros Hq HM HE. unfold round.
  destruct (Qeq_bool q 0) eqn:Ez.
  { apply Qeq_bool_iff in Ez. f_equal. symmetry. exact (Qred_complete _ _ Ez). }
  apply Qeq_bool_neq in Ez. cbv zeta.
  assert (Ha : (Qabs q == inject_Z (Z.abs M) * pow2 E)%Q).
  { rewrite Hq, Qabs_Qmult. apply Qmult_comp; [reflexivity |].
    apply Qabs_pos. apply Qlt_le_weak, pow2_pos. }
  assert (HM0 : M <> 0).
  { intros ->. apply Ez. rewrite Hq. apply Qmult_0_l. }
  assert (Hpos : (0 < Qabs q)%Q).
  { rewrite Ha. apply Qmult_lt_0_compat; [| apply pow2_pos].
    change 0%Q with (inject_Z 0). rewrite <- Zlt_Qlt. lia. }
  assert (Hup : (Qabs q < pow2 (53 + E))%Q).
  { rewrite Ha, pow2_add, (pow2_Z (n := 53)) by lia.
    apply Qmult_lt_compat_r; [apply pow2_pos |]. rewrite <- Zlt_Qlt. exact HM. }
  pose proof (Qle_lt_trans _ _ _ (ilog2_le Hpos) Hup) as Hl. apply pow2_lt_inv in Hl.
  set (e := Z.max (ilog2 (Qabs q) - 52) (-1074)).
  assert (He : e <= E) by (unfold e; lia).
  assert (Hscaled : (Qabs q / pow2 e == inject_Z (Z.abs M * 2 ^ (E - e)))%Q).
  { rewrite Ha, inject_Z_mult, <- (pow2_Z (n := E - e)) by lia.
    replace E with ((E - e) + e) at 1 by lia. rewrite pow2_add.
    field. intros H0. pose proof (pow2_pos e) as Hp. rewrite H0 in Hp.
    exact (Qlt_irrefl 0 Hp). }
  rewrite (nearest_even_Z Hscaled).
  assert (Hv : (inject_Z (Z.abs M * 2 ^ (E - e)) * pow2 e == Qabs q)%Q).
  { rewrite <- Hscaled. field. intros H0. pose proof (pow2_pos e) as Hp.
    rewrite H0 in Hp. exact (Qlt_irrefl 0 Hp). }
  destruct (Qle_bool (pow2 1024) (inject_Z (Z.abs M * 2 ^ (E - e)) * pow2 e)) eqn:Eo.
  { exfalso. apply Qle_bool_iff in Eo. rewrite Hv in Eo.
    pose proof (Qle_lt_trans _ _ _ Eo Hup) as Hlt. apply pow2_lt_inv in Hlt. lia. }
  f_equal. apply Qred_complete.
  pose proof (negative_signs q) as Hs.
  destruct (negative q); rewrite Hv; exact Hs.
Qed.

(** Integers below [2^53] in absolute value are doubles. *)
Lemma round_int q z :
  (q == inject_Z z)%Q -> Z.abs z < 2 ^ 53 -> round q = Finite (inject_Z z).
Proof.
  intros Hq Hz. rewrite (@round_exact q z 0); [| | exact Hz | lia].
  - rewrite (Qred_complete _ _ Hq), Qred_inject_Z. reflexivity.
  - rewrite Hq. change (pow2 0) with 1%Q. symmetry. apply Qmult_1_r.
Qed.

End Rounding.

(* ================================================================== *)
(** * Exact and double arithmetic agree on the grid *)

Lemma grid_unit r : grid_draw r -> unit_draw r.
Proof.
  intros [u [Hu Hr]]. destruct (unit_draw_of_uint32 Hu) as [H0 H1].
  split; rewrite Hr; assumption.
Qed.

Lemma rng_grid_ok env : rng_grid env -> rng_ok env.
Proof. intros H w. apply grid_unit, H. Qed.

Lemma mulberry32_next_grid a : grid_draw (fst (mulberry32_next a)).
Proof.
  unfold mulberry32_next. cbv zeta. cbn [fst]. eexists. split; [| reflexivity].
  unfold Int32.ushr32. change (0 mod 32) with 0. rewrite Z.shiftr_0_r.
  apply toUint32_range.
Qed.

Lemma Stub_rng_grid : rng_grid Stub.env.
Proof.
  intros w. cbn [answer Stub.env Stub.answer].
  pose proof (mulberry32_next_grid (Stub.rngState w)) as H.
  destruct (mulberry32_next (Stub.rngState w)) as [r a]. exact H.
Qed.

Lemma randomInt_scaled (a b : Q) :
  Qceiling a <= Qfloor b ->
  Humanize.randomInt a b = GRand (fun r => GRet (scaled (Qceiling a) (Qfloor b) r)).
Proof.
  intros Hle. unfold Humanize.randomInt, scaled.
  destruct (Z.ltb_spec (Qfloor b) (Qceiling a)); [lia | reflexivity].
Qed.

Section Exact.
Import Float64.

Lemma lt_Z x y : lt (Finite (inject_Z x)) (Finite (inject_Z y)) = (x <? y).
Proof.
  cbn [lt]. destruct (Z.ltb_spec x y) as [H | H].
  - destruct (Qle_bool (inject_Z y) (inject_Z x)) eqn:E; [| reflexivity].
    apply Qle_bool_iff in E. rewrite <- Zle_Qle in E. lia.
  - assert (E : Qle_bool (inject_Z y) (inject_Z x) = true)
      by (apply Qle_bool_iff; rewrite <- Zle_Qle; exact H).
    rewrite E. reflexivity.
Qed.

Lemma add_Z x y :
  Z.abs (x + y) < 2 ^ 53 ->
  add (Finite (inject_Z x)) (Finite (inject_Z y)) = Finite (inject_Z (x + y)).
Proof.
  intros H. cbn [add]. apply round_int; [| exact H].
  rewrite inject_Z_plus. reflexivity.
Qed.

Lemma sub_Z x y :
  Z.abs (x - y) < 2 ^ 53 ->
  sub (Finite (inject_Z x)) (Finite (inject_Z y)) = Finite (inject_Z (x - y)).
Proof.
  intros H. unfold sub. cbn [neg add]. apply round_int; [| exact H].
  unfold Z.sub. rewrite inject_Z_plus, inject_Z_opp. reflexivity.
Qed.

(** A draw of the grid times an integer of at most 21 bits. *)
Lemma mul_grid r n :
  grid_draw r -> 0 <= n <= 2 ^ 21 ->
  mul (Finite r) (Finite (inject_Z n)) = Finite (Qred (r * inject_Z n)).
Proof.
  intros [u [Hu Hr]] Hn. cbn [mul]. unfold Int32.two32 in *.
  apply round_exact with (M := u * n) (E := -32); [| nia | lia].
  rewrite Hr, inject_Z_mult. change (pow2 (-32)) with (1 # 4294967296)%Q.
  unfold Qdiv. change (/ inject_Z 4294967296)%Q with (1 # 4294967296)%Q. ring.
Qed.

(** The arithmetic of [randomInt] on a non-empty range. *)
Lemma randomInt_value lo hi r :
  grid_draw r -> lo <= hi -> - 2 ^ 52 <= lo -> hi <= 2 ^ 52 -> hi - lo < 2 ^ 21 ->
  add (floor (mul (Finite r)
                  (add (sub (Finite (inject_Z hi)) (Finite (inject_Z lo))) (Finite 1))))
      (Finite (inject_Z lo))
  = Finite (inject_Z (scaled lo hi r)).
Proof.
  intros Hr Hle Hlo Hhi Hw.
  rewrite sub_Z by lia. change (Finite 1) with (Finite (inject_Z 1)).
  rewrite add_Z by lia. rewrite mul_grid by (try exact Hr; lia).
  cbn [floor]. rewrite (Qfloor_comp _ _ (Qred_correct _)).
  pose proof (floor_scale (n := hi - lo + 1) (grid_unit Hr) ltac:(lia)) as Hf.
  rewrite add_Z by lia. reflexivity.
Qed.

Lemma randomInt_exact (minInclusive maxInclusive : Q) :
  exact_range minInclusive maxInclusive ->
  agree_on_grid (Float64.randomInt (Finite minInclusive) (Finite maxInclusive))
                (Humanize.randomInt minInclusive maxInclusive).
Proof.
  intros Hx. unfold Float64.randomInt, Humanize.randomInt. cbn [ceil floor]. cbv zeta.
  rewrite lt_Z.
  destruct (Z.ltb_spec (Qfloor maxInclusive) (Qceiling minInclusive)) as [Hlt | Hge];
    [constructor |].
  destruct Hx as [Hx | [Hlo [Hhi Hw]]]; [lia |].
  constructor. intros r Hr. rewrite randomInt_value by assumption. constructor.
Qed.

(** [Math.max] and [Qmax] have the same floor. *)
Lemma floor_max a b :
  floor (max (Finite a) (Finite b)) = Finite (inject_Z (Qfloor (Qmax a b))).
Proof.
  cbn [max lt]. unfold Qmax, GenericMinMax.gmax.
  destruct (Qcompare_spec a b) as [E | L | G].
  - assert (H : Qle_bool b a = true) by (apply Qle_bool_iff; rewrite E; apply Qle_refl).
    rewrite H. reflexivity.
  - destruct (Qle_bool b a) eqn:H; [| reflexivity].
    apply Qle_bool_iff in H. exfalso. exact (Qlt_not_le _ _ L H).
  - assert (H : Qle_bool b a = true) by (apply Qle_bool_iff, Qlt_le_weak; exact G).
    rewrite H. reflexivity.
Qed.

Lemma randomInt_floor lo x y :
  floor x = floor y -> Float64.randomInt lo x = Float64.randomInt lo y.
Proof. intros H. unfold Float64.randomInt. rewrite H. reflexivity. Qed.

(** A count of the browse phase: [randomInt(rng, lo, Math.max(lo, x))]. *)
Lemma count_exact (lo : Z) (x : Q) :
  - 2 ^ 51 <= lo <= 2 ^ 51 -> (x <= inject_Z (lo + 2 ^ 20))%Q ->
  agree_on_grid
    (Float64.randomInt (Finite (inject_Z lo)) (max (Finite (inject_Z lo)) (Finite x)))
    (Humanize.randomInt (inject_Z lo) (Qmax (inject_Z lo) x)).
Proof.
  intros Hlo Hx.
  rewrite (@randomInt_floor _ _ (Finite (Qmax (inject_Z lo) x)))
    by (rewrite floor_max; reflexivity).
  apply randomInt_exact. right. rewrite Qceiling_Z.
  assert (Hhi : Qfloor (Qmax (inject_Z lo) x) <= lo + 2 ^ 20).
  { rewrite <- (Qfloor_Z (lo + 2 ^ 20)). apply Qfloor_resp_le.
    apply Q.max_lub; [rewrite <- Zle_Qle; lia | exact Hx]. }
  lia.
Qed.

Lemma agree_run {St} (step : St -> Q * St) m64 m (s : St) :
  (forall s, grid_draw (fst (step s))) -> agree_on_grid m64 m ->
  exists n s',
    runGen step m s = (Ok n, s')
    /\ runGen step m64 s = (Ok (Finite (inject_Z n)), s').
Proof.
  intros Hstep H. revert s. induction H as [z | k64 k _ IH]; intros s; cbn [runGen].
  - exists z, s. split; reflexivity.
  - pose proof (Hstep s) as Hr. destruct (step s) as [r s1]. cbn [fst] in Hr.
    exact (IH r Hr s1).
Qed.

(** The index of [randomChoice] on a list of at most [2^21] elements. *)
Lemma choiceIndex_exact r len :
  grid_draw r -> Z.of_nat len <= 2 ^ 21 ->
  Float64.choiceIndex r len = Finite (inject_Z (Humanize.choiceIndex r len)).
Proof.
  intros Hr Hlen. unfold Float64.choiceIndex, Humanize.choiceIndex.
  rewrite mul_grid by (try exact Hr; lia). cbn [floor].
  rewrite (Qfloor_comp _ _ (Qred_correct _)). reflexivity.
Qed.

End Exact.

(* ================================================================== *)
(** * Double arithmetic on any draw *)

Section Scaling.
Import Float64.

Lemma grid_double r : grid_draw r -> double_draw r.
Proof.
  intros Hr. split; [exact (grid_unit Hr) |].
  destruct Hr as [u [Hu Hr]]. exists u, (-32). unfold Int32.two32 in *.
  split; [| lia]. rewrite Hr. change (pow2 (-32)) with (1 # 4294967296)%Q.
  unfold Qdiv. change (/ inject_Z 4294967296)%Q with (1 # 4294967296)%Q. reflexivity.
Qed.

(** The largest double below 1 is [1 - 2^-53]. *)
Lemma double_below_one r :
  double_draw r -> (r <= 1 - pow2 (-53))%Q.
Proof.
  intros [[H0 H1] [M [E [Hr [HM HE]]]]].
  destruct (Z.le_gt_cases 0 E) as [Hpos | Hneg].
  - (* an integer below 1 is at most 0 *)
    assert (Hz : (r == inject_Z (M * 2 ^ E))%Q)
      by (rewrite Hr, inject_Z_mult, (pow2_Z Hpos); reflexivity).
    rewrite Hz in H1 |- *. change 1%Q with (inject_Z 1) in H1.
    rewrite <- Zlt_Qlt in H1.
    apply Qle_trans with (inject_Z 0); [rewrite <- Zle_Qle; lia | vm_compute; discriminate].
  - set (j := - E). assert (Hj : 0 < j) by (unfold j; lia).
    assert (Hp : (pow2 E == / inject_Z (2 ^ j))%Q).
    { replace E with (- j) by (unfold j; lia). unfold pow2. rewrite Qpower_opp.
      fold (pow2 j). rewrite (pow2_Z (n := j)) by lia. reflexivity. }
    assert (H2j : (0 < inject_Z (2 ^ j))%Q).
    { change 0%Q with (inject_Z 0). rewrite <- Zlt_Qlt. apply Z.pow_pos_nonneg; lia. }
    assert (Hrj : (r == inject_Z M / inject_Z (2 ^ j))%Q) by (rewrite Hr, Hp; reflexivity).
    assert (HMj : M < 2 ^ j).
    { rewrite Zlt_Qlt. apply (Qmult_lt_r _ _ (/ inject_Z (2 ^ j))).
      - apply Qinv_lt_0_compat. exact H2j.
      - fold (Qdiv (inject_Z M) (inject_Z (2 ^ j))). rewrite <- Hrj.
        rewrite Qmult_inv_r; [exact H1 |].
        intros H. rewrite H in H2j. exact (Qlt_irrefl 0 H2j). }
    change (pow2 (-53)) with (1 # 9007199254740992)%Q.
    rewrite Hrj. apply Qle_shift_div_r; [exact H2j |].
    destruct (Z.le_gt_cases j 53) as [Hs | Hl].
    + (* M <= 2^j - 1 and 2^j <= 2^53 *)
      assert (H53 : 2 ^ 53 = 2 ^ j * 2 ^ (53 - j))
        by (rewrite <- Z.pow_add_r by lia; f_equal; lia).
      assert (Hq : 0 < 2 ^ (53 - j)) by (apply Z.pow_pos_nonneg; lia).
      assert (H2 : 0 < 2 ^ j) by (apply Z.pow_pos_nonneg; lia).
      unfold Qle, Qminus, Qplus, Qopp, Qmult, inject_Z. cbn [Qnum Qden].
      change (Z.pos 9007199254740992) with (2 ^ 53). rewrite H53. nia.
    + (* M < 2^53 <= 2^j / 2 *)
      assert (Hj2 : 2 ^ j = 2 ^ 54 * 2 ^ (j - 54))
        by (rewrite <- Z.pow_add_r by lia; f_equal; lia).
      assert (Hq : 0 < 2 ^ (j - 54)) by (apply Z.pow_pos_nonneg; lia).
      unfold Qle, Qminus, Qplus, Qopp, Qmult, inject_Z. cbn [Qnum Qden].
      rewrite Hj2. nia.
Qed.

Lemma nearest_even_nonneg t : (0 <= t)%Q -> 0 <= nearest_even t.
Proof.
  intros Ht. unfold nearest_even.
  assert (Hf : 0 <= Qfloor t) by (change 0 with (Qfloor 0); apply Qfloor_resp_le; exact Ht).
  destruct (t - inject_Z (Qfloor t) ?= 1 # 2)%Q; [destruct (Z.even _) | |]; lia.
Qed.

(** Below the midpoint under an integer, the nearest integer is below it. *)
Lemma nearest_even_below t N :
  (t < inject_Z N - (1 # 2))%Q -> nearest_even t <= N - 1.
Proof.
  intros Ht. unfold nearest_even.
  assert (Hf : Qfloor t <= N - 1).
  { assert (H : Qfloor t < N); [| lia].
    rewrite Zlt_Qlt. apply Qle_lt_trans with t; [apply Qfloor_le |].
    lra. }
  destruct (Z.eq_dec (Qfloor t) (N - 1)) as [E | Hne].
  - assert (Hc : (t - inject_Z (Qfloor t) ?= 1 # 2)%Q = Lt).
    { replace N with (Qfloor t + 1) in Ht by lia.
      rewrite inject_Z_plus in Ht. change (inject_Z 1) with 1%Q in Ht.
      set (F := inject_Z (Qfloor t)) in *.
      assert (Hlt : (t - F < 1 # 2)%Q) by lra. apply Qlt_alt in Hlt. exact Hlt. }
    rewrite Hc. lia.
  - destruct (t - inject_Z (Qfloor t) ?= 1 # 2)%Q; [destruct (Z.even _) | |]; lia.
Qed.

(** A double in [0, 1) times a positive integer below [2^53] rounds to a
    value below that integer. *)
Lemma mul_below r n :
  double_draw r -> 0 < n < 2 ^ 53 ->
  exists q, mul (Finite r) (Finite (inject_Z n)) = Finite q
            /\ (0 <= q)%Q /\ (q < inject_Z n)%Q.
Proof.
  intros Hr Hn. pose proof (double_below_one Hr) as Hmax.
  destruct Hr as [[H0 H1] _].
  assert (Hn0 : (0 < inject_Z n)%Q)
    by (change 0%Q with (inject_Z 0); rewrite <- Zlt_Qlt; lia).
  cbn [mul]. unfold round. set (x := (r * inject_Z n)%Q).
  destruct (Qeq_bool x 0) eqn:Ez.
  { exists 0%Q. split; [reflexivity |]. split; [apply Qle_refl | exact Hn0]. }
  apply Qeq_bool_neq in Ez. cbv zeta.
  assert (Hx0 : (0 <= x)%Q) by (apply Qmult_le_0_compat; [exact H0 | apply Qlt_le_weak, Hn0]).
  assert (Hxpos : (0 < x)%Q).
  { destruct (Qle_lt_or_eq _ _ Hx0) as [H | H]; [exact H |]. exfalso. apply Ez.
    symmetry. exact H. }
  assert (Habs : (Qabs x == x)%Q) by (apply Qabs_pos; exact Hx0).
  assert (Hneg : negative x = false).
  { unfold negative. apply Z.ltb_ge. clearbody x. destruct x as [xn xd].
    unfold Qle in Hx0. cbn in Hx0. cbn. lia. }
  rewrite Hneg.
  (* the draw is at most 1 - 2^-53 *)
  assert (Hx : (x <= inject_Z n - inject_Z n * pow2 (-53))%Q).
  { unfold x. setoid_replace (inject_Z n - inject_Z n * pow2 (-53))%Q
                with ((1 - pow2 (-53)) * inject_Z n)%Q by ring.
    apply Qmult_le_compat_r; [exact Hmax | apply Qlt_le_weak, Hn0]. }
  assert (Hxn : (x < inject_Z n)%Q).
  { apply Qle_lt_trans with (1 := Hx).
    setoid_replace (inject_Z n) with (inject_Z n - 0)%Q at 3 by ring.
    apply Qplus_lt_r. apply Qopp_lt_compat.
    apply Qmult_lt_0_compat; [exact Hn0 | apply pow2_pos]. }
  pose proof (ilog2_le (a := Qabs x) ltac:(rewrite Habs; exact Hxpos)) as Hl0.
  set (l := ilog2 (Qabs x)) in *.
  assert (Hl : (pow2 l <= x)%Q)
    by (apply Qle_trans with (1 := Hl0); rewrite Habs; apply Qle_refl).
  assert (Hl53 : l < 53).
  { apply pow2_lt_inv. apply Qle_lt_trans with (1 := Hl).
    apply Qlt_trans with (1 := Hxn). rewrite (pow2_Z (n := 53)) by lia.
    rewrite <- Zlt_Qlt. lia. }
  set (e := Z.max (l - 52) (-1074)).
  assert (He0 : e <= 0) by (unfold e; lia).
  (* the integer n on the grid of 2^e *)
  set (N := n * 2 ^ (- e)).
  assert (HN : (inject_Z N * pow2 e == inject_Z n)%Q).
  { unfold N. rewrite inject_Z_mult, <- (pow2_Z (n := - e)) by lia.
    rewrite <- Qmult_assoc, <- pow2_add. replace (- e + e) with 0 by lia.
    change (pow2 0) with 1%Q. apply Qmult_1_r. }
  assert (Hpe : (0 < pow2 e)%Q) by apply pow2_pos.
  assert (Hpe0 : ~ (pow2 e == 0)%Q)
    by (intros H; rewrite H in Hpe; exact (Qlt_irrefl 0 Hpe)).
  (* half a unit of 2^e is less than n * 2^-53 *)
  assert (Hhalf : (pow2 e * (1 # 2) < inject_Z n * pow2 (-53))%Q).
  { assert (Hb : (pow2 (e + 52) < inject_Z n)%Q).
    { unfold e. destruct (Z.max_spec (l - 52) (-1074)) as [[_ ->] | [_ ->]].
      - apply Qlt_le_trans with 1%Q; [vm_compute; reflexivity |].
        change 1%Q with (inject_Z 1). rewrite <- Zle_Qle. lia.
      - replace (l - 52 + 52) with l by lia.
        apply Qle_lt_trans with (1 := Hl). exact Hxn. }
    setoid_replace (pow2 e * (1 # 2))%Q with (pow2 (e + 52) * pow2 (-53))%Q.
    - apply Qmult_lt_compat_r; [apply pow2_pos | exact Hb].
    - rewrite pow2_add. change (pow2 52) with (inject_Z 4503599627370496).
      change (pow2 (-53)) with (1 # 9007199254740992)%Q. ring. }
  set (t := (Qabs x / pow2 e)%Q).
  assert (Ht : (t < inject_Z N - (1 # 2))%Q).
  { unfold t. rewrite Habs. apply Qlt_shift_div_r; [exact Hpe |].
    setoid_replace ((inject_Z N - (1 # 2)) * pow2 e)%Q
      with (inject_Z N * pow2 e - pow2 e * (1 # 2))%Q by ring.
    rewrite HN. apply Qle_lt_trans with (1 := Hx).
    apply Qplus_lt_r. apply Qopp_lt_compat. exact Hhalf. }
  assert (Ht0 : (0 <= t)%Q).
  { unfold t. rewrite Habs. apply Qle_shift_div_l; [exact Hpe |].
    rewrite Qmult_0_l. exact Hx0. }
  pose proof (@nearest_even_below t N Ht) as Hm.
  pose proof (@nearest_even_nonneg t Ht0) as Hm0.
  set (m := nearest_even t) in *.
  assert (Hv : (inject_Z m * pow2 e < inject_Z n)%Q).
  { rewrite <- HN. apply Qmult_lt_compat_r; [exact Hpe |]. rewrite <- Zlt_Qlt. lia. }
  destruct (Qle_bool (pow2 1024) (inject_Z m * pow2 e)) eqn:Eo.
  { exfalso. apply Qle_bool_iff in Eo.
    assert (H : (pow2 1024 < pow2 53)%Q).
    { apply Qle_lt_trans with (1 := Eo). apply Qlt_trans with (1 := Hv).
      rewrite (pow2_Z (n := 53)) by lia. rewrite <- Zlt_Qlt. lia. }
    apply pow2_lt_inv in H. lia. }
  eexists. split; [reflexivity |]. rewrite Qred_correct. split; [| exact Hv].
  apply Qmult_le_0_compat; [| apply Qlt_le_weak, Hpe].
  change 0%Q with (inject_Z 0). rewrite <- Zle_Qle. exact Hm0.
Qed.

(** The arithmetic of [randomInt] on a non-empty range, for any double
    draw in [0, 1). *)
Lemma randomInt_within lo hi r :
  double_draw r -> lo <= hi -> - 2 ^ 51 <= lo -> hi <= 2 ^ 51 ->
  exists k,
    add (floor (mul (Finite r)
                    (add (sub (Finite (inject_Z hi)) (Finite (inject_Z lo))) (Finite 1))))
        (Finite (inject_Z lo))
    = Finite (inject_Z k)
    /\ lo <= k <= hi.
Proof.
  intros Hr Hle Hlo Hhi.
  rewrite sub_Z by lia. change (Finite 1) with (Finite (inject_Z 1)).
  rewrite add_Z by lia.
  destruct (mul_below (n := hi - lo + 1) Hr ltac:(lia)) as [q [E [Hq0 Hq1]]].
  rewrite E. cbn [floor].
  assert (Hf : 0 <= Qfloor q < hi - lo + 1).
  { split; [change 0 with (Qfloor 0); apply Qfloor_resp_le; exact Hq0 |].
    rewrite Zlt_Qlt. apply Qle_lt_trans with q; [apply Qfloor_le | exact Hq1]. }
  exists (Qfloor q + lo). rewrite add_Z by lia. split; [reflexivity | lia].
Qed.

End Scaling.

(** Where the two arithmetics part: a product that rounds, and a draw off
    the grid. *)
Example randomInt_rounds :
  fst (runGen mulberry32_next
              (Float64.randomInt (Float64.Finite 0) (Float64.Finite 1000000000000000))
              (mulberry32 1))
  = Ok (Float64.Finite 627073940588162)
  /\ fst (runGen mulberry32_next (Humanize.randomInt 0 1000000000000000) (mulberry32 1))
     = Ok 627073940588161.
Proof. split; vm_compute; reflexivity. Qed.

Example choiceIndex_off_grid :
  Float64.round (1 # 3) = Float64.Finite (6004799503160661 # 18014398509481984)
  /\ Float64.choiceIndex (6004799503160661 # 18014398509481984) 3 = Float64.Finite 1
  /\ Humanize.choiceIndex (6004799503160661 # 18014398509481984) 3 = 0.
Proof. repeat split; vm_compute; reflexivity. Qed.




(** Two seeds that differ by 2^32 and are not integers: the generators
    start in different states and their first draws differ. *)

(** C5.  [randomChoice] throws exactly when [items] is empty, and then it
    throws its "empty array" error without drawing; on a non-empty list it
    returns one of the list's elements, and on a one-element list that
    element. *)
Theorem randomChoice_total {T St} (step : St -> Q * St)
        (Hstep : forall s, unit_draw (fst (step s)))
        (s : St) (items : list T) :
  ((exists e, fst (runGen step (randomChoice items) s) = Err e) <-> items = [])
  /\ (items = [] ->
      runGen step (randomChoice items) s
      = (Err (Error_ "randomChoice: empty array"), s))
  /\ (items <> [] ->
      exists x, fst (runGen step (randomChoice items) s) = Ok x /\ In x items)
  /\ (forall x : T, fst (runGen step (randomChoice [x]) s) = Ok x).
Proof.
  assert (Hne : forall l : list T, l <> [] ->
            exists x, fst (runGen step (randomChoice l) s) = Ok x /\ In x l).
  { intros l Hl. exact (runGen_Returns step Hstep (Returns_randomChoice Hl) s). }
  split; [split |]; [| | split; [| split]].
  - intros [e He]. destruct items as [| d rest]; [reflexivity |].
    destruct (Hne (d :: rest) ltac:(discriminate)) as [x [Hx _]]. congruence.
  - intros ->. eexists. reflexivity.
  - intros ->. reflexivity.
  - exact (Hne items).
  - intros x. destruct (Hne [x] ltac:(discriminate)) as [y [Hy [Hin | []]]].
    rewrite Hy. congruence.
Qed.

Lemma randomChoice_total_witness :
  (forall a, unit_draw (fst (mulberry32_next a)))
  /\ (exists x, fst (runGen mulberry32_next (randomChoice [10; 20; 30]) (mulberry32 7)) = Ok x
                /\ In x [10; 20; 30])
  /\ fst (runGen mulberry32_next (randomChoice (@nil Z)) (mulberry32 7))
     = Err (Error_ "randomChoice: empty array").
Proof.
  split; [exact mulberry32_next_unit |].
  pose proof (@randomChoice_total Z Z mulberry32_next mulberry32_next_unit (mulberry32 7))
    as H.
  split.
  - destruct (H [10; 20; 30]) as [_ [_ [Hin _]]]. apply Hin. discriminate.
  - destruct (H (@nil Z)) as [_ [Hempty _]]. rewrite (Hempty eq_refl). reflexivity.
Defined.

(* ================================================================== *)
(** * mulberry32 *)

Lemma mulberry32_integer (s : Z) : mulberry32 (inject_Z s) = s mod Int32.two32.
Proof.
  unfold mulberry32, Int32.toUint32Q, Int32.toUint32, Int32.Qtrunc. simpl.
  rewrite Z.quot_1_r. reflexivity.
Qed.

(** The first draws of [mulberry32(1)], as 32-bit numerators. *)
Example draws_of_seed_1 :
  map (fun r => Qfloor (r * inject_Z Int32.two32)) (draws 3 (mulberry32 1))
  = [2693262067; 11749833; 2265367787].
Proof. vm_compute. reflexivity. Qed.

Lemma mulberry32_seed_aliasing_counterexample :
  let s := (-1 # 2)%Q in
  let s' := (8589934591 # 2)%Q in
  (s' - s == inject_Z Int32.two32)%Q
  /\ mulberry32 s = 0
  /\ mulberry32 s' = 4294967295
  /\ ~ (fst (mulberry32_next (mulberry32 s)) == fst (mulberry32_next (mulberry32 s')))%Q.
Proof.
  cbv zeta. split; [reflexivity |]. split; [reflexivity |]. split; [reflexivity |].
  vm_compute. discriminate.
Qed.

(** C9.  [mulberry32] truncates its seed toward zero and keeps
    the result modulo 2^32: a finite seed [s] starts the generator in state
    [trunc(s) mod 2^32], so two seeds whose truncations are congruent
    modulo 2^32, and in particular two congruent integers, give generators
    with the same draws, however many are taken; no seed is rejected. *)
Theorem mulberry32_seed_aliasing (s s' : Q)
        (Hcong : Int32.Qtrunc s mod Int32.two32 = Int32.Qtrunc s' mod Int32.two32) :
  mulberry32 s = Int32.Qtrunc s mod Int32.two32
  /\ (forall n, draws n (mulberry32 s) = draws n (mulberry32 s'))
  /\ (forall z z' : Z,
         z mod Int32.two32 = z' mod Int32.two32 ->
         mulberry32 (inject_Z z) = z mod Int32.two32
         /\ forall n, draws n (mulberry32 (inject_Z z)) = draws n (mulberry32 (inject_Z z'))).
Proof.
  split; [reflexivity |]. split.
  - intros n. unfold mulberry32, Int32.toUint32Q, Int32.toUint32. rewrite Hcong.
    reflexivity.
  - intros z z' Hz. split; [apply mulberry32_integer |].
    intros n. rewrite !mulberry32_integer, Hz. reflexivity.
Qed.

Lemma mulberry32_seed_aliasing_witness :
  Int32.Qtrunc (3 # 2) mod Int32.two32 = Int32.Qtrunc (8589934595 # 2) mod Int32.two32
  /\ draws 4 (mulberry32 (3 # 2)) = draws 4 (mulberry32 (8589934595 # 2))
  /\ draws 4 (mulberry32 (inject_Z 1)) = draws 4 (mulberry32 (inject_Z 4294967297)).
Proof.
  split; [reflexivity |].
  pose proof (@mulberry32_seed_aliasing (3 # 2) (8589934595 # 2) eq_refl) as [_ [Hd Hz]].
  split; [exact (Hd 4%nat) |].
  exact (proj2 (Hz 1 4294967297 eq_refl) 4%nat).
Defined.

(* ================================================================== *)
(** * Whitespace: trimming and collapsing *)

Section Whitespace.

Lemma has_ink_app a b : has_ink (a ++ b) = has_ink a || has_ink b.
Proof. unfold has_ink. apply existsb_app. Qed.

Lemma has_ink_rev s : has_ink (rev s) = has_ink s.
Proof.
  induction s as [| c r IH]; [reflexivity |].
  simpl rev. rewrite has_ink_app, IH. simpl. rewrite orb_false_r. apply orb_comm.
Qed.

Lemma has_ink_trimStart s : has_ink (trimStart s) = has_ink s.
Proof.
  induction s as [| c r IH]; [reflexivity |].
  simpl. destruct (is_ws c) eqn:Hc; [| simpl; rewrite Hc; reflexivity].
  simpl. exact IH.
Qed.

Lemma has_ink_trim s : has_ink (trim s) = has_ink s.
Proof.
  unfold trim, trimEnd.
  rewrite has_ink_rev, has_ink_trimStart, has_ink_rev. apply has_ink_trimStart.
Qed.

Lemma has_ink_collapse_from b s : has_ink (collapse_from b s) = has_ink s.
Proof.
  revert b. induction s as [| c r IH]; intros b; [reflexivity |].
  simpl. destruct (is_ws c) eqn:Hc.
  - destruct b; simpl; apply IH.
  - simpl. rewrite Hc. reflexivity.
Qed.

Lemma has_ink_collapse s : has_ink (collapse_ws s) = has_ink s.
Proof. apply has_ink_collapse_from. Qed.

Lemma has_ink_nonempty s : has_ink s = true -> s <> [].
Proof. intros H ->. discriminate. Qed.

(** [trimStart] removes a prefix. *)
Lemma trimStart_suffix s : exists p, s = p ++ trimStart s.
Proof.
  induction s as [| c r [p Hp]]; [exists []; reflexivity |].
  simpl. destruct (is_ws c).
  - exists (c :: p). simpl. f_equal. exact Hp.
  - exists []. reflexivity.
Qed.

Lemma trimEnd_prefix s : exists p, s = trimEnd s ++ p.
Proof.
  unfold trimEnd. destruct (trimStart_suffix (rev s)) as [p Hp].
  exists (rev p). rewrite <- rev_app_distr, <- Hp. symmetry. apply rev_involutive.
Qed.

Lemma leading_ws_trimStart s : leading_ws (trimStart s) = false.
Proof.
  induction s as [| c r IH]; [reflexivity |].
  simpl. destruct (is_ws c) eqn:Hc; [exact IH | simpl; exact Hc].
Qed.

Lemma leading_ws_prefix a b : leading_ws (a ++ b) = false -> leading_ws a = false.
Proof. destruct a; [reflexivity | simpl; auto]. Qed.

Lemma leading_ws_trim s : leading_ws (trim s) = false.
Proof.
  unfold trim. destruct (trimEnd_prefix (trimStart s)) as [p Hp].
  apply leading_ws_prefix with (b := p). rewrite <- Hp. apply leading_ws_trimStart.
Qed.

Lemma trailing_ws_trim s : trailing_ws (trim s) = false.
Proof.
  unfold trailing_ws, trim, trimEnd. rewrite rev_involutive. apply leading_ws_trimStart.
Qed.

Lemma double_ws_cons a r : double_ws (a :: r) = (is_ws a && leading_ws r) || double_ws r.
Proof. destruct r; simpl; [rewrite andb_false_r |]; reflexivity. Qed.

Lemma double_ws_app a b :
  double_ws (a ++ b) = false -> double_ws a = false /\ double_ws b = false.
Proof.
  induction a as [| c r IH]; intros H; [split; [reflexivity | exact H] |].
  rewrite <- app_comm_cons, double_ws_cons in H. apply orb_false_iff in H.
  destruct H as [H1 H2]. destruct (IH H2) as [Hr Hb]. split; [| exact Hb].
  rewrite double_ws_cons, Hr, orb_false_r.
  apply andb_false_iff in H1. destruct H1 as [H1 | H1].
  - rewrite H1. reflexivity.
  - rewrite (leading_ws_prefix _ _ H1). apply andb_false_r.
Qed.

Lemma double_ws_trim s : double_ws s = false -> double_ws (trim s) = false.
Proof.
  intros H. unfold trim.
  destruct (trimStart_suffix s) as [p Hp]. rewrite Hp in H.
  apply double_ws_app in H. destruct H as [_ H].
  destruct (trimEnd_prefix (trimStart s)) as [q Hq]. rewrite Hq in H.
  apply double_ws_app in H. exact (proj1 H).
Qed.

Lemma collapse_from_shape b s :
  double_ws (collapse_from b s) = false
  /\ (b = true -> leading_ws (collapse_from b s) = false).
Proof.
  revert b. induction s as [| c r IH]; intros b; [split; reflexivity |].
  simpl. destruct (is_ws c) eqn:Hc.
  - destruct (IH true) as [Hd Hl]. destruct b.
    + split; [exact Hd | exact Hl].
    + split; [| discriminate].
      rewrite double_ws_cons, Hd, (Hl eq_refl). reflexivity.
  - destruct (IH false) as [Hd _]. split.
    + rewrite double_ws_cons, Hc, Hd. reflexivity.
    + intros _. simpl. exact Hc.
Qed.

Lemma double_ws_collapse s : double_ws (collapse_ws s) = false.
Proof. exact (proj1 (collapse_from_shape false s)). Qed.

(** What the last line of [templateQuery] guarantees for any draft [q]
    that has a non-whitespace code unit. *)
Lemma tidy_shape q :
  has_ink q = true ->
  let r := trim (collapse_ws q) in
  r <> [] /\ double_ws r = false /\ leading_ws r = false /\ trailing_ws r = false.
Proof.
  intros H. cbv zeta. repeat apply conj.
  - apply has_ink_nonempty. rewrite has_ink_trim, has_ink_collapse. exact H.
  - apply double_ws_trim, double_ws_collapse.
  - apply leading_ws_trim.
  - apply trailing_ws_trim.
Qed.

End Whitespace.

(* ================================================================== *)
(** * templateQuery *)

Lemma category_has_ink c : In c categories -> has_ink c = true.
Proof.
  assert (H : forallb has_ink categories = true) by (vm_compute; reflexivity).
  rewrite forallb_forall in H. exact (H c).
Qed.

Lemma Returns_any_choice {T} (items : list T) :
  items <> [] -> Returns (fun _ => True) (randomChoice items).
Proof.
  intros H. apply Returns_weaken with (P := fun x => In x items); [auto |].
  apply Returns_randomChoice. exact H.
Qed.

Lemma Returns_maybe {A} (p : Q) (e : Gen A) :
  Returns (fun _ => True) e -> Returns (fun _ => True) (maybe p e).
Proof.
  intros He. unfold maybe. apply Returns_bind with (Q := fun _ => True).
  - apply Returns_weaken with (P := unit_draw); [auto | apply Returns_rand_unit].
  - intros r _. destruct (lessThan r p); [| constructor; exact I].
    apply Returns_bind with (Q := fun _ => True); [exact He |].
    intros; constructor; exact I.
Qed.

Lemma Returns_orChoice (x : option jsstring) (items : list jsstring) :
  items <> [] -> Returns (fun _ => True) (orChoice x items).
Proof.
  intros H. destruct x; simpl; [constructor; exact I | apply Returns_any_choice; exact H].
Qed.

Lemma Returns_any_randomInt a b : Returns (fun _ => True) (randomInt a b).
Proof.
  apply Returns_weaken with (2 := Returns_randomInt a b). auto.
Qed.

(** Closes a goal [has_ink (... ++ c ++ ...) = true] given [has_ink c = true]. *)
Ltac ink_from H :=
  rewrite ?has_ink_collapse, ?has_ink_trim, ?has_ink_app, H;
  repeat (rewrite orb_true_l || rewrite orb_true_r);
  reflexivity.

(** One [x <- e ;; ...] of a pattern whose draw needs no postcondition. *)
Ltac skip_draw :=
  apply Returns_bind with (Q := fun _ => True);
  [ first [ apply Returns_any_choice; discriminate
          | apply Returns_orChoice; discriminate ]
  | intros ? _ ].

Lemma Returns_patterns seed category adjective intent brand priceCap year
      location topic unrelatedFragment pattern :
  has_ink category = true ->
  In pattern (patterns seed category adjective intent brand priceCap year
                       location topic unrelatedFragment) ->
  Returns (fun q => has_ink q = true) pattern.
Proof.
  intros Hc Hin. unfold patterns in Hin. cbn [In] in Hin.
  repeat (destruct Hin as [<- | Hin]);
    try (constructor; ink_from Hc);
    try (repeat skip_draw; constructor; ink_from Hc).
  - apply Returns_bind with (Q := fun a => In a categories);
      [apply Returns_randomChoice; discriminate |].
    intros a Ha. repeat skip_draw. constructor.
    ink_from (category_has_ink Ha).
  - destruct Hin.
Qed.

Lemma Returns_templateQuery (seedPhrases : list jsstring) :
  Returns well_formed_query (templateQuery seedPhrases).
Proof.
  unfold templateQuery.
  apply Returns_bind with (Q := fun _ => True).
  { destruct seedPhrases as [| s0 rest]; cbn [length Nat.eqb]; [constructor; exact I |].
    apply Returns_bind with (Q := fun _ => True);
      [apply Returns_any_choice; discriminate | intros; constructor; exact I]. }
  intros seed _.
  apply Returns_bind with (Q := fun c => In c categories);
    [apply Returns_randomChoice; discriminate |].
  intros category Hcat. apply category_has_ink in Hcat.
  do 2 skip_draw.
  apply Returns_bind with (Q := fun _ => True);
    [apply Returns_maybe, Returns_any_choice; discriminate | intros brand _].
  apply Returns_bind with (Q := fun _ => True).
  { apply Returns_maybe. skip_draw. constructor; exact I. }
  intros priceCap _.
  apply Returns_bind with (Q := fun _ => True).
  { apply Returns_maybe. skip_draw. constructor; exact I. }
  intros year _.
  do 3 (apply Returns_bind with (Q := fun _ => True);
        [apply Returns_maybe, Returns_any_choice; discriminate | intros ? _]).
  eapply Returns_bind; [apply Returns_randomChoice; discriminate |].
  intros pattern Hin.
  apply Returns_bind with (Q := fun q => has_ink q = true);
    [exact (Returns_patterns Hcat Hin) |].
  intros q Hq.
  apply Returns_bind with (Q := fun q => has_ink q = true).
  { apply Returns_bind with (Q := fun _ => True);
      [apply Returns_weaken with (2 := Returns_rand_unit); auto |].
    intros r _. destruct (lessThan r 0.25); [| constructor; exact Hq].
    skip_draw. constructor. ink_from Hq. }
  clear q Hq. intros q Hq.
  apply Returns_bind with (Q := fun q => has_ink q = true).
  { apply Returns_bind with (Q := fun _ => True);
      [apply Returns_weaken with (2 := Returns_rand_unit); auto |].
    intros r _. destruct (lessThan r 0.2); [| constructor; exact Hq].
    apply Returns_bind with (Q := fun _ => True); [apply Returns_any_randomInt |].
    intros n _. constructor. ink_from Hq. }
  clear q Hq. intros q Hq.
  constructor. exact (tidy_shape q Hq).
Qed.

(** C2.  Against every generator whose draws lie in [0, 1), from every
    state of it, and for every list of seed phrases (possibly empty),
    [templateQuery] returns a string that is not empty, has no two
    consecutive whitespace code units, and neither starts nor ends with
    whitespace. *)
Theorem templateQuery_well_formed {St} (step : St -> Q * St)
        (Hstep : forall s, unit_draw (fst (step s)))
        (s : St) (seedPhrases : list jsstring) :
  exists q, fst (runGen step (templateQuery seedPhrases) s) = Ok q
            /\ q <> []
            /\ double_ws q = false
            /\ leading_ws q = false
            /\ trailing_ws q = false.
Proof.
  exact (runGen_Returns step Hstep (Returns_templateQuery seedPhrases) s).
Qed.

Lemma templateQuery_well_formed_witness :
  (forall a, unit_draw (fst (mulberry32_next a)))
  /\ exists q, fst (runGen mulberry32_next (templateQuery [js "zz top"]) (mulberry32 1))
               = Ok q
               /\ q <> [] /\ double_ws q = false
               /\ leading_ws q = false /\ trailing_ws q = false.
Proof.
  split; [exact mulberry32_next_unit |].
  exact (templateQuery_well_formed mulberry32_next mulberry32_next_unit
           (mulberry32 1) [js "zz top"]).
Defined.

(* ================================================================== *)
(** * Seed phrases *)

Lemma keepTruthy_normalize (ls : list jsstring) :
  keepTruthy (map normalizeSeedLine ls)
  = map trim (filter (fun line => usable (trim line)) ls).
Proof.
  induction ls as [| l rest IH]; [reflexivity |].
  cbn [map filter]. unfold keepTruthy in *. cbn [flat_map]. rewrite IH.
  unfold normalizeSeedLine, usable.
  destruct (nonEmpty (trim l)) eqn:Hn; cbn [negb andb]; [| reflexivity].
  destruct (startsWithHash (trim l)); cbn [negb]; [reflexivity |].
  rewrite Hn. reflexivity.
Qed.

Lemma loadSeedPhrases_read readFile path content :
  nonEmpty path = true -> readFile path = Ok content ->
  loadSeedPhrases readFile (Some path)
  = map trim (filter (fun line => usable (trim line)) (split_lines content)).
Proof.
  intros Hp Hr. unfold loadSeedPhrases. rewrite Hp, Hr. cbn [negb].
  apply keepTruthy_normalize.
Qed.

(** C6.  The phrases loaded from a readable file are, in order and in
    trimmed form, exactly the lines whose trimmed form is not empty and
    does not start with '#'; a file with the lines "# comment", "" and
    "wireless earbuds" gives ["wireless earbuds"].  A read that fails, an
    empty path and an absent path give the empty list, and nothing is
    thrown: [loadSeedPhrases] is a total function to lists. *)
Theorem loadSeedPhrases_keeps (readFile : jsstring -> Res jsstring) :
  (forall path content,
      nonEmpty path = true -> readFile path = Ok content ->
      loadSeedPhrases readFile (Some path)
      = map trim (filter (fun line => usable (trim line)) (split_lines content)))
  /\ (forall path,
      nonEmpty path = true ->
      readFile path = Ok (js "# comment" ++ [LF; LF] ++ js "wireless earbuds") ->
      loadSeedPhrases readFile (Some path) = [js "wireless earbuds"])
  /\ (forall path err,
      readFile path = Err err -> loadSeedPhrases readFile (Some path) = [])
  /\ loadSeedPhrases readFile (Some []) = []
  /\ loadSeedPhrases readFile None = [].
Proof.
  split; [| split; [| split; [| split]]].
  - intros path content. apply loadSeedPhrases_read.
  - intros path Hp Hr. rewrite (loadSeedPhrases_read _ _ Hp Hr). reflexivity.
  - intros path err Hr. unfold loadSeedPhrases. rewrite Hr.
    destruct (negb (nonEmpty path)); reflexivity.
  - reflexivity.
  - reflexivity.
Qed.

Lemma loadSeedPhrases_keeps_witness :
  let readFile := fun path : jsstring =>
    if list_eq_dec N.eq_dec path (js "seeds.txt")
    then Ok (js "  # note  " ++ [CR; LF] ++ js "  yoga mat " ++ [LF] ++ js "tent")
    else Err (mkError (js "Error") (js "ENOENT: no such file or directory")) in
  loadSeedPhrases readFile (Some (js "seeds.txt")) = [js "yoga mat"; js "tent"]
  /\ loadSeedPhrases readFile (Some (js "missing.txt")) = [].
Proof.
  intros readFile.
  destruct (loadSeedPhrases_keeps readFile) as [Hread [_ [Hfail _]]].
  split.
  - rewrite (Hread (js "seeds.txt") _ eq_refl eq_refl). reflexivity.
  - exact (Hfail (js "missing.txt") _ eq_refl).
Defined.

Lemma clean_trimmed line : usable (trim line) = true -> clean_phrase (trim line).
Proof.
  unfold usable, clean_phrase. intros H. apply andb_true_iff in H. destruct H as [Hn Hh].
  repeat apply conj.
  - intros E. rewrite E in Hn. discriminate.
  - apply leading_ws_trim.
  - apply trailing_ws_trim.
  - destruct (startsWithHash (trim line)); [discriminate | reflexivity].
Qed.

Lemma loadSeedPhrases_clean readFile seedFile :
  Forall clean_phrase (loadSeedPhrases readFile seedFile).
Proof.
  unfold loadSeedPhrases.
  destruct seedFile as [path |]; [| constructor].
  destruct (negb (nonEmpty path)); [constructor |].
  destruct (readFile path) as [content | err]; [| constructor].
  rewrite keepTruthy_normalize. apply Forall_forall. intros x Hx.
  apply in_map_iff in Hx. destruct Hx as [line [<- Hline]].
  apply filter_In in Hline. apply clean_trimmed. exact (proj2 Hline).
Qed.

Lemma afterCalls_same n src : afterCalls n src = src.
Proof. revert src. induction n as [| n IH]; intros src; [reflexivity | apply IH]. Qed.

(** C10.  Whatever the file system answers, every phrase returned by
    [loadSeedPhrases] is a non-empty string that neither starts nor ends
    with whitespace and whose first code unit is not '#'; the list captured
    by a Query Source is that list, and it is still that list after any
    number of calls of [nextQuery]. *)
Theorem seedPhrases_clean (readFile : jsstring -> Res jsstring)
        (opts : BuildOptions) (n : nat) :
  Forall clean_phrase (loadSeedPhrases readFile (QueryGenerator.seedFile opts))
  /\ seedPhrases (afterCalls n (buildQuerySource readFile opts))
     = loadSeedPhrases readFile (QueryGenerator.seedFile opts)
  /\ Forall clean_phrase (seedPhrases (afterCalls n (buildQuerySource readFile opts))).
Proof.
  assert (E : seedPhrases (afterCalls n (buildQuerySource readFile opts))
              = loadSeedPhrases readFile (QueryGenerator.seedFile opts))
    by (rewrite afterCalls_same; reflexivity).
  split; [apply loadSeedPhrases_clean | split; [exact E |]].
  rewrite E. apply loadSeedPhrases_clean.
Qed.

(* ================================================================== *)
(** * Determinism of the generator and of the Query Source *)

Section Replay.
Import Closures.

Lemma write_same f g a : write f g a g = a.
Proof. unfold write. rewrite Nat.eqb_refl. reflexivity. Qed.

Lemma write_other f g a g' : g' <> g -> write f g a g' = f g'.
Proof. intros H. unfold write. apply Nat.eqb_neq in H. rewrite H. reflexivity. Qed.

Lemma call_tracks g : tracks g (call g) mulberry32_next.
Proof.
  intros h. unfold call. destruct (mulberry32_next (cell h g)) as [r a'].
  cbn [fst snd cell]. repeat split.
  - apply write_same.
  - intros g' Hg. apply write_other. exact Hg.
Qed.

Lemma runGen_tracks {A} g (m : Gen A) :
  tracks g (runGen (call g) m) (runGen mulberry32_next m).
Proof.
  induction m as [a | e | k IH]; intros h.
  - repeat split.
  - repeat split.
  - cbn [runGen]. destruct (call_tracks g h) as [Hr [Hs Ho]].
    destruct (call g h) as [r h1]. destruct (mulberry32_next (cell h g)) as [r' a1].
    cbn [fst snd] in *. subst r'.
    destruct (IH r h1) as [Hr1 [Hs1 Ho1]]. rewrite Hs in *.
    repeat split; [exact Hr1 | exact Hs1 |].
    intros g' Hg. rewrite (Ho1 g' Hg). exact (Ho g' Hg).
Qed.

Lemma interleave_tracks {A} g1 g2 (first second : Store -> A * Store) p1 p2 :
  g1 <> g2 -> tracks g1 first p1 -> tracks g2 second p2 ->
  forall schedule h,
    fst (interleave first second schedule h)
    = produce p1 (length (fst (interleave first second schedule h))) (cell h g1)
    /\ snd (interleave first second schedule h)
       = produce p2 (length (snd (interleave first second schedule h))) (cell h g2).
Proof.
  intros Hne H1 H2. induction schedule as [| b rest IH]; intros h; [split; reflexivity |].
  cbn [interleave]. destruct b.
  - destruct (H1 h) as [Hr [Hs Ho]]. destruct (first h) as [x h1].
    destruct (IH h1) as [IH1 IH2].
    destruct (interleave first second rest h1) as [l1 l2].
    cbn [fst snd length produce] in *.
    destruct (p1 (cell h g1)) as [x' a1]. cbn [fst snd] in *. subst x'.
    rewrite Hs in IH1. rewrite (Ho g2 (not_eq_sym Hne)) in IH2.
    split; [f_equal; exact IH1 | exact IH2].
  - destruct (H2 h) as [Hr [Hs Ho]]. destruct (second h) as [x h1].
    destruct (IH h1) as [IH1 IH2].
    destruct (interleave first second rest h1) as [l1 l2].
    cbn [fst snd length produce] in *.
    destruct (p2 (cell h g2)) as [x' a2]. cbn [fst snd] in *. subst x'.
    rewrite Hs in IH2. rewrite (Ho g1 Hne) in IH1.
    split; [exact IH1 | f_equal; exact IH2].
Qed.

(** Two prefixes of one produced sequence agree wherever both are defined. *)
Lemma produce_agree {A St} (step : St -> A * St) n m s i x y :
  nth_error (produce step n s) i = Some x ->
  nth_error (produce step m s) i = Some y -> x = y.
Proof.
  revert m s i. induction n as [| n IH]; intros m s i Hx Hy.
  - destruct i; discriminate.
  - destruct m as [| m]; [destruct i; discriminate |].
    cbn [produce] in *. destruct (step s) as [z s'].
    destruct i as [| i]; cbn [nth_error] in *; [congruence |].
    exact (IH m s' i Hx Hy).
Qed.

End Replay.

(** C1.  Create two generators with [mulberry32(seed)], one after the
    other, and call them in any interleaving: each returns a prefix of the
    one sequence [draws _ (mulberry32 seed)], so the [i]-th draw of the one
    is the [i]-th draw of the other.  The same holds for two Query Sources
    over two such generators with the same seed phrases: their [i]-th
    queries are equal.  Nothing but the seed and the seed phrases enters. *)
Theorem generators_replay (seed : Q) (seedPhrases : list jsstring)
        (h : Closures.Store) (schedule : list bool) :
  let (g1, h1) := Closures.create seed h in
  let (g2, h2) := Closures.create seed h1 in
  let (d1, d2) :=
    Closures.interleave (Closures.call g1) (Closures.call g2) schedule h2 in
  let (q1, q2) :=
    Closures.interleave (Closures.callNextQuery g1 seedPhrases)
                        (Closures.callNextQuery g2 seedPhrases) schedule h2 in
  d1 = draws (length d1) (mulberry32 seed)
  /\ d2 = draws (length d2) (mulberry32 seed)
  /\ (forall i x y, nth_error d1 i = Some x -> nth_error d2 i = Some y -> x = y)
  /\ q1 = queries seedPhrases (length q1) (mulberry32 seed)
  /\ q2 = queries seedPhrases (length q2) (mulberry32 seed)
  /\ (forall i x y, nth_error q1 i = Some x -> nth_error q2 i = Some y -> x = y).
Proof.
  unfold Closures.create. cbn [Closures.fresh Closures.cell].
  set (g1 := Closures.fresh h). set (g2 := S g1).
  set (h2 := {| Closures.cell := _; Closures.fresh := S g2 |}).
  assert (Hne : g1 <> g2) by (unfold g2; lia).
  assert (Hc1 : Closures.cell h2 g1 = mulberry32 seed).
  { unfold h2. cbn [Closures.cell]. rewrite write_other by exact Hne. apply write_same. }
  assert (Hc2 : Closures.cell h2 g2 = mulberry32 seed).
  { unfold h2. cbn [Closures.cell]. apply write_same. }
  pose proof (interleave_tracks Hne (call_tracks g1) (call_tracks g2) schedule h2) as Hd.
  pose proof (interleave_tracks Hne (runGen_tracks g1 (templateQuery seedPhrases))
                (runGen_tracks g2 (templateQuery seedPhrases)) schedule h2) as Hq.
  unfold Closures.callNextQuery.
  destruct (Closures.interleave (Closures.call g1) (Closures.call g2) schedule h2)
    as [d1 d2].
  destruct (Closures.interleave _ _ schedule h2) as [q1 q2].
  cbn [fst snd] in Hd, Hq. rewrite Hc1, Hc2 in Hd, Hq.
  destruct Hd as [Hd1 Hd2]. destruct Hq as [Hq1 Hq2].
  unfold draws, queries.
  split; [exact Hd1 |]. split; [exact Hd2 |]. split.
  { intros i x y Hx Hy. rewrite Hd1 in Hx. rewrite Hd2 in Hy.
    exact (produce_agree _ _ _ _ _ Hx Hy). }
  split; [exact Hq1 |]. split; [exact Hq2 |].
  intros i x y Hx Hy. rewrite Hq1 in Hx. rewrite Hq2 in Hy.
  exact (produce_agree _ _ _ _ _ Hx Hy).
Qed.

(* ================================================================== *)
(** * Running programs: composition and invariants *)

Lemma exec_bind env {A B} (m : Prog A) (f : A -> Prog B) (w : World env) :
  exec env (bind m f) w
  = match exec env m w with
    | (Ok a, tr, w1) => let '(r, tr2, w2) := exec env (f a) w1 in (r, tr ++ tr2, w2)
    | (Err e, tr, w1) => (Err e, tr, w1)
    end.
Proof.
  revert w. induction m as [a | e | X e k IH]; intros w; cbn [bind exec].
  - destruct (exec env (f a) w) as [[r tr] w2]. reflexivity.
  - reflexivity.
  - destruct (answer env e w) as [x w1]. rewrite IH.
    destruct (exec env (k x) w1) as [[[a | err] tr] w2]; [| reflexivity].
    destruct (exec env (f a) w2) as [[r tr2] w3]. reflexivity.
Qed.

Lemma exec_attempt env {A} (p : Prog A) (w : World env) :
  exec env (attempt p) w
  = let '(r, tr, w1) := exec env p w in (Ok r, tr, w1).
Proof.
  revert w. induction p as [a | e | X e k IH]; intros w; cbn [attempt exec];
    [reflexivity | reflexivity |].
  destruct (answer env e w) as [x w1]. rewrite IH.
  destruct (exec env (k x) w1) as [[r tr] w2]. reflexivity.
Qed.

Lemma logOf_app tr1 tr2 : logOf (tr1 ++ tr2) = logOf tr1 ++ logOf tr2.
Proof. unfold logOf. apply flat_map_app. Qed.

Lemma Sat_weaken {A} ok phi (P Q : A -> Prop) (p : Prog A) :
  (forall a, P a -> Q a) -> Sat ok phi P p -> Sat ok phi Q p.
Proof.
  intros HPQ H. induction H as [a Ha | e | X e k He _ IH].
  - constructor. auto.
  - constructor.
  - constructor; [exact He | exact IH].
Qed.

Lemma Sat_bind {A B} ok phi (Q : A -> Prop) (R : B -> Prop) (m : Prog A) (f : A -> Prog B) :
  Sat ok phi Q m -> (forall a, Q a -> Sat ok phi R (f a)) -> Sat ok phi R (bind m f).
Proof.
  intros Hm Hf. induction Hm as [a Ha | e | X e k He _ IH]; cbn [bind].
  - exact (Hf a Ha).
  - constructor.
  - constructor; [exact He | exact IH].
Qed.

Lemma Sat_attempt {A} ok phi (p : Prog A) :
  Sat ok phi (fun _ => True) p -> Sat ok phi (fun _ => True) (attempt p).
Proof.
  intros H. induction H as [a Ha | e | X e k He _ IH]; cbn [attempt].
  - constructor. exact I.
  - constructor. exact I.
  - constructor; [exact He | exact IH].
Qed.

(** A [Gen] inside a program only draws. *)
Lemma Sat_liftGen {A} ok (phi : forall X, Eff X -> Prop) (m : Gen A) :
  phi _ Rand -> Sat ok phi (fun _ => True) (liftGen m).
Proof.
  intros Hr. induction m as [a | e | k IH]; cbn [liftGen].
  - constructor. exact I.
  - constructor.
  - constructor; [exact Hr | intros r _; apply IH].
Qed.

(** With draws in [0, 1), a [Gen] that [Returns P] returns in [P]. *)
Lemma Sat_liftGen_Returns {A} (phi : forall X, Eff X -> Prop) (P : A -> Prop) (m : Gen A) :
  phi _ Rand -> Returns P m -> Sat ok_rng phi P (liftGen m).
Proof.
  intros Hr H. induction H as [a Ha | k _ IH]; cbn [liftGen].
  - constructor. exact Ha.
  - constructor; [exact Hr | intros r Hok; exact (IH r Hok)].
Qed.

Lemma Sat_sound env {A} ok phi (Q : A -> Prop) (p : Prog A) :
  respects env ok -> Sat ok phi Q p ->
  forall w, each_action phi (trace (exec env p w))
            /\ forall a, outcome (exec env p w) = Ok a -> Q a.
Proof.
  intros Henv H. induction H as [a Ha | e | X e k He _ IH]; intros w; cbn [exec].
  - split; [constructor | intros a' E; injection E as <-; exact Ha].
  - split; [constructor | intros a' E; discriminate].
  - pose proof (Henv X e w) as Hok. destruct (answer env e w) as [x w1].
    cbn [fst] in Hok. destruct (IH x Hok w1) as [Htr Hout].
    destruct (exec env (k x) w1) as [[r tr] w2].
    split; [constructor; [exact He | exact Htr] | exact Hout].
Qed.

Lemma respects_any env : respects env ok_any.
Proof. intros X e w. exact I. Qed.

Lemma respects_rng env : rng_ok env -> respects env ok_rng.
Proof.
  intros H X e w. destruct e; try exact I. exact (H w).
Qed.

Lemma Stub_rng_ok : rng_ok Stub.env.
Proof.
  intros w. cbn [answer Stub.env Stub.answer].
  pose proof (mulberry32_next_unit (Stub.rngState w)) as H.
  destruct (mulberry32_next (Stub.rngState w)) as [r a]. exact H.
Qed.

(** The log of a run whose operations write no [query_error] line. *)
Lemma no_error_line_log tr :
  each_action no_error_line tr -> Forall (fun ev => is_query_error ev = false) (logOf tr).
Proof.
  unfold each_action, logOf. induction 1 as [| [X e x] rest He _ IH]; [constructor |].
  cbn [flat_map]. apply Forall_app. split; [| exact IH].
  destruct e; try constructor; [exact He | constructor].
Qed.

Lemma error_is_last_app l1 l2 :
  Forall (fun ev => is_query_error ev = false) l1 ->
  error_is_last l2 -> error_is_last (l1 ++ l2).
Proof.
  intros H1 H2 pre q d post E.
  apply app_eq_app in E. destruct E as [l [[E1 E2] | [E1 E2]]].
  - destruct l as [| ev l].
    + cbn [app] in E2. symmetry in E2. exact (H2 [] q d post E2).
    + cbn [app] in E2. injection E2 as E2 _. subst l1 ev.
      rewrite Forall_app in H1. destruct H1 as [_ H1].
      inversion H1 as [| ? ? Hq _]. discriminate.
  - exact (H2 l q d post E2).
Qed.

Lemma error_is_last_quiet l :
  Forall (fun ev => is_query_error ev = false) l -> error_is_last l.
Proof.
  intros H. rewrite <- (app_nil_r l). apply error_is_last_app; [exact H |].
  intros pre q d post E. destruct pre; discriminate.
Qed.

(* ================================================================== *)
(** * Invariants of the browse phase *)

Create HintDb sat.

Section BrowseInvariant.

Variable toLowerCase : jsstring -> jsstring.
Variable encodeURIComponent : jsstring -> Res jsstring.

Variable ok : forall X, Eff X -> X -> Prop.
Variable phi : forall X, Eff X -> Prop.

Hypothesis phi_quiet : forall X (e : Eff X), quiet e = true -> phi e.
Hypothesis phi_scroll :
  forall page steps, Sat ok phi (fun _ => True) (humanScroll page steps).
Hypothesis phi_start : forall q u, phi (ConsoleLog (query_start q u)).
Hypothesis phi_end : forall q, phi (ConsoleLog (query_end q)).

(** Walks through straight-line code made of quiet operations. *)
Ltac sat :=
  repeat (cbv zeta;
          match goal with
          | |- Sat _ _ _ (Ret _) => apply Sat_ret; exact I
          | |- Sat _ _ _ (Throw _) => apply Sat_throw
          | |- Sat _ _ _ (liftGen _) => apply Sat_liftGen; apply phi_quiet; reflexivity
          | |- Sat _ _ _ (Vis _ _) =>
              apply Sat_vis;
              [ first [apply phi_quiet; reflexivity | apply phi_start | apply phi_end]
              | intros ? _ ]
          | |- Sat _ _ _ (bind _ _) =>
              apply Sat_bind with (Q := fun _ => True); [| intros ? _]
          | |- Sat _ _ _ (if ?b then _ else _) => destruct b
          | |- Sat _ _ _ (match ?x with _ => _ end) => destruct x
          | |- _ => solve [auto 1 with sat]
          end).

Lemma jitter_sat a b : Sat ok phi (fun _ => True) (jitter a b).
Proof. unfold jitter, sleep, perform. sat. Qed.
Hint Resolve jitter_sat phi_scroll : sat.

Lemma isBlocked_sat page : Sat ok phi (fun _ => True) (isBlocked page).
Proof. unfold isBlocked, perform, awaitOr. sat. Qed.

Lemma maybeHandleConsent_sat page :
  Sat ok phi (fun _ => True) (maybeHandleConsent page).
Proof. unfold maybeHandleConsent, awaitOr. sat. Qed.

Lemma openRandomProduct_sat page :
  Sat ok phi (fun _ => True) (openRandomProduct page).
Proof. unfold openRandomProduct, awaitOr. sat. Qed.

Lemma returnFromProduct_sat page :
  Sat ok phi (fun _ => True) (returnFromProduct page).
Proof. unfold returnFromProduct, perform, awaitOr. sat. Qed.

Lemma clickNextPageIfPresent_sat page :
  Sat ok phi (fun _ => True) (clickNextPageIfPresent page).
Proof. unfold clickNextPageIfPresent, perform, awaitOr. sat. Qed.
Hint Resolve isBlocked_sat maybeHandleConsent_sat openRandomProduct_sat
     returnFromProduct_sat clickNextPageIfPresent_sat : sat.

Lemma productLoop_sat page config n :
  Sat ok phi (fun _ => True) (productLoop page config n).
Proof. induction n as [| n IH]; cbn [productLoop]; sat. Qed.
Hint Resolve productLoop_sat : sat.

Lemma pageLoop_sat page config n :
  Sat ok phi (fun _ => True) (pageLoop page config n).
Proof.
  induction n as [| n IH]; cbn [pageLoop]; [sat |].
  unfold scrolls, productOpens. sat.
Qed.
Hint Resolve pageLoop_sat : sat.

Lemma browseShoppingForQuery_sat page config query :
  Sat ok phi (fun _ => True)
      (browseShoppingForQuery toLowerCase encodeURIComponent page config query).
Proof.
  unfold browseShoppingForQuery, encode, pagesToBrowse, perform, await. sat.
Qed.

End BrowseInvariant.

(* ================================================================== *)
(** * The session loop stops at the first failed query *)

Lemma trace_bind env {A B} (m : Prog A) (f : A -> Prog B) (w : World env) :
  trace (exec env (bind m f) w)
  = trace (exec env m w)
    ++ match outcome (exec env m w) with
       | Ok a => trace (exec env (f a) (final (exec env m w)))
       | Err _ => []
       end.
Proof.
  rewrite exec_bind. destruct (exec env m w) as [[[a | err] tr] w1];
    unfold trace, outcome, final; cbn [fst snd].
  - destruct (exec env (f a) w1) as [[r tr2] w2]. reflexivity.
  - symmetry. apply app_nil_r.
Qed.

Lemma trace_attempt env {A} (p : Prog A) (w : World env) :
  trace (exec env (attempt p) w) = trace (exec env p w)
  /\ outcome (exec env (attempt p) w) = Ok (outcome (exec env p w))
  /\ final (exec env (attempt p) w) = final (exec env p w).
Proof.
  rewrite exec_attempt. destruct (exec env p w) as [[r tr] w1]. repeat split.
Qed.

Lemma quiet_no_error_line X (e : Eff X) : quiet e = true -> no_error_line e.
Proof. destruct e; intros H; try exact I; discriminate. Qed.

Lemma humanScroll_no_error_line page steps :
  Sat ok_any no_error_line (fun _ => True) (humanScroll page steps).
Proof.
  unfold humanScroll. induction (Z.to_nat steps) as [| n IH]; cbn [humanScrollLoop].
  - constructor. exact I.
  - apply Sat_bind with (Q := fun _ => True); [apply Sat_liftGen; exact I |].
    intros dy _. apply Sat_bind with (Q := fun _ => True).
    { unfold await. constructor; [exact I |]. intros [[] | err] _; constructor. exact I. }
    intros _ _. apply Sat_bind with (Q := fun _ => True); [| intros _ _; exact IH].
    unfold jitter, sleep, perform.
    apply Sat_bind with (Q := fun _ => True); [apply Sat_liftGen; exact I |].
    intros ms _. constructor; [exact I |]. intros x _. constructor. exact I.
Qed.

Section SessionStops.

Variable toLowerCase : jsstring -> jsstring.
Variable encodeURIComponent : jsstring -> Res jsstring.
Variable env : Env.
Variable config : RunConfig.
Variable nextQuery : nat -> Gen jsstring.

Lemma log_of_sat {A} (p : Prog A) (w : World env) :
  Sat ok_any no_error_line (fun _ => True) p ->
  Forall (fun ev => is_query_error ev = false) (logOf (trace (exec env p w))).
Proof.
  intros H. apply no_error_line_log.
  exact (proj1 (Sat_sound (respects_any env) H w)).
Qed.

Lemma browse_log page query (w : World env) :
  Forall (fun ev => is_query_error ev = false)
         (logOf (trace (exec env (browseShoppingForQuery toLowerCase encodeURIComponent
                                   page config query) w))).
Proof.
  apply log_of_sat. apply browseShoppingForQuery_sat.
  - exact quiet_no_error_line.
  - exact humanScroll_no_error_line.
  - reflexivity.
  - reflexivity.
Qed.

Lemma jitter_log a b (w : World env) :
  Forall (fun ev => is_query_error ev = false)
         (logOf (trace (exec env (jitter a b) w))).
Proof.
  apply log_of_sat. apply jitter_sat. exact quiet_no_error_line.
Qed.

(** One iteration whose query fails: the error is logged with the query
    and the loop is over. *)
Lemma loop_failed_query page n i (w0 w1 w2 : World env) query tr1 err tr2 :
  exec env (liftGen (nextQuery i)) w0 = (Ok query, tr1, w1) ->
  exec env (browseShoppingForQuery toLowerCase encodeURIComponent
                                   page config query) w1 = (Err err, tr2, w2) ->
  exec env (queryLoop toLowerCase encodeURIComponent
                                page config nextQuery (S n) i) w0
  = (Ok tt,
     tr1 ++ tr2 ++ [Act (ConsoleLog (query_error query (String_ err))) tt],
     snd (answer env (ConsoleLog (query_error query (String_ err))) w2)).
Proof.
  intros Hq Hb. cbn [queryLoop].
  rewrite exec_bind, Hq, exec_bind, exec_attempt, Hb.
  unfold perform. cbn [exec].
  destruct (answer env (ConsoleLog (query_error query (String_ err))) w2) as [[] w3].
  reflexivity.
Qed.

Lemma loop_error_is_last page n i (w : World env) :
  error_is_last (logOf (trace (exec env (queryLoop toLowerCase encodeURIComponent
                                page config nextQuery n i) w))).
Proof.
  revert i w. induction n as [| n IH]; intros i w.
  - intros pre q d post E. destruct pre; discriminate.
  - cbn [queryLoop]. rewrite trace_bind, logOf_app.
    apply error_is_last_app; [apply log_of_sat, Sat_liftGen; exact I |].
    destruct (outcome (exec env (liftGen (nextQuery i)) w)) as [query | err];
      [| intros pre q d post E; destruct pre; discriminate].
    set (w1 := final (exec env (liftGen (nextQuery i)) w)).
    rewrite trace_bind, logOf_app.
    destruct (trace_attempt env (browseShoppingForQuery toLowerCase encodeURIComponent
                                   page config query) w1) as [Et [Eo Ef]].
    rewrite Et, Eo, Ef.
    apply error_is_last_app; [apply browse_log |].
    set (w2 := final (exec env (browseShoppingForQuery toLowerCase encodeURIComponent
                                   page config query) w1)).
    destruct (outcome (exec env (browseShoppingForQuery toLowerCase encodeURIComponent
                                   page config query) w1)) as [[] | err].
    + rewrite trace_bind, logOf_app.
      apply error_is_last_app; [apply jitter_log |].
      destruct (outcome (exec env (jitter _ _) w2)) as [[] | err];
        [apply IH | intros pre q d post E; destruct pre; discriminate].
    + unfold perform. cbn [exec].
      destruct (answer env (ConsoleLog (query_error query (String_ err))) w2) as [[] w3].
      intros pre q d post E. cbn in E.
      destruct pre as [| ev pre]; [injection E as _ _ <-; reflexivity |].
      destruct pre; discriminate.
Qed.

Lemma session_error_is_last (w : World env) :
  error_is_last
    (logOf (trace (exec env (runShoppingSession toLowerCase encodeURIComponent
                                                config nextQuery) w))).
Proof.
  unfold runShoppingSession.
  rewrite trace_bind, logOf_app. apply error_is_last_app.
  { apply log_of_sat. unfold await. constructor; [exact I |].
    intros [[] | err] _; constructor. exact I. }
  destruct (outcome (exec env (await AddInitScript) w)) as [[] | err];
    [| intros pre q d post E; destruct pre; discriminate].
  set (w1 := final (exec env (await AddInitScript) w)).
  rewrite trace_bind, logOf_app. apply error_is_last_app.
  { apply log_of_sat. unfold await. constructor; [exact I |].
    intros [page | err] _; constructor. exact I. }
  destruct (outcome (exec env (await NewPage) w1)) as [page | err];
    [| intros pre q d post E; destruct pre; discriminate].
  set (w2 := final (exec env (await NewPage) w1)).
  rewrite trace_bind, logOf_app. apply error_is_last_app.
  { apply log_of_sat. unfold perform. constructor; [exact I |].
    intros x _; constructor. exact I. }
  destruct (outcome (exec env (perform (SetDefaultTimeout page 20000)) w2)) as [[] | err];
    [| intros pre q d post E; destruct pre; discriminate].
  set (w3 := final (exec env (perform (SetDefaultTimeout page 20000)) w2)).
  rewrite trace_bind, logOf_app. apply error_is_last_app.
  { apply log_of_sat. destruct (logVisitedUrls config); [| constructor; exact I].
    unfold perform. constructor; [exact I |]. intros x _; constructor. exact I. }
  match goal with
  | |- context [outcome (exec env ?p w3)] =>
      destruct (outcome (exec env p w3)) as [[] | err];
      [set (w4 := final (exec env p w3))
      | intros pre q d post E; destruct pre; discriminate]
  end.
  rewrite trace_bind.
  assert (Hclose : forall w5 (r : Res unit),
             logOf (match r with
                    | Ok _ => trace (exec env (awaitOr (ClosePage page) tt) w5)
                    | Err _ => []
                    end) = []).
  { intros w5 [[] | err]; [| reflexivity]. unfold awaitOr. cbn [exec].
    destruct (answer env (ClosePage page) w5) as [x w6]. reflexivity. }
  rewrite logOf_app, Hclose, app_nil_r. apply loop_error_is_last.
Qed.

End SessionStops.

(** C3.  In every environment: (a) when the processing of a query throws
    [err] (the "Blocked" error or any other), the loop writes the
    [query_error] line with that query and with [String(err)], and ends,
    with no retry and no further iteration; (b) in the log the session
    writes during a whole run, a [query_error] line is the last line, so no
    [query_start] line follows it. *)
Theorem session_stops_at_first_error
        (toLowerCase : jsstring -> jsstring)
        (encodeURIComponent : jsstring -> Res jsstring)
        (env : Env) (config : RunConfig) (nextQuery : nat -> Gen jsstring) :
  (forall page n i (w0 w1 w2 : World env) query tr1 err tr2,
      exec env (liftGen (nextQuery i)) w0 = (Ok query, tr1, w1) ->
      exec env (browseShoppingForQuery toLowerCase encodeURIComponent
                                       page config query) w1
      = (Err err, tr2, w2) ->
      exec env (queryLoop toLowerCase encodeURIComponent
                          page config nextQuery (S n) i) w0
      = (Ok tt,
         tr1 ++ tr2 ++ [Act (ConsoleLog (query_error query (String_ err))) tt],
         snd (answer env (ConsoleLog (query_error query (String_ err))) w2)))
  /\ (forall (w : World env) pre query description post,
      logOf (trace (exec env (runShoppingSession toLowerCase encodeURIComponent
                                                 config nextQuery) w))
      = pre ++ query_error query description :: post ->
      post = [] /\ existsb is_query_start post = false).
Proof.
  split.
  - intros page n i w0 w1 w2 query tr1 err tr2.
    apply loop_failed_query.
  - intros w pre query description post E.
    pose proof (session_error_is_last toLowerCase encodeURIComponent env config
                  nextQuery w) as Hlast.
    rewrite (Hlast pre query description post E). split; reflexivity.
Qed.

(** The scenario of the specification: three queries "a", "b", "c", and a
    page that shows the block page on the second query. *)
Example session_blocked_on_second_query :
  logOf (trace (exec Stub.env
                     (runShoppingSession Stub.toLowerCase Stub.encodeURIComponent
                                         Stub.threeQueries Stub.abc)
                     (Stub.start 1 2 0)))
  = [ query_start (js "a") (js "https://www.google.com/search?tbm=shop&hl=en&q=a");
      query_end (js "a");
      query_start (js "b") (js "https://www.google.com/search?tbm=shop&hl=en&q=b");
      query_error (js "b") (js "Error: Blocked/captcha detected on Google.") ].
Proof. vm_compute. reflexivity. Qed.

Lemma session_stops_at_first_error_witness :
  let w0 := Stub.start 1 1 0 in
  let failed :=
    exec Stub.env
         (browseShoppingForQuery Stub.toLowerCase Stub.encodeURIComponent
                                 1%nat Stub.threeQueries (js "a")) w0 in
  outcome failed = Err blockedError
  /\ logOf (trace (exec Stub.env
                        (queryLoop Stub.toLowerCase Stub.encodeURIComponent
                                   1%nat Stub.threeQueries Stub.abc 3 0) w0))
     = [ query_start (js "a") (js "https://www.google.com/search?tbm=shop&hl=en&q=a");
         query_error (js "a") (js "Error: Blocked/captcha detected on Google.") ].
Proof.
  intros w0 failed. split; [vm_compute; reflexivity |].
  rewrite (proj1 (session_stops_at_first_error Stub.toLowerCase Stub.encodeURIComponent
                    Stub.env Stub.threeQueries Stub.abc)
             1%nat 2%nat 0%nat w0 w0 (final failed) (js "a") [] blockedError
             (trace failed) eq_refl eq_refl).
  vm_compute. reflexivity.
Defined.

(* ================================================================== *)
(** * The counts of the browse phase *)

Lemma Qfloor_eq_iff (y : Q) (j : Z) :
  Qfloor y = j <-> (inject_Z j <= y /\ y < inject_Z (j + 1))%Q.
Proof.
  split.
  - intros <-. split; [apply Qfloor_le | apply Qlt_floor].
  - intros [Hlo Hhi].
    assert (H1 : j <= Qfloor y).
    { rewrite <- (Qfloor_Z j). apply Qfloor_resp_le. exact Hlo. }
    assert (H2 : Qfloor y < j + 1).
    { rewrite Zlt_Qlt. apply Qle_lt_trans with y; [apply Qfloor_le | exact Hhi]. }
    lia.
Qed.

Lemma scaled_le_iff (a r n : Q) : (0 < n -> (a <= r * n <-> a / n <= r))%Q.
Proof.
  intros Hn. split; intros H.
  - apply Qle_shift_div_r; assumption.
  - setoid_replace a with (a / n * n)%Q.
    + apply Qmult_le_compat_r; [exact H | apply Qlt_le_weak; exact Hn].
    + field. intros E. rewrite E in Hn. exact (Qlt_irrefl 0 Hn).
Qed.

Lemma scaled_lt_iff (a r n : Q) : (0 < n -> (r * n < a <-> r < a / n))%Q.
Proof.
  intros Hn. split; intros H.
  - apply Qlt_shift_div_l; assumption.
  - setoid_replace a with (a / n * n)%Q.
    + apply Qmult_lt_compat_r; assumption.
    + field. intros E. rewrite E in Hn. exact (Qlt_irrefl 0 Hn).
Qed.

Lemma floor_max_ge (lo : Z) (x : Q) : lo <= Qfloor (Qmax (inject_Z lo) x).
Proof.
  rewrite <- (Qfloor_Z lo) at 1. apply Qfloor_resp_le. apply Q.le_max_l.
Qed.

Section Pacing.

Variable env : Env.
Hypothesis Hrng : rng_ok env.

(** [randomInt] on a non-empty range, inside a program: one draw. *)
Lemma exec_randomInt (a b : Q) (w : World env) :
  Qceiling a <= Qfloor b ->
  exists n,
    exec env (liftGen (randomInt a b)) w
    = (Ok n, [Act Rand (fst (answer env Rand w))], snd (answer env Rand w))
    /\ Qceiling a <= n <= Qfloor b.
Proof.
  intros Hle. unfold randomInt.
  destruct (Z.ltb_spec (Qfloor b) (Qceiling a)) as [Hlt | _]; [lia |].
  cbn [liftGen exec]. pose proof (Hrng w) as Hr.
  destruct (answer env Rand w) as [r w1]. cbn [fst snd] in *.
  eexists. split; [reflexivity |].
  pose proof (@floor_scale r (Qfloor b - Qceiling a + 1) Hr ltac:(lia)). lia.
Qed.

Lemma exec_jitter (a b : Q) (w : World env) :
  Qceiling a <= Qfloor b ->
  exists ms,
    exec env (jitter a b) w
    = (Ok tt,
       [Act Rand (fst (answer env Rand w)); Act (Sleep ms) tt],
       snd (answer env (Sleep ms) (snd (answer env Rand w))))
    /\ Qceiling a <= ms <= Qfloor b.
Proof.
  intros Hle. unfold jitter. rewrite exec_bind.
  destruct (exec_randomInt a b w Hle) as [ms [E Hms]]. rewrite E.
  unfold sleep, perform. cbn [exec].
  exists ms. split; [| exact Hms].
  destruct (answer env (Sleep ms) (snd (answer env Rand w))) as [[] w2].
  reflexivity.
Qed.

Lemma humanScrollLoop_steps page n (w : World env) :
  scroll_steps page n (trace (exec env (humanScrollLoop page n) w))
               (outcome (exec env (humanScrollLoop page n) w)).
Proof.
  revert w. induction n as [| n IH]; intros w; [constructor |].
  cbn [humanScrollLoop]. rewrite exec_bind.
  destruct (exec_randomInt 320 980 w) as [dy [E Hdy]]; [vm_compute; discriminate |].
  rewrite E. change (Qceiling 320) with 320 in Hdy. change (Qfloor 980) with 980 in Hdy.
  set (w1 := snd (answer env Rand w)). cbv beta iota.
  rewrite exec_bind. unfold await. cbn [exec].
  destruct (answer env (MouseWheel page 0 dy) w1) as [[[] | err] w2].
  - cbn [exec]. cbv beta iota. rewrite exec_bind.
    destruct (exec_jitter 250 900 w2) as [ms [Ej Hms]]; [vm_compute; discriminate |].
    rewrite Ej. cbv beta iota. change (Qceiling 250) with 250 in Hms. change (Qfloor 900) with 900 in Hms.
    specialize (IH (snd (answer env (Sleep ms) (snd (answer env Rand w2))))).
    destruct (exec env (humanScrollLoop page n) _) as [[r tr] w5].
    unfold trace, outcome in *. cbn [fst snd app] in *.
    apply scroll_step; assumption.
  - cbn [exec]. unfold trace, outcome. cbn [fst snd app].
    apply scroll_rejected. exact Hdy.
Qed.

Lemma quiet_wheel_in_range X (e : Eff X) : quiet e = true -> wheel_in_range e.
Proof. destruct e; intros H; try exact I; discriminate. Qed.

Lemma humanScroll_wheel_in_range page steps :
  Sat ok_rng wheel_in_range (fun _ => True) (humanScroll page steps).
Proof.
  unfold humanScroll. induction (Z.to_nat steps) as [| n IH]; cbn [humanScrollLoop].
  - constructor. exact I.
  - apply Sat_bind with (Q := fun dy => 320 <= dy <= 980).
    { apply Sat_liftGen_Returns; [exact I |].
      apply Returns_weaken with (2 := Returns_randomInt 320 980).
      intros dy [H _]. apply H. vm_compute. discriminate. }
    intros dy Hdy. apply Sat_bind with (Q := fun _ => True).
    { unfold await. constructor; [split; [reflexivity | exact Hdy] |].
      intros [[] | err] _; constructor. exact I. }
    intros _ _. apply Sat_bind with (Q := fun _ => True); [| intros _ _; exact IH].
    apply jitter_sat. exact quiet_wheel_in_range.
Qed.

End Pacing.

(* ================================================================== *)
(** * Opening products *)

Section ProductOpens.

Variable env : Env.
Variable page : PageId.

Lemma openRandomProduct_nothing (w : World env) :
  orElse (fst (answer env (Count page ProductLinks) w)) 0 <= 0 ->
  exec env (openRandomProduct page) w
  = (Ok false,
     [Act (Count page ProductLinks) (fst (answer env (Count page ProductLinks) w))],
     snd (answer env (Count page ProductLinks) w)).
Proof.
  intros Hc. unfold openRandomProduct, awaitOr. cbn [bind exec].
  destruct (answer env (Count page ProductLinks) w) as [ans w1]. cbn [fst snd] in *.
  apply Z.leb_le in Hc. rewrite Hc. reflexivity.
Qed.

Lemma productLoop_nothing config n (w w1 : World env) tr :
  exec env (isBlocked page) w = (Ok false, tr, w1) ->
  orElse (fst (answer env (Count page ProductLinks) w1)) 0 <= 0 ->
  exec env (productLoop page config (S n)) w
  = (Ok tt,
     tr ++ [Act (Count page ProductLinks)
                (fst (answer env (Count page ProductLinks) w1))],
     snd (answer env (Count page ProductLinks) w1)).
Proof.
  intros Hb Hc. cbn [productLoop]. rewrite exec_bind, Hb. cbv beta iota.
  rewrite exec_bind, (openRandomProduct_nothing w1 Hc). reflexivity.
Qed.

Ltac no_link := intros ? Hlink; discriminate Hlink.

Lemma openRandomProduct_link count :
  Sat ok_rng (link_within count) (fun _ => True)
      (if count <=? 0 then Ret false
       else
         bind (liftGen (randomInt 0 (inject_Z (Z.min count 20 - 1))))
              (fun idx =>
                 bind (awaitOr (ScrollIntoViewIfNeeded page (ProductLink idx) 5000) tt)
                      (fun _ =>
                 bind (jitter 200 900) (fun _ =>
                 bind (awaitOr (Click page (ProductLink idx) 6000) tt) (fun _ =>
                 bind (Vis (WaitForPopup 6000)
                           (fun r => Ret (match r with
                                          | Ok p => Some p
                                          | Err _ => None
                                          end)))
                      (fun popup =>
                 bind (awaitOr (WaitForNavigation page 6000) tt) (fun _ =>
                 match popup with
                 | Some p => bind (awaitOr (WaitForLoadState p) tt) (fun _ => Ret true)
                 | None => Ret true
                 end))))))).
Proof.
  destruct (Z.leb_spec count 0) as [Hle | Hpos]; [constructor; exact I |].
  apply Sat_bind with (Q := fun idx => 0 <= idx < Z.min count 20).
  { apply Sat_liftGen_Returns; [no_link |].
    apply Returns_weaken with (2 := Returns_randomInt 0 (inject_Z (Z.min count 20 - 1))).
    intros idx [H _]. rewrite Qfloor_Z in H. change (Qceiling 0) with 0 in H. lia. }
  intros idx Hidx.
  assert (Hthis : forall i, Some idx = Some i -> 0 <= i < Z.min count 20)
    by (intros i E; injection E as <-; exact Hidx).
  unfold awaitOr, jitter, sleep, perform.
  apply Sat_bind with (Q := fun _ => True).
  { constructor; [exact Hthis | intros; constructor; exact I]. }
  intros _ _. apply Sat_bind with (Q := fun _ => True).
  { apply Sat_bind with (Q := fun _ => True); [apply Sat_liftGen; no_link |].
    intros ms _. constructor; [no_link | intros; constructor; exact I]. }
  intros _ _. apply Sat_bind with (Q := fun _ => True).
  { constructor; [exact Hthis | intros; constructor; exact I]. }
  intros _ _. apply Sat_bind with (Q := fun _ => True).
  { constructor; [no_link | intros; constructor; exact I]. }
  intros popup _. apply Sat_bind with (Q := fun _ => True).
  { constructor; [no_link | intros; constructor; exact I]. }
  intros _ _. destruct popup as [p |]; [| constructor; exact I].
  apply Sat_bind with (Q := fun _ => True); [| intros; constructor; exact I].
  constructor; [no_link | intros; constructor; exact I].
Qed.

Lemma openRandomProduct_picks (w : World env) :
  rng_ok env ->
  each_action (link_within (orElse (fst (answer env (Count page ProductLinks) w)) 0))
              (trace (exec env (openRandomProduct page) w)).
Proof.
  intros Hrng. unfold openRandomProduct.
  unfold awaitOr at 1. cbn [bind exec].
  destruct (answer env (Count page ProductLinks) w) as [ans w1]. cbn [fst].
  pose proof (Sat_sound (respects_rng Hrng)
                (openRandomProduct_link (orElse ans 0)) w1) as [Htr _].
  match goal with
  | |- context [exec env ?p w1] =>
      match type of Htr with
      | context [exec env ?p' w1] => change p with p'
      end
  end.
  destruct (exec env _ w1) as [[r tr] w2]. unfold trace in *. cbn [fst snd] in *.
  constructor; [intros ? Hlink; discriminate Hlink | exact Htr].
Qed.

End ProductOpens.

Lemma exec_awaitOr env {X} (e : Eff (Res X)) (d : X) (w : World env) :
  exec env (awaitOr e d) w
  = (Ok (orElse (fst (answer env e w)) d), [Act e (fst (answer env e w))],
     snd (answer env e w)).
Proof.
  unfold awaitOr. cbn [exec]. destruct (answer env e w) as [r w1]. reflexivity.
Qed.

(** With a link to open, [openRandomProduct] picks one and acts on it. *)
Lemma openRandomProduct_opens env page (w : World env) :
  rng_ok env ->
  0 < orElse (fst (answer env (Count page ProductLinks) w)) 0 ->
  exists idx r a1 r' ms a2 popup a3 last wf,
    0 <= idx < Z.min (orElse (fst (answer env (Count page ProductLinks) w)) 0) 20
    /\ 200 <= ms <= 900
    /\ exec env (openRandomProduct page) w
       = (Ok true,
          Act (Count page ProductLinks) (fst (answer env (Count page ProductLinks) w))
          :: Act Rand r
          :: Act (ScrollIntoViewIfNeeded page (ProductLink idx) 5000) a1
          :: Act Rand r' :: Act (Sleep ms) tt
          :: Act (Click page (ProductLink idx) 6000) a2
          :: Act (WaitForPopup 6000) popup
          :: Act (WaitForNavigation page 6000) a3 :: last,
          wf)
    /\ match popup with
       | Ok p => exists a4, last = [Act (WaitForLoadState p) a4]
       | Err _ => last = []
       end.
Proof.
  intros Hrng Hpos. unfold openRandomProduct.
  rewrite exec_bind, exec_awaitOr. cbv beta iota zeta.
  set (ans := fst (answer env (Count page ProductLinks) w)) in *.
  set (count := orElse ans 0) in *.
  set (w1 := snd (answer env (Count page ProductLinks) w)).
  destruct (Z.leb_spec count 0) as [Hle | _]; [lia |].
  rewrite exec_bind.
  destruct (exec_randomInt Hrng 0 (inject_Z (Z.min count 20 - 1)) w1) as [idx [E Hidx]].
  { rewrite Qfloor_Z. change (Qceiling 0) with 0. lia. }
  rewrite Qfloor_Z in Hidx. change (Qceiling 0) with 0 in Hidx.
  rewrite E. cbv beta iota zeta.
  set (w2 := snd (answer env Rand w1)).
  rewrite exec_bind, exec_awaitOr. cbv beta iota zeta.
  set (w3 := snd (answer env (ScrollIntoViewIfNeeded page (ProductLink idx) 5000) w2)).
  rewrite exec_bind.
  destruct (exec_jitter Hrng 200 900 w3) as [ms [Ej Hms]]; [vm_compute; discriminate |].
  change (Qceiling 200) with 200 in Hms. change (Qfloor 900) with 900 in Hms.
  rewrite Ej. cbv beta iota zeta.
  set (w4 := snd (answer env (Sleep ms) (snd (answer env Rand w3)))).
  rewrite exec_bind, exec_awaitOr. cbv beta iota zeta.
  set (w5 := snd (answer env (Click page (ProductLink idx) 6000) w4)).
  rewrite exec_bind. cbn [exec].
  destruct (answer env (WaitForPopup 6000) w5) as [popup w6]. cbv beta iota zeta.
  rewrite exec_bind, exec_awaitOr. cbv beta iota zeta.
  set (w7 := snd (answer env (WaitForNavigation page 6000) w6)).
  exists idx, (fst (answer env Rand w1)),
    (fst (answer env (ScrollIntoViewIfNeeded page (ProductLink idx) 5000) w2)),
    (fst (answer env Rand w3)), ms,
    (fst (answer env (Click page (ProductLink idx) 6000) w4)), popup,
    (fst (answer env (WaitForNavigation page 6000) w6)).
  destruct popup as [p | err].
  - rewrite exec_bind, exec_awaitOr. cbn [exec]. cbv beta iota zeta. cbn [app].
    eexists. eexists. split; [lia |]. split; [exact Hms |]. split; [reflexivity |].
    eexists. reflexivity.
  - cbn [exec app]. eexists. eexists. split; [lia |]. split; [exact Hms |].
    split; reflexivity.
Qed.

(** C8.  (a) When the count of product links is zero (or cannot be read),
    [openRandomProduct] returns [false] after that one operation, without
    throwing.  (b) In the product-open loop, with iterations left and the
    page not blocked, such a page ends the loop at once, normally, whatever
    budget remains.  (c) With draws in [0, 1) and a positive count,
    [openRandomProduct] picks a link: it draws an index below both the
    count and 20, scrolls to the link of that index, pauses, clicks that
    same link, waits for a popup and for the navigation, and returns
    [true]; (d) no other product link is scrolled to or clicked. *)
Theorem no_product_links_ends_the_opens (env : Env) (page : PageId) (config : RunConfig) :
  (forall w : World env,
      orElse (fst (answer env (Count page ProductLinks) w)) 0 <= 0 ->
      exec env (openRandomProduct page) w
      = (Ok false,
         [Act (Count page ProductLinks) (fst (answer env (Count page ProductLinks) w))],
         snd (answer env (Count page ProductLinks) w)))
  /\ (forall n (w w1 : World env) tr,
      exec env (isBlocked page) w = (Ok false, tr, w1) ->
      orElse (fst (answer env (Count page ProductLinks) w1)) 0 <= 0 ->
      exec env (productLoop page config (S n)) w
      = (Ok tt,
         tr ++ [Act (Count page ProductLinks)
                    (fst (answer env (Count page ProductLinks) w1))],
         snd (answer env (Count page ProductLinks) w1)))
  /\ (rng_ok env ->
      forall w : World env,
        0 < orElse (fst (answer env (Count page ProductLinks) w)) 0 ->
        exists idx r a1 r' ms a2 popup a3 last wf,
          0 <= idx < Z.min (orElse (fst (answer env (Count page ProductLinks) w)) 0) 20
          /\ 200 <= ms <= 900
          /\ exec env (openRandomProduct page) w
             = (Ok true,
                Act (Count page ProductLinks)
                    (fst (answer env (Count page ProductLinks) w))
                :: Act Rand r
                :: Act (ScrollIntoViewIfNeeded page (ProductLink idx) 5000) a1
                :: Act Rand r' :: Act (Sleep ms) tt
                :: Act (Click page (ProductLink idx) 6000) a2
                :: Act (WaitForPopup 6000) popup
                :: Act (WaitForNavigation page 6000) a3 :: last,
                wf)
          /\ match popup with
             | Ok p => exists a4, last = [Act (WaitForLoadState p) a4]
             | Err _ => last = []
             end)
  /\ (rng_ok env ->
      forall w : World env,
        each_action
          (link_within (orElse (fst (answer env (Count page ProductLinks) w)) 0))
          (trace (exec env (openRandomProduct page) w))).
Proof.
  split; [| split; [| split]].
  - intros w. apply openRandomProduct_nothing.
  - intros n w w1 tr. apply productLoop_nothing.
  - intros Hrng w. apply openRandomProduct_opens. exact Hrng.
  - intros Hrng w. apply openRandomProduct_picks. exact Hrng.
Qed.

Lemma no_product_links_ends_the_opens_witness :
  let w := Stub.start 1 5 0 in
  exec Stub.env (openRandomProduct 1%nat) w
  = (Ok false, [Act (Count 1%nat ProductLinks) (Ok 0)], w)
  /\ outcome (exec Stub.env (productLoop 1%nat defaultConfig 2) w) = Ok tt
  /\ (exists idx a2,
         0 <= idx < 20
         /\ In (Act (Click 1%nat (ProductLink idx) 6000) a2)
               (trace (exec Stub.env (openRandomProduct 1%nat) (Stub.start 1 5 30))))
  /\ each_action (link_within 30)
                 (trace (exec Stub.env (openRandomProduct 1%nat) (Stub.start 1 5 30))).
Proof.
  intros w.
  destruct (no_product_links_ends_the_opens Stub.env 1%nat defaultConfig)
    as [Ha [Hb [Hc Hd]]].
  split; [exact (Ha w ltac:(vm_compute; discriminate)) |]. split; [| split].
  - rewrite (Hb 1%nat w w (trace (exec Stub.env (isBlocked 1%nat) w)) eq_refl
               ltac:(vm_compute; discriminate)).
    reflexivity.
  - destruct (Hc Stub_rng_ok (Stub.start 1 5 30) ltac:(vm_compute; reflexivity))
      as [idx [r [a1 [r' [ms [a2 [popup [a3 [last [wf [Hidx [_ [E _]]]]]]]]]]]]].
    exists idx, a2. split; [exact Hidx |]. rewrite E. unfold trace. cbn [fst snd].
    do 5 right. left. reflexivity.
  - exact (Hd Stub_rng_ok (Stub.start 1 5 30)).
Defined.

(* ================================================================== *)
(** * More about mulberry32 *)

Lemma toInt32_congr x y :
  x mod Int32.two32 = y mod Int32.two32 -> Int32.toInt32 x = Int32.toInt32 y.
Proof.
  intros H. unfold Int32.toInt32.
  rewrite (Z.add_mod x), (Z.add_mod y), H by (unfold Int32.two32; lia). reflexivity.
Qed.

Lemma toInt32_mod x : Int32.toInt32 x mod Int32.two32 = x mod Int32.two32.
Proof.
  unfold Int32.toInt32, Int32.two32, Int32.two31.
  pose proof (Z.mod_pos_bound (x + 2147483648) 4294967296 ltac:(lia)) as Hb.
  pose proof (Z.div_mod (x + 2147483648) 4294967296 ltac:(lia)) as Hd.
  replace ((x + 2147483648) mod 4294967296 - 2147483648)
    with (x + (- ((x + 2147483648) / 4294967296)) * 4294967296) by lia.
  apply Z.mod_add. lia.
Qed.

Lemma or32_zero a : Int32.or32 a 0 = Int32.toInt32 a.
Proof.
  unfold Int32.or32. change (Int32.toInt32 0) with 0. rewrite Z.lor_0_r.
  apply toInt32_congr. apply toInt32_mod.
Qed.

(** The generator reads its state modulo 2^32. *)
Lemma mulberry32_next_congr a a' :
  a mod Int32.two32 = a' mod Int32.two32 -> mulberry32_next a = mulberry32_next a'.
Proof.
  intros H. unfold mulberry32_next. rewrite !(or32_zero a), !(or32_zero a').
  rewrite (toInt32_congr _ _ H). reflexivity.
Qed.

(** Each call adds the constant to the state, modulo 2^32. *)
Lemma mulberry32_next_state a :
  snd (mulberry32_next a) mod Int32.two32 = (a + C_mul) mod Int32.two32.
Proof.
  unfold mulberry32_next. cbn [snd]. rewrite !or32_zero, !toInt32_mod.
  rewrite Z.add_mod, toInt32_mod, <- Z.add_mod by (unfold Int32.two32; lia).
  reflexivity.
Qed.

Lemma draws_nth a n k :
  (k < n)%nat ->
  nth_error (draws n a) k = Some (fst (mulberry32_next (a + Z.of_nat k * C_mul))).
Proof.
  unfold draws. revert a k. induction n as [| n IH]; intros a k Hk; [lia |].
  cbn [produce]. destruct (mulberry32_next a) as [r a1] eqn:E.
  destruct k as [| k]; cbn [nth_error].
  - f_equal. replace (a + Z.of_nat 0 * C_mul) with a by lia. rewrite E. reflexivity.
  - rewrite IH by lia. do 2 f_equal. apply mulberry32_next_congr.
    pose proof (mulberry32_next_state a) as Hs. rewrite E in Hs. cbn [snd] in Hs.
    rewrite Z.add_mod, Hs, <- Z.add_mod by (unfold Int32.two32; lia).
    f_equal. lia.
Qed.

(** X1.  The state of a [mulberry32] generator is a counter: the draw
    number [k] (from 0) of a generator started in state [a] is the output
    function applied to [a + k * 0x6d2b79f5], and that function reads its
    argument modulo 2^32, so the stream of draws repeats after 2^32 calls. *)
Theorem mulberry32_counter (a : Z) (n k : nat) (Hk : (k < n)%nat) :
  nth_error (draws n a) k = Some (fst (mulberry32_next (a + Z.of_nat k * C_mul)))
  /\ (forall j : Z,
        fst (mulberry32_next (a + (Z.of_nat k + j * Int32.two32) * C_mul))
        = fst (mulberry32_next (a + Z.of_nat k * C_mul))).
Proof.
  split; [apply draws_nth; exact Hk |].
  intros j. f_equal. apply mulberry32_next_congr.
  replace (a + (Z.of_nat k + j * Int32.two32) * C_mul)
    with (a + Z.of_nat k * C_mul + (j * C_mul) * Int32.two32) by lia.
  apply Z.mod_add. unfold Int32.two32. lia.
Qed.

Lemma mulberry32_counter_witness :
  nth_error (draws 5 (mulberry32 1)) 3
  = Some (fst (mulberry32_next (mulberry32 1 + 3 * C_mul))).
Proof.
  exact (proj1 (@mulberry32_counter (mulberry32 1) 5 3 ltac:(lia))).
Defined.

(** X2.  Every draw of a [mulberry32] generator, in whatever state, is
    [u / 2^32] for an integer [u] with [0 <= u < 2^32]: it lies in [0, 1)
    and on the grid of multiples of 2^-32. *)
Theorem mulberry32_draw_grid (a : Z) :
  exists u : Z,
    0 <= u < Int32.two32
    /\ fst (mulberry32_next a) = (inject_Z u / inject_Z Int32.two32)%Q
    /\ (0 <= fst (mulberry32_next a))%Q
    /\ (fst (mulberry32_next a) < 1)%Q.
Proof.
  unfold mulberry32_next. cbv zeta. cbn [fst].
  match goal with
  | |- context [inject_Z (Int32.ushr32 ?t 0)] => set (u := Int32.ushr32 t 0)
  end.
  assert (Hu : 0 <= u < Int32.two32).
  { unfold u, Int32.ushr32. change (0 mod 32) with 0. rewrite Z.shiftr_0_r.
    apply toUint32_range. }
  exists u. split; [exact Hu |]. split; [reflexivity |].
  exact (unit_draw_of_uint32 Hu).
Qed.

(* ================================================================== *)
(** * More about randomChoice, jitter and typeLikeHuman *)

(** X3.  [randomChoice] selects uniformly.  On a list of [len] elements,
    at most 2^21, and a draw [r] that is a multiple of 2^-32 in [0, 1), the
    index computed in double arithmetic is the exact [floor(r * len)]; it
    is [i] exactly when [i / len <= r < (i + 1) / len], and the call then
    returns the element of index [i]. *)
Theorem randomChoice_uniform {T St} (step : St -> Q * St) (s : St)
        (items : list T) (i : nat)
        (Hr : grid_draw (fst (step s)))
        (Hlen : Z.of_nat (length items) <= 2 ^ 21)
        (Hi : (i < length items)%nat) :
  let r := fst (step s) in
  let len := inject_Z (Z.of_nat (length items)) in
  Float64.choiceIndex r (length items)
  = Float64.Finite (inject_Z (choiceIndex r (length items)))
  /\ (choiceIndex r (length items) = Z.of_nat i
      <-> (inject_Z (Z.of_nat i) / len <= r /\ r < inject_Z (Z.of_nat i + 1) / len)%Q)
  /\ (choiceIndex r (length items) = Z.of_nat i ->
      exists x, nth_error items i = Some x
                /\ runGen step (randomChoice items) s = (Ok x, snd (step s))).
Proof.
  cbv zeta.
  assert (Hpos : (0 < inject_Z (Z.of_nat (length items)))%Q).
  { change 0%Q with (inject_Z 0). rewrite <- Zlt_Qlt. lia. }
  split; [exact (@choiceIndex_exact _ _ Hr Hlen) |]. split.
  - unfold choiceIndex. rewrite Qfloor_eq_iff.
    rewrite (scaled_le_iff _ _ Hpos), (scaled_lt_iff _ _ Hpos). reflexivity.
  - intros Hc. destruct items as [| d rest]; [cbn in Hi; lia |].
    destruct (nth_error (d :: rest) i) as [x |] eqn:Ex;
      [| apply nth_error_None in Ex; lia].
    exists x. split; [reflexivity |].
    unfold randomChoice. cbn [runGen]. destruct (step s) as [r s1]. cbn [fst snd] in *.
    rewrite Hc, Nat2Z.id. f_equal. f_equal.
    apply nth_error_nth. exact Ex.
Qed.

Lemma randomChoice_uniform_witness :
  let step := fun s : unit => ((1 # 2)%Q, s) in
  Float64.choiceIndex (1 # 2) 4 = Float64.Finite 2
  /\ exists x, nth_error [10; 20; 30; 40] 2 = Some x
               /\ runGen step (randomChoice [10; 20; 30; 40]) tt = (Ok x, tt).
Proof.
  intros step.
  assert (Hr : grid_draw (fst (step tt)))
    by (exists 2147483648; split; [unfold Int32.two32; lia | reflexivity]).
  destruct (@randomChoice_uniform Z unit step tt [10; 20; 30; 40] 2%nat Hr
              ltac:(cbn; lia) ltac:(cbn; lia)) as [H64 [Hiff Hget]].
  split; [exact H64 |]. apply Hget. reflexivity.
Defined.

(** X4.  [jitter] asks for exactly one pause.  With draws that are
    multiples of 2^-32 in [0, 1) and a non-empty range in which double
    arithmetic is exact (ends at most 2^52 in absolute value, less than
    2^21 apart), it draws once and hands [sleep] a whole number of
    milliseconds between [ceil(minMs)] and [floor(maxMs)], the value that
    [randomInt] computes from that draw in double arithmetic; with an
    inverted range it draws nothing and hands [sleep] [ceil(minMs)]. *)
Theorem jitter_pauses_once (env : Env) (Hgrid : rng_grid env) (minMs maxMs : Q)
        (w : World env) :
  (Qceiling minMs <= Qfloor maxMs ->
   exact_range minMs maxMs ->
   let r := fst (answer env Rand w) in
   let ms := scaled (Qceiling minMs) (Qfloor maxMs) r in
   Qceiling minMs <= ms <= Qfloor maxMs
   /\ exec env (jitter minMs maxMs) w
      = (Ok tt, [Act Rand r; Act (Sleep ms) tt],
         snd (answer env (Sleep ms) (snd (answer env Rand w))))
   /\ runGen (answer env Rand)
             (Float64.randomInt (Float64.Finite minMs) (Float64.Finite maxMs)) w
      = (Ok (Float64.Finite (inject_Z ms)), snd (answer env Rand w)))
  /\ (Qfloor maxMs < Qceiling minMs ->
      exec env (jitter minMs maxMs) w
      = (Ok tt, [Act (Sleep (Qceiling minMs)) tt],
         snd (answer env (Sleep (Qceiling minMs)) w))).
Proof.
  split.
  - intros Hle Hx. cbv zeta.
    pose proof (Hgrid w) as Hr.
    destruct Hx as [Hx | [Hlo [Hhi Hw]]]; [lia |].
    split; [| split].
    + pose proof (floor_scale (n := Qfloor maxMs - Qceiling minMs + 1)
                    (grid_unit Hr) ltac:(lia)) as Hf.
      unfold scaled. lia.
    + unfold jitter. rewrite (randomInt_scaled _ _ Hle). cbn [liftGen bind exec].
      destruct (answer env Rand w) as [r w1]. cbn [fst snd].
      unfold sleep, perform. cbn [exec].
      destruct (answer env (Sleep _) w1) as [[] w2]. reflexivity.
    + unfold Float64.randomInt. cbn [Float64.ceil Float64.floor]. cbv zeta.
      rewrite lt_Z.
      destruct (Z.ltb_spec (Qfloor maxMs) (Qceiling minMs)) as [Hlt | _]; [lia |].
      cbn [runGen]. destruct (answer env Rand w) as [r w1]. cbn [fst snd] in *.
      rewrite randomInt_value by assumption. reflexivity.
  - intros Hlt. unfold jitter. rewrite (randomInt_degenerate _ _ Hlt).
    cbn [liftGen bind]. unfold sleep, perform. cbn [exec].
    destruct (answer env (Sleep (Qceiling minMs)) w) as [[] w1]. reflexivity.
Qed.

Lemma jitter_pauses_once_witness :
  rng_grid Stub.env
  /\ (exists ms, 250 <= ms <= 900
                 /\ trace (exec Stub.env (jitter 250 900) (Stub.start 1 0 0))
                    = [Act Rand (fst (answer Stub.env Rand (Stub.start 1 0 0)));
                       Act (Sleep ms) tt])
  /\ trace (exec Stub.env (jitter 5000 1000) (Stub.start 1 0 0))
     = [Act (Sleep 5000) tt].
Proof.
  split; [exact Stub_rng_grid |].
  destruct (jitter_pauses_once Stub_rng_grid 250 900 (Stub.start 1 0 0)) as [Hin _].
  destruct (jitter_pauses_once Stub_rng_grid 5000 1000 (Stub.start 1 0 0)) as [_ Hdeg].
  split.
  - destruct (Hin ltac:(vm_compute; discriminate)
                  ltac:(right; vm_compute; repeat split; discriminate))
      as [Hms [E _]].
    eexists. split; [exact Hms | rewrite E; reflexivity].
  - rewrite (Hdeg ltac:(vm_compute; reflexivity)). reflexivity.
Defined.

(** X5.  [typeLikeHuman] draws one delay for the whole text, an integer
    from 30 to 120, and then types once, with the selector and the text it
    was given; what the typing returns or throws is its own outcome. *)
Theorem typeLikeHuman_delay (env : Env) (Hrng : rng_ok env) {A}
        (pageType : jsstring -> jsstring -> Z -> Prog A)
        (selector text : jsstring) (w : World env) :
  exists delay,
    30 <= delay <= 120
    /\ let typed := exec env (pageType selector text delay)
                         (snd (answer env Rand w)) in
       exec env (typeLikeHuman pageType selector text) w
       = (outcome typed, Act Rand (fst (answer env Rand w)) :: trace typed, final typed).
Proof.
  destruct (exec_randomInt Hrng 30 120 w) as [delay [E Hd]]; [vm_compute; discriminate |].
  exists delay. split; [exact Hd |].
  cbv zeta. unfold typeLikeHuman. rewrite exec_bind, E.
  destruct (exec env (pageType selector text delay) _) as [[r tr] w2]. reflexivity.
Qed.

Lemma typeLikeHuman_delay_witness :
  rng_ok Stub.env
  /\ exists delay,
      30 <= delay <= 120
      /\ trace (exec Stub.env
                     (typeLikeHuman (fun _ _ d => perform (Sleep d)) (js "#q") (js "tent"))
                     (Stub.start 1 0 0))
         = [Act Rand (fst (answer Stub.env Rand (Stub.start 1 0 0)));
            Act (Sleep delay) tt].
Proof.
  split; [exact Stub_rng_ok |].
  destruct (typeLikeHuman_delay Stub_rng_ok (fun _ _ d => perform (Sleep d))
              (js "#q") (js "tent") (Stub.start 1 0 0)) as [delay [Hd E]].
  exists delay. split; [exact Hd |]. rewrite E. reflexivity.
Defined.

(* ================================================================== *)
(** * More about seed phrases *)

Lemma trimStart_fixed s : leading_ws s = false -> trimStart s = s.
Proof. destruct s as [| c r]; [reflexivity |]. simpl. intros ->. reflexivity. Qed.

Lemma trim_fixed s : leading_ws s = false -> trailing_ws s = false -> trim s = s.
Proof.
  intros Hl Ht. unfold trim, trimEnd. rewrite (trimStart_fixed _ Hl).
  unfold trailing_ws in Ht. rewrite (trimStart_fixed _ Ht). apply rev_involutive.
Qed.

Lemma trim_idempotent s : trim (trim s) = trim s.
Proof. apply trim_fixed; [apply leading_ws_trim | apply trailing_ws_trim]. Qed.

Lemma normalizeSeedLine_clean p : clean_phrase p -> normalizeSeedLine p = Some p.
Proof.
  intros [Hne [Hl [Ht Hh]]]. unfold normalizeSeedLine.
  rewrite (trim_fixed _ Hl Ht), Hh.
  destruct p; [congruence | reflexivity].
Qed.

(** X6.  [normalizeSeedLine] is idempotent: a line it accepts is returned
    trimmed, and the returned phrase is accepted unchanged; a line is
    rejected exactly when its trimmed form is empty or starts with '#'. *)
Theorem normalizeSeedLine_idempotent (line p : jsstring)
        (H : normalizeSeedLine line = Some p) :
  p = trim line
  /\ normalizeSeedLine p = Some p
  /\ (forall other, normalizeSeedLine other = None
                    <-> trim other = [] \/ startsWithHash (trim other) = true).
Proof.
  assert (Hp : p = trim line /\ usable (trim line) = true).
  { unfold normalizeSeedLine, usable in *.
    destruct (nonEmpty (trim line)); cbn [negb andb] in *; [| discriminate].
    destruct (startsWithHash (trim line)); cbn [negb]; [discriminate |].
    injection H as <-. split; reflexivity. }
  destruct Hp as [-> Hu]. split; [reflexivity |]. split.
  - apply normalizeSeedLine_clean, clean_trimmed. exact Hu.
  - intros other. unfold normalizeSeedLine.
    destruct (trim other) as [| c r] eqn:E; cbn [nonEmpty negb].
    + split; [left; reflexivity | reflexivity].
    + destruct (startsWithHash (c :: r)).
      * split; [right; reflexivity | reflexivity].
      * split; [discriminate | intros [? | ?]; discriminate].
Qed.

Lemma normalizeSeedLine_idempotent_witness :
  normalizeSeedLine (js "  yoga mat  ") = Some (js "yoga mat")
  /\ normalizeSeedLine (js "yoga mat") = Some (js "yoga mat").
Proof.
  split; [reflexivity |].
  exact (proj1 (proj2 (@normalizeSeedLine_idempotent (js "  yoga mat  ")
                          (js "yoga mat") eq_refl))).
Defined.

Lemma has_no_app c a b : has_no c (a ++ b) <-> has_no c a /\ has_no c b.
Proof. unfold has_no. apply Forall_app. Qed.

Lemma has_no_rev c s : has_no c s -> has_no c (rev s).
Proof. unfold has_no. apply Forall_rev. Qed.

(** No line of [split_lines] contains a line feed. *)
Lemma split_from_no_LF s cur :
  has_no LF cur -> Forall (has_no LF) (split_from cur s).
Proof.
  remember (length s) as n eqn:Hn. revert s cur Hn.
  induction n as [n IH] using lt_wf_ind. intros s cur Hn Hcur.
  destruct s as [| c r]; cbn [split_from].
  - constructor; [apply has_no_rev; exact Hcur | constructor].
  - destruct (N.eqb_spec c LF) as [-> | HcLF].
    + constructor; [apply has_no_rev; exact Hcur |].
      apply (IH (length r)); [subst n; cbn; lia | reflexivity | constructor].
    + assert (Hcc : has_no LF (c :: cur)) by (constructor; assumption).
      destruct (N.eqb_spec c CR) as [-> | HcCR].
      * destruct r as [| d r'].
        -- apply (IH 0%nat); [subst n; cbn; lia | reflexivity | exact Hcc].
        -- destruct (N.eqb_spec d LF) as [-> | HdLF].
           ++ constructor; [apply has_no_rev; exact Hcur |].
              apply (IH (length r')); [subst n; cbn; lia | reflexivity | constructor].
           ++ apply (IH (length (d :: r'))); [subst n; cbn; lia | reflexivity | exact Hcc].
      * apply (IH (length r)); [subst n; cbn; lia | reflexivity | exact Hcc].
Qed.

Lemma trim_has_no c s : has_no c s -> has_no c (trim s).
Proof.
  intros H. unfold trim.
  destruct (trimStart_suffix s) as [p Hp]. rewrite Hp in H.
  apply has_no_app in H. destruct H as [_ H].
  destruct (trimEnd_prefix (trimStart s)) as [q Hq]. rewrite Hq in H.
  apply has_no_app in H. exact (proj1 H).
Qed.

(** A text without line feed is one line. *)
Lemma split_from_one_line l cur :
  has_no LF l -> split_from cur l = [rev cur ++ l].
Proof.
  revert cur. induction l as [| c r IH]; intros cur H; cbn [split_from].
  - rewrite app_nil_r. reflexivity.
  - inversion H as [| ? ? Hc Hr]; subst.
    assert (Estep : split_from (c :: cur) r = [rev cur ++ c :: r]).
    { rewrite (IH (c :: cur) Hr). cbn [rev]. rewrite <- app_assoc. reflexivity. }
    destruct (N.eqb_spec c LF) as [E | _]; [contradiction |].
    destruct (c =? CR)%N; [| exact Estep].
    destruct r as [| d r']; [exact Estep |].
    inversion Hr as [| ? ? Hd _]; subst.
    destruct (N.eqb_spec d LF) as [E | _]; [contradiction | exact Estep].
Qed.

(** A line without line feed that does not end with a carriage return,
    followed by a line feed: the line is split off. *)
Lemma split_from_first_line l rest cur :
  has_no LF l -> (forall l', l <> l' ++ [CR]) ->
  split_from cur (l ++ LF :: rest) = (rev cur ++ l) :: split_from [] rest.
Proof.
  revert cur. induction l as [| c r IH]; intros cur H Hcr.
  - cbn [app split_from]. rewrite N.eqb_refl, app_nil_r. reflexivity.
  - inversion H as [| ? ? Hc Hr]; subst.
    assert (Hcr' : forall l', r <> l' ++ [CR]).
    { intros l' E. apply (Hcr (c :: l')). rewrite E. reflexivity. }
    assert (Estep : split_from (c :: cur) (r ++ LF :: rest)
                    = (rev cur ++ c :: r) :: split_from [] rest).
    { rewrite (IH (c :: cur) Hr Hcr'). cbn [rev]. rewrite <- app_assoc. reflexivity. }
    cbn [app split_from].
    destruct (N.eqb_spec c LF) as [E | _]; [contradiction |].
    destruct (N.eqb_spec c CR) as [-> | _]; [| exact Estep].
    destruct r as [| d r']; [exfalso; exact (Hcr [] eq_refl) |].
    inversion Hr as [| ? ? Hd _]; subst. cbn [app].
    destruct (N.eqb_spec d LF) as [E | _]; [contradiction | exact Estep].
Qed.

Lemma clean_no_final_CR p : trailing_ws p = false -> forall l', p <> l' ++ [CR].
Proof.
  intros Ht l' ->. unfold trailing_ws in Ht. rewrite rev_app_distr in Ht.
  discriminate.
Qed.

Lemma split_lines_joinLines (L : list jsstring) :
  L <> [] ->
  Forall (fun p => has_no LF p /\ trailing_ws p = false) L ->
  split_lines (joinLines L) = L.
Proof.
  unfold split_lines. induction L as [| x rest IH]; [congruence |].
  intros _ H. inversion H as [| ? ? [Hx Ht] Hrest]; subst.
  cbn [joinLines]. destruct rest as [| y rest'].
  - apply (split_from_one_line [] Hx).
  - rewrite (split_from_first_line _ [] Hx (clean_no_final_CR Ht)).
    cbn [rev app]. f_equal. apply IH; [discriminate | exact Hrest].
Qed.

Lemma keepTruthy_clean (L : list jsstring) :
  Forall clean_phrase L -> keepTruthy (map normalizeSeedLine L) = L.
Proof.
  induction 1 as [| p rest Hp _ IH]; [reflexivity |].
  cbn [map]. unfold keepTruthy in *. cbn [flat_map].
  rewrite (normalizeSeedLine_clean Hp), IH.
  destruct Hp as [Hne _]. destruct p; [congruence | reflexivity].
Qed.

Lemma loaded_lines_no_LF content :
  Forall (fun p => has_no LF p /\ trailing_ws p = false)
         (keepTruthy (map normalizeSeedLine (split_lines content))).
Proof.
  rewrite keepTruthy_normalize. apply Forall_forall. intros p Hp.
  apply in_map_iff in Hp. destruct Hp as [line [<- Hline]].
  apply filter_In in Hline. destruct Hline as [Hin _].
  split; [| apply trailing_ws_trim].
  apply trim_has_no.
  pose proof (split_from_no_LF content (cur := []) ltac:(constructor)) as Hall.
  rewrite Forall_forall in Hall. exact (Hall line Hin).
Qed.

(** X7.  Loading is a round trip on its own output: a file that lists the
    phrases loaded from any file, one per line, loads as exactly those
    phrases. *)
Theorem loadSeedPhrases_reload (content path : jsstring)
        (Hpath : nonEmpty path = true) :
  let loaded := loadSeedPhrases (fun _ => Ok content) (Some path) in
  loadSeedPhrases (fun _ => Ok (joinLines loaded)) (Some path) = loaded.
Proof.
  cbv zeta. unfold loadSeedPhrases. rewrite Hpath. cbn [negb].
  set (L := keepTruthy (map normalizeSeedLine (split_lines content))).
  assert (Hclean : Forall clean_phrase L).
  { pose proof (loadSeedPhrases_clean (fun _ => Ok content) (Some path)) as H.
    unfold loadSeedPhrases in H. rewrite Hpath in H. exact H. }
  destruct L as [| x rest] eqn:EL; [reflexivity |].
  rewrite split_lines_joinLines.
  - apply keepTruthy_clean. exact Hclean.
  - discriminate.
  - rewrite <- EL. apply loaded_lines_no_LF.
Qed.

Lemma loadSeedPhrases_reload_witness :
  let content := js "  # note  " ++ [CR; LF] ++ js " yoga mat " ++ [LF; LF] ++ js "tent" in
  loadSeedPhrases (fun _ => Ok content) (Some (js "seeds.txt")) = [js "yoga mat"; js "tent"]
  /\ loadSeedPhrases (fun _ => Ok (joinLines [js "yoga mat"; js "tent"]))
                     (Some (js "seeds.txt"))
     = [js "yoga mat"; js "tent"].
Proof.
  intros content. split; [reflexivity |].
  exact (@loadSeedPhrases_reload content (js "seeds.txt") eq_refl).
Defined.

Lemma split_from_crlf s cur :
  has_no CR s -> split_from cur (crlf s) = split_from cur s.
Proof.
  revert cur. induction s as [| c r IH]; intros cur H; [reflexivity |].
  inversion H as [| ? ? Hc Hr]; subst. cbn [crlf].
  destruct (N.eqb_spec c LF) as [-> | HcLF].
  - cbn [split_from]. change (CR =? LF)%N with false. change (CR =? CR)%N with true.
    rewrite !N.eqb_refl. f_equal. apply IH. exact Hr.
  - cbn [split_from].
    destruct (N.eqb_spec c LF) as [E | _]; [contradiction |].
    destruct (N.eqb_spec c CR) as [E | _]; [contradiction |].
    apply IH. exact Hr.
Qed.

(** X8.  Line endings make no difference: a text without carriage return
    and the same text with every line feed turned into carriage return plus
    line feed split into the same lines and load as the same phrases. *)
Theorem loadSeedPhrases_crlf (content : jsstring) (path : jsstring)
        (Hcr : has_no CR content) :
  split_lines (crlf content) = split_lines content
  /\ loadSeedPhrases (fun _ => Ok (crlf content)) (Some path)
     = loadSeedPhrases (fun _ => Ok content) (Some path).
Proof.
  assert (E : split_lines (crlf content) = split_lines content)
    by (apply split_from_crlf; exact Hcr).
  split; [exact E |].
  unfold loadSeedPhrases. rewrite E. reflexivity.
Qed.

Lemma loadSeedPhrases_crlf_witness :
  let content := js "# list" ++ [LF] ++ js "yoga mat" ++ [LF] ++ js "tent" ++ [LF] in
  crlf content
  = js "# list" ++ [CR; LF] ++ js "yoga mat" ++ [CR; LF] ++ js "tent" ++ [CR; LF]
  /\ loadSeedPhrases (fun _ => Ok (crlf content)) (Some (js "seeds.txt"))
     = loadSeedPhrases (fun _ => Ok content) (Some (js "seeds.txt")).
Proof.
  intros content. split; [reflexivity |].
  refine (proj2 (@loadSeedPhrases_crlf content (js "seeds.txt") _)).
  unfold has_no. repeat constructor; discriminate.
Defined.

(* ================================================================== *)
(** * More about templateQuery *)

Lemma DrawsIn_weaken {A} (P P' : A -> Prop) (m : Gen A) lo hi lo' hi' :
  DrawsIn P lo hi m -> (forall a, P a -> P' a) -> (lo' <= lo)%nat -> (hi <= hi')%nat ->
  DrawsIn P' lo' hi' m.
Proof.
  intros H HP. revert lo' hi'.
  induction H as [a hi Ha | k lo hi _ IH]; intros lo' hi' Hlo Hhi.
  - replace lo' with 0%nat by lia. constructor. auto.
  - destruct hi' as [| hi']; [lia |]. constructor.
    intros r Hr. apply (IH r Hr); lia.
Qed.

Lemma DrawsIn_bind {A B} (Q : A -> Prop) (P : B -> Prop) (a b c d : nat)
      (m : Gen A) (f : A -> Gen B) :
  DrawsIn Q a b m -> (forall x, Q x -> DrawsIn P c d (f x)) ->
  DrawsIn P (a + c) (b + d) (gbind m f).
Proof.
  intros H Hf. induction H as [x hi Hx | k lo hi _ IH]; cbn [gbind].
  - apply DrawsIn_weaken with (1 := Hf x Hx); [auto | lia | lia].
  - change (S hi + d)%nat with (S (hi + d)). constructor. intros r Hr.
    apply DrawsIn_weaken with (1 := IH r Hr); [auto | lia | lia].
Qed.

Lemma DrawsIn_sound {A St} (step : St -> Q * St) (P : A -> Prop) (m : Gen A) lo hi :
  (forall s, unit_draw (fst (step s))) -> DrawsIn P lo hi m ->
  forall s, (lo <= drawCount step m s <= hi)%nat.
Proof.
  intros Hstep H. induction H as [a hi Ha | k lo hi _ IH]; intros s; cbn [drawCount];
    [lia |].
  specialize (Hstep s). destruct (step s) as [r s']. cbn [fst] in Hstep.
  specialize (IH r Hstep s'). lia.
Qed.

Lemma DrawsIn_randomChoice {T} (items : list T) :
  items <> [] -> DrawsIn (fun x => In x items) 1 1 (randomChoice items).
Proof.
  destruct items as [| d rest]; [congruence |]. intros _.
  unfold randomChoice. constructor. intros r Hr. constructor.
  apply nth_In. apply choiceIndex_range; [exact Hr | cbn; lia].
Qed.

Lemma DrawsIn_any {A} (P : A -> Prop) (m : Gen A) lo hi :
  DrawsIn P lo hi m -> DrawsIn (fun _ => True) lo hi m.
Proof. intros H. apply DrawsIn_weaken with (1 := H); auto. Qed.

Lemma DrawsIn_choice {T} (items : list T) :
  items <> [] -> DrawsIn (fun _ => True) 1 1 (randomChoice items).
Proof. intros H. exact (DrawsIn_any (DrawsIn_randomChoice H)). Qed.

Lemma DrawsIn_maybe {A} p (e : Gen A) :
  DrawsIn (fun _ => True) 1 1 e -> DrawsIn (fun _ => True) 1 2 (maybe p e).
Proof.
  intros He. unfold maybe, rand. cbn [gbind]. constructor. intros r _.
  destruct (lessThan r p); [| constructor; exact I].
  apply (@DrawsIn_bind _ _ (fun _ => True) (fun _ => True) 0 1 0 0);
    [apply DrawsIn_weaken with (1 := He); [auto | lia | lia] |].
  intros x _. constructor. exact I.
Qed.

Lemma DrawsIn_orChoice x (items : list jsstring) :
  items <> [] -> DrawsIn (fun _ => True) 0 1 (orChoice x items).
Proof.
  intros H. destruct x; cbn [orChoice]; [constructor; exact I |].
  apply DrawsIn_weaken with (1 := DrawsIn_choice H); [auto | lia | lia].
Qed.

(** One more draw of no consequence, then [c .. d] draws. *)
Ltac draw_then n1 n2 n3 n4 :=
  apply (@DrawsIn_bind _ _ (fun _ => True) (fun _ => True) n1 n2 n3 n4);
  [ first [ apply DrawsIn_choice; discriminate
          | apply DrawsIn_orChoice; discriminate
          | eapply DrawsIn_weaken with (lo := 1%nat) (hi := 1%nat);
            [apply DrawsIn_choice; discriminate | auto | lia | lia]
          | apply DrawsIn_maybe, DrawsIn_choice; discriminate ]
  | intros ? _ ].

Lemma DrawsIn_patterns seed category adjective intent brand priceCap year
      location topic unrelatedFragment pattern :
  In pattern (patterns seed category adjective intent brand priceCap year
                       location topic unrelatedFragment) ->
  DrawsIn (fun _ => True) 0 3 pattern.
Proof.
  intros Hin. unfold patterns in Hin. cbn [In] in Hin.
  repeat (destruct Hin as [<- | Hin]);
    try (constructor; exact I); try contradiction.
  - draw_then 0%nat 1%nat 0%nat 2%nat. draw_then 0%nat 1%nat 0%nat 1%nat.
    constructor; exact I.
  - draw_then 0%nat 1%nat 0%nat 2%nat. constructor; exact I.
  - draw_then 0%nat 1%nat 0%nat 2%nat. constructor; exact I.
  - draw_then 0%nat 1%nat 0%nat 2%nat. draw_then 0%nat 1%nat 0%nat 1%nat.
    draw_then 0%nat 1%nat 0%nat 0%nat. constructor; exact I.
Qed.

Lemma DrawsIn_templateQuery (seedPhrases : list jsstring) :
  DrawsIn (fun _ => True)
          (match seedPhrases with [] => 0 | _ :: _ => 1 end + 12) 24
          (templateQuery seedPhrases).
Proof.
  unfold templateQuery.
  apply (@DrawsIn_bind _ _ (fun _ => True) (fun _ => True)
           (match seedPhrases with [] => 0 | _ :: _ => 1 end)%nat 1 12 23).
  { destruct seedPhrases as [| s0 rest]; cbn [length Nat.eqb]; [constructor; exact I |].
    apply (@DrawsIn_bind _ _ (fun _ => True) (fun _ => True) 1 1 0 0);
      [apply DrawsIn_choice; discriminate | intros; constructor; exact I]. }
  intros seed _.
  draw_then 1%nat 1%nat 11%nat 22%nat.
  draw_then 1%nat 1%nat 10%nat 21%nat.
  draw_then 1%nat 1%nat 9%nat 20%nat.
  draw_then 1%nat 2%nat 8%nat 18%nat.
  apply (@DrawsIn_bind _ _ (fun _ => True) (fun _ => True) 1 2 7 16).
  { apply DrawsIn_maybe. draw_then 1%nat 1%nat 0%nat 0%nat. constructor; exact I. }
  intros priceCap _.
  apply (@DrawsIn_bind _ _ (fun _ => True) (fun _ => True) 1 2 6 14).
  { apply DrawsIn_maybe. draw_then 1%nat 1%nat 0%nat 0%nat. constructor; exact I. }
  intros year _.
  draw_then 1%nat 2%nat 5%nat 12%nat.
  draw_then 1%nat 2%nat 4%nat 10%nat.
  draw_then 1%nat 2%nat 3%nat 8%nat.
  eapply (@DrawsIn_bind _ _ _ (fun _ => True) 1 1 2 7);
    [apply DrawsIn_randomChoice; discriminate |].
  intros pattern Hin.
  apply (@DrawsIn_bind _ _ (fun _ => True) (fun _ => True) 0 3 2 4);
    [exact (DrawsIn_patterns Hin) |].
  intros q _.
  apply (@DrawsIn_bind _ _ (fun _ => True) (fun _ => True) 1 2 1 2).
  { unfold rand. cbn [gbind]. constructor. intros r _.
    destruct (lessThan r 0.25); [| constructor; exact I].
    draw_then 0%nat 1%nat 0%nat 0%nat. constructor; exact I. }
  intros q1 _.
  apply (@DrawsIn_bind _ _ (fun _ => True) (fun _ => True) 1 2 0 0).
  { unfold rand. cbn [gbind]. constructor. intros r _.
    destruct (lessThan r 0.2); [| constructor; exact I].
    apply (@DrawsIn_bind _ _ (fun _ => True) (fun _ => True) 0 1 0 0).
    - unfold randomInt. change (Qfloor 128 <? Qceiling 2) with false. cbv iota.
      constructor. intros; constructor; exact I.
    - intros; constructor; exact I. }
  intros q2 _. constructor. exact I.
Qed.

(** X9.  Against every generator whose draws lie in [0, 1), one call of
    [templateQuery] consumes at least 12 and at most 24 draws, and at least
    13 when there are seed phrases. *)
Theorem templateQuery_draws {St} (step : St -> Q * St)
        (Hstep : forall s, unit_draw (fst (step s)))
        (s : St) (seedPhrases : list jsstring) :
  (12 <= drawCount step (templateQuery seedPhrases) s <= 24)%nat
  /\ (seedPhrases <> [] ->
      (13 <= drawCount step (templateQuery seedPhrases) s)%nat).
Proof.
  pose proof (DrawsIn_sound step Hstep (DrawsIn_templateQuery seedPhrases) s) as H.
  destruct seedPhrases as [| s0 rest].
  - split; [cbn [Nat.add] in H; lia | congruence].
  - split; [lia | intros _; lia].
Qed.

Lemma templateQuery_draws_witness :
  (forall a, unit_draw (fst (mulberry32_next a)))
  /\ (12 <= drawCount mulberry32_next (templateQuery []) (mulberry32 1) <= 24)%nat
  /\ (13 <= drawCount mulberry32_next (templateQuery [js "zz top"]) (mulberry32 1))%nat.
Proof.
  split; [exact mulberry32_next_unit |]. split.
  - exact (proj1 (templateQuery_draws mulberry32_next mulberry32_next_unit
                    (mulberry32 1) [])).
  - apply (proj2 (templateQuery_draws mulberry32_next mulberry32_next_unit
                    (mulberry32 1) [js "zz top"])). discriminate.
Defined.

Lemma occurs_self w : occurs_in w w.
Proof. exists [], []. rewrite app_nil_r. reflexivity. Qed.

Lemma occurs_head w s : occurs_in w (w ++ s).
Proof. exists [], s. reflexivity. Qed.

Lemma occurs_skip w a b : occurs_in w b -> occurs_in w (a ++ b).
Proof. intros [p [s ->]]. exists (a ++ p), s. rewrite app_assoc. reflexivity. Qed.

Lemma occurs_more w a b : occurs_in w a -> occurs_in w (a ++ b).
Proof.
  intros [p [s ->]]. exists p, (s ++ b). rewrite <- !app_assoc. reflexivity.
Qed.

Lemma trimStart_keeps w p s :
  w <> [] -> leading_ws w = false ->
  exists p', trimStart (p ++ w ++ s) = p' ++ w ++ s.
Proof.
  intros Hne Hl. induction p as [| c p IH].
  - exists []. cbn [app]. apply trimStart_fixed.
    destruct w; [congruence | exact Hl].
  - cbn [app trimStart]. destruct (is_ws c); [exact IH |].
    exists (c :: p). reflexivity.
Qed.

Lemma occurs_trim w q :
  w <> [] -> leading_ws w = false -> trailing_ws w = false ->
  occurs_in w q -> occurs_in w (trim q).
Proof.
  intros Hne Hl Ht [p [s ->]]. unfold trim, trimEnd.
  destruct (@trimStart_keeps w p s Hne Hl) as [p' ->].
  rewrite !rev_app_distr, <- app_assoc.
  assert (Hrne : rev w <> []).
  { intros E. apply Hne. rewrite <- (rev_involutive w), E. reflexivity. }
  destruct (@trimStart_keeps (rev w) (rev s) (rev p') Hrne Ht) as [s' ->].
  rewrite !rev_app_distr, !rev_involutive, <- app_assoc.
  exists p', (rev s'). reflexivity.
Qed.

Lemma collapse_at_ink c p r b :
  is_ws c = false ->
  collapse_from b (p ++ c :: r) = collapse_from b p ++ c :: collapse_from false r.
Proof.
  intros Hc. revert b. induction p as [| d p IH]; intros b; cbn [app collapse_from].
  - rewrite Hc. reflexivity.
  - destruct (is_ws d); [destruct b |]; cbn [app]; rewrite IH; reflexivity.
Qed.

Lemma only_spaces_cons c r :
  only_spaces (c :: r) = true ->
  (is_ws c = true -> c = space) /\ only_spaces r = true.
Proof.
  unfold only_spaces. cbn [forallb]. intros H. apply andb_true_iff in H.
  destruct H as [Hc Hr]. split; [| exact Hr].
  intros Hw. rewrite Hw in Hc. cbn [negb orb] in Hc. apply N.eqb_eq. exact Hc.
Qed.

(** Collapsing leaves alone a stretch whose whitespace is single spaces. *)
Lemma collapse_keeps w s b :
  only_spaces w = true -> double_ws w = false ->
  (b = true -> leading_ws w = false) ->
  exists b', collapse_from b (w ++ s) = w ++ collapse_from b' s.
Proof.
  revert b. induction w as [| c r IH]; intros b Ho Hd Hb.
  - exists b. reflexivity.
  - apply only_spaces_cons in Ho. destruct Ho as [Hsp Ho].
    rewrite double_ws_cons in Hd. apply orb_false_iff in Hd. destruct Hd as [Hcr Hd].
    cbn [app collapse_from]. destruct (is_ws c) eqn:Hc.
    + destruct b; [specialize (Hb eq_refl); cbn in Hb; congruence |].
      cbn [andb] in Hcr.
      destruct (IH true Ho Hd (fun _ => Hcr)) as [b' ->].
      exists b'. rewrite (Hsp eq_refl). reflexivity.
    + destruct (IH false Ho Hd ltac:(discriminate)) as [b' ->].
      exists b'. reflexivity.
Qed.

Lemma solid_parts w :
  solid w = true ->
  w <> [] /\ leading_ws w = false /\ trailing_ws w = false
  /\ double_ws w = false /\ only_spaces w = true.
Proof.
  unfold solid. intros H.
  repeat (apply andb_true_iff in H; destruct H as [H ?]).
  repeat match goal with
         | H : negb _ = true |- _ => apply negb_true_iff in H
         end.
  repeat split; try assumption. intros ->. discriminate.
Qed.

Lemma occurs_collapse w q :
  solid w = true -> occurs_in w q -> occurs_in w (collapse_ws q).
Proof.
  intros Hs [p [s ->]]. apply solid_parts in Hs.
  destruct Hs as [Hne [Hl [_ [Hd Ho]]]].
  destruct w as [| c r]; [congruence |]. cbn [leading_ws] in Hl.
  apply only_spaces_cons in Ho. destruct Ho as [_ Ho].
  rewrite double_ws_cons in Hd. apply orb_false_iff in Hd. destruct Hd as [_ Hd].
  unfold collapse_ws. cbn [app]. rewrite (@collapse_at_ink c p (r ++ s) false Hl).
  destruct (@collapse_keeps r s false Ho Hd ltac:(discriminate)) as [b' ->].
  exists (collapse_from false p), (collapse_from b' s). reflexivity.
Qed.

Lemma category_solid c : In c categories -> solid c = true.
Proof.
  assert (H : forallb solid categories = true) by (vm_compute; reflexivity).
  rewrite forallb_forall in H. exact (H c).
Qed.

Ltac find_word :=
  repeat first [ apply occurs_self | apply occurs_head | apply occurs_skip ].

Ltac anchor_at Hc :=
  unfold anchored;
  match type of Hc with In ?c _ => exists c end;
  split; [exact Hc |];
  pose proof (@solid_parts _ (category_solid Hc)) as [? [? [? _]]];
  repeat first [ apply occurs_collapse; [exact (category_solid Hc) |]
               | apply occurs_trim; [assumption | assumption | assumption |] ];
  find_word.

Ltac any_draw :=
  apply Returns_bind with (Q := fun _ => True);
  [ first [ apply Returns_any_choice; discriminate
          | apply Returns_orChoice; discriminate
          | apply Returns_maybe, Returns_any_choice; discriminate ]
  | intros ? _ ].

Lemma Returns_patterns_anchored seed category adjective intent brand priceCap year
      location topic unrelatedFragment pattern :
  In category categories ->
  In pattern (patterns seed category adjective intent brand priceCap year
                       location topic unrelatedFragment) ->
  Returns anchored pattern.
Proof.
  intros Hc Hin. unfold patterns in Hin. cbn [In] in Hin.
  repeat (destruct Hin as [<- | Hin]);
    try (constructor; anchor_at Hc; fail);
    try (repeat any_draw; constructor; anchor_at Hc; fail);
    try contradiction.
  apply Returns_bind with (Q := fun a => In a categories);
    [apply Returns_randomChoice; discriminate |].
  intros a Ha. repeat any_draw. constructor. anchor_at Ha.
Qed.

(** What [templateQuery] returns: the tidied form of a draft that keeps a
    category. *)
Lemma Returns_templateQuery_tidied (seedPhrases : list jsstring) :
  Returns (fun q => exists draft, anchored draft /\ q = trim (collapse_ws draft))
          (templateQuery seedPhrases).
Proof.
  unfold templateQuery.
  apply Returns_bind with (Q := fun _ => True).
  { destruct seedPhrases as [| s0 rest]; cbn [length Nat.eqb]; [constructor; exact I |].
    any_draw. constructor; exact I. }
  intros seed _.
  apply Returns_bind with (Q := fun c => In c categories);
    [apply Returns_randomChoice; discriminate |].
  intros category Hcat.
  do 2 any_draw. any_draw.
  apply Returns_bind with (Q := fun _ => True).
  { apply Returns_maybe. any_draw. constructor; exact I. }
  intros priceCap _.
  apply Returns_bind with (Q := fun _ => True).
  { apply Returns_maybe. any_draw. constructor; exact I. }
  intros year _.
  do 3 any_draw.
  eapply Returns_bind; [apply Returns_randomChoice; discriminate |].
  intros pattern Hin.
  apply Returns_bind with (Q := anchored);
    [exact (Returns_patterns_anchored Hcat Hin) |].
  intros q Hq.
  apply Returns_bind with (Q := anchored).
  { apply Returns_bind with (Q := fun _ => True);
      [apply Returns_weaken with (2 := Returns_rand_unit); auto |].
    intros r _. destruct (lessThan r 0.25); [| constructor; exact Hq].
    any_draw. constructor. destruct Hq as [c [Hc Ho]].
    exists c. split; [exact Hc | apply occurs_more; exact Ho]. }
  clear q Hq. intros q Hq.
  apply Returns_bind with (Q := anchored).
  { apply Returns_bind with (Q := fun _ => True);
      [apply Returns_weaken with (2 := Returns_rand_unit); auto |].
    intros r _. destruct (lessThan r 0.2); [| constructor; exact Hq].
    apply Returns_bind with (Q := fun _ => True); [apply Returns_any_randomInt |].
    intros n _. constructor. destruct Hq as [c [Hc Ho]].
    exists c. split; [exact Hc | apply occurs_more; exact Ho]. }
  clear q Hq. intros q Hq.
  constructor. exists q. split; [exact Hq | reflexivity].
Qed.

(** X10.  Every query has a commerce anchor: against every generator whose
    draws lie in [0, 1) and for every list of seed phrases, the query
    returned by [templateQuery] contains one of the categories, verbatim
    and in one piece. *)
Theorem templateQuery_anchor {St} (step : St -> Q * St)
        (Hstep : forall s, unit_draw (fst (step s)))
        (s : St) (seedPhrases : list jsstring) :
  exists q category,
    fst (runGen step (templateQuery seedPhrases) s) = Ok q
    /\ In category categories
    /\ exists before after, q = before ++ category ++ after.
Proof.
  destruct (runGen_Returns step Hstep (Returns_templateQuery_tidied seedPhrases) s)
    as [q [Hq [draft [[c [Hc Ho]] ->]]]].
  exists (trim (collapse_ws draft)), c. split; [exact Hq |]. split; [exact Hc |].
  pose proof (@solid_parts _ (category_solid Hc)) as [Hne [Hl [Ht _]]].
  apply (occurs_trim Hne Hl Ht). apply occurs_collapse; [apply category_solid; exact Hc |].
  exact Ho.
Qed.

Lemma templateQuery_anchor_witness :
  (forall a, unit_draw (fst (mulberry32_next a)))
  /\ exists q category,
      fst (runGen mulberry32_next (templateQuery [js "zz top"]) (mulberry32 1)) = Ok q
      /\ In category categories
      /\ exists before after, q = before ++ category ++ after.
Proof.
  split; [exact mulberry32_next_unit |].
  exact (templateQuery_anchor mulberry32_next mulberry32_next_unit
           (mulberry32 1) [js "zz top"]).
Defined.

Lemma only_spaces_app a b : only_spaces (a ++ b) = only_spaces a && only_spaces b.
Proof. unfold only_spaces. apply forallb_app. Qed.

Lemma only_spaces_collapse_from b s : only_spaces (collapse_from b s) = true.
Proof.
  revert b. induction s as [| c r IH]; intros b; [reflexivity |].
  cbn [collapse_from]. destruct (is_ws c) eqn:Hc.
  - destruct b; [apply IH |]. unfold only_spaces in *. cbn [forallb].
    rewrite IH. reflexivity.
  - unfold only_spaces in *. cbn [forallb]. rewrite Hc, IH. reflexivity.
Qed.

Lemma only_spaces_trim s : only_spaces s = true -> only_spaces (trim s) = true.
Proof.
  intros H. unfold trim.
  destruct (trimStart_suffix s) as [p Hp]. rewrite Hp, only_spaces_app in H.
  apply andb_true_iff in H. destruct H as [_ H].
  destruct (trimEnd_prefix (trimStart s)) as [q Hq]. rewrite Hq, only_spaces_app in H.
  apply andb_true_iff in H. exact (proj1 H).
Qed.

(** The last line of [templateQuery] is idempotent. *)
Lemma tidy_idempotent q :
  let r := trim (collapse_ws q) in
  only_spaces r = true /\ trim (collapse_ws r) = r.
Proof.
  cbv zeta. set (r := trim (collapse_ws q)).
  assert (Ho : only_spaces r = true)
    by (apply only_spaces_trim, only_spaces_collapse_from).
  split; [exact Ho |].
  assert (Hd : double_ws r = false) by (apply double_ws_trim, double_ws_collapse).
  destruct (@collapse_keeps r [] false Ho Hd ltac:(discriminate)) as [b' E].
  rewrite app_nil_r in E. cbn [collapse_from] in E. rewrite app_nil_r in E.
  unfold collapse_ws. rewrite E. apply trim_idempotent.
Qed.

(** X11.  The only whitespace in a query is the single space: against
    every generator whose draws lie in [0, 1), every whitespace code unit
    of the query returned by [templateQuery] is U+0020 (tabs and other
    blanks of a seed phrase are replaced), and tidying the query again,
    [q.replace(/\s+/g, " ").trim()], gives the same query. *)
Theorem templateQuery_spaces {St} (step : St -> Q * St)
        (Hstep : forall s, unit_draw (fst (step s)))
        (s : St) (seedPhrases : list jsstring) :
  exists q,
    fst (runGen step (templateQuery seedPhrases) s) = Ok q
    /\ (forall c, In c q -> is_ws c = true -> c = space)
    /\ trim (collapse_ws q) = q.
Proof.
  destruct (runGen_Returns step Hstep (Returns_templateQuery_tidied seedPhrases) s)
    as [q [Hq [draft [_ ->]]]].
  exists (trim (collapse_ws draft)). split; [exact Hq |].
  destruct (tidy_idempotent draft) as [Ho Hfix]. split; [| exact Hfix].
  intros c Hin Hc. unfold only_spaces in Ho. rewrite forallb_forall in Ho.
  specialize (Ho c Hin). rewrite Hc in Ho. cbn [negb orb] in Ho.
  apply N.eqb_eq. exact Ho.
Qed.

Lemma templateQuery_spaces_witness :
  (forall a, unit_draw (fst (mulberry32_next a)))
  /\ exists q,
      fst (runGen mulberry32_next (templateQuery [[116; 9; 9; 118]%N]) (mulberry32 1))
      = Ok q
      /\ (forall c, In c q -> is_ws c = true -> c = space)
      /\ trim (collapse_ws q) = q.
Proof.
  split; [exact mulberry32_next_unit |].
  exact (templateQuery_spaces mulberry32_next mulberry32_next_unit
           (mulberry32 1) [[116; 9; 9; 118]%N]).
Defined.

(* ================================================================== *)
(** * The best-effort steps of the session *)

Lemma NoThrow_bind {A B} (m : Prog A) (f : A -> Prog B) :
  NoThrow m -> (forall a, NoThrow (f a)) -> NoThrow (bind m f).
Proof.
  intros Hm Hf. induction Hm as [a | X e k _ IH]; cbn [bind].
  - apply Hf.
  - constructor. exact IH.
Qed.

Lemma NoThrow_sound env {A} (p : Prog A) (w : World env) :
  NoThrow p -> exists a, outcome (exec env p w) = Ok a.
Proof.
  intros H. revert w. induction H as [a | X e k _ IH]; intros w; cbn [exec].
  - exists a. reflexivity.
  - destruct (answer env e w) as [x w1]. destruct (IH x w1) as [a Ha].
    destruct (exec env (k x) w1) as [[r tr] w2]. exists a. exact Ha.
Qed.

Lemma NoThrow_randomInt a b : NoThrow (liftGen (randomInt a b)).
Proof.
  unfold randomInt. destruct (Qfloor b <? Qceiling a); cbn [liftGen]; repeat constructor.
Qed.

(** Walks through code made of operations, binds and branches. *)
Ltac no_throw :=
  repeat (cbv zeta;
          match goal with
          | |- NoThrow (Ret _) => apply NoThrow_ret
          | |- NoThrow (Vis _ _) => apply NoThrow_vis; intros ?
          | |- NoThrow (liftGen (randomInt _ _)) => apply NoThrow_randomInt
          | |- NoThrow (bind _ _) => apply NoThrow_bind; [| intros ?]
          | |- NoThrow (if ?b then _ else _) => destruct b
          | |- NoThrow (match ?x with _ => _ end) => destruct x
          | |- _ => assumption
          end).

Lemma NoThrow_jitter a b : NoThrow (jitter a b).
Proof. unfold jitter, sleep, perform. no_throw. Qed.

Lemma NoThrow_isBlocked page : NoThrow (isBlocked page).
Proof. unfold isBlocked, perform, awaitOr. no_throw. Qed.

Lemma NoThrow_maybeHandleConsent page : NoThrow (maybeHandleConsent page).
Proof. unfold maybeHandleConsent, awaitOr. no_throw. Qed.

Lemma NoThrow_openRandomProduct page : NoThrow (openRandomProduct page).
Proof. unfold openRandomProduct, awaitOr, jitter, sleep, perform. no_throw. Qed.

Lemma NoThrow_returnFromProduct page : NoThrow (returnFromProduct page).
Proof. unfold returnFromProduct, perform, awaitOr. no_throw. Qed.

Lemma NoThrow_clickNextPageIfPresent page : NoThrow (clickNextPageIfPresent page).
Proof. unfold clickNextPageIfPresent, perform, awaitOr. no_throw. Qed.

(** X12.  The best-effort steps never throw: in every environment, also
    one in which every browser operation rejects, [isBlocked],
    [maybeHandleConsent], [openRandomProduct], [returnFromProduct],
    [clickNextPageIfPresent] and [jitter] return normally. *)
Theorem best_effort_steps_never_throw (env : Env) (page : PageId) (w : World env)
        (minMs maxMs : Q) :
  (exists b, outcome (exec env (isBlocked page) w) = Ok b)
  /\ outcome (exec env (maybeHandleConsent page) w) = Ok tt
  /\ (exists b, outcome (exec env (openRandomProduct page) w) = Ok b)
  /\ outcome (exec env (returnFromProduct page) w) = Ok tt
  /\ (exists b, outcome (exec env (clickNextPageIfPresent page) w) = Ok b)
  /\ outcome (exec env (jitter minMs maxMs) w) = Ok tt.
Proof.
  assert (Hunit : forall p : Prog unit, NoThrow p -> outcome (exec env p w) = Ok tt).
  { intros p Hp. destruct (NoThrow_sound env w Hp) as [[] H]. exact H. }
  split; [apply NoThrow_sound, NoThrow_isBlocked |].
  split; [apply Hunit, NoThrow_maybeHandleConsent |].
  split; [apply NoThrow_sound, NoThrow_openRandomProduct |].
  split; [apply Hunit, NoThrow_returnFromProduct |].
  split; [apply NoThrow_sound, NoThrow_clickNextPageIfPresent |].
  apply Hunit, NoThrow_jitter.
Qed.

(* ================================================================== *)
(** * Invariants of the whole session *)

Create HintDb walk.

Section Walk.

Variable toLowerCase : jsstring -> jsstring.
Variable encodeURIComponent : jsstring -> Res jsstring.

Variable ok : forall X, Eff X -> X -> Prop.
Variable phi : forall X, Eff X -> Prop.
Variable paced : Q -> Q -> Prop.
Variable page : PageId.

Hypothesis phi_plain : forall X (e : Eff X), plain e = true -> phi e.
Hypothesis phi_jitter :
  forall a b, paced a b -> Sat ok phi (fun _ => True) (jitter a b).

Hypothesis phi_return : Sat ok phi (fun _ => True) (returnFromProduct page).
Hypothesis phi_scroll :
  forall steps, Sat ok phi (fun _ => True) (humanScroll page steps).

Hypothesis phi_next : Sat ok phi (fun _ => True) (clickNextPageIfPresent page).

Hypothesis phi_start : forall q u, phi (ConsoleLog (query_start q u)).
Hypothesis phi_end : forall q, phi (ConsoleLog (query_end q)).

Hypothesis phi_error : forall q d, phi (ConsoleLog (query_error q d)).

(** Walks through code made of plain operations and paced pauses. *)
Ltac walk :=
  repeat (cbv zeta;
          match goal with
          | |- Sat _ _ _ (Ret _) => apply Sat_ret; exact I
          | |- Sat _ _ _ (Throw _) => apply Sat_throw
          | |- Sat _ _ _ (liftGen _) => apply Sat_liftGen; apply phi_plain; reflexivity
          | |- Sat _ _ _ (jitter _ _) => apply phi_jitter; assumption
          | |- Sat _ _ _ (Vis _ _) =>
              apply Sat_vis;
              [ first [ apply phi_plain; reflexivity | apply phi_start | apply phi_end
                      | apply phi_error ]
              | intros ? _ ]
          | |- Sat _ _ _ (bind _ _) =>
              apply Sat_bind with (Q := fun _ => True); [| intros ? _]
          | |- Sat _ _ _ (if ?b then _ else _) => destruct b
          | |- Sat _ _ _ (match ?x with _ => _ end) => destruct x
          | |- _ => solve [auto 2 with walk]
          end).

Lemma isBlocked_walk : Sat ok phi (fun _ => True) (isBlocked page).
Proof. unfold isBlocked, perform, awaitOr. walk. Qed.

Lemma maybeHandleConsent_walk :
  Sat ok phi (fun _ => True) (maybeHandleConsent page).
Proof. unfold maybeHandleConsent, awaitOr. walk. Qed.

Lemma openRandomProduct_walk :
  paced 200 900 -> Sat ok phi (fun _ => True) (openRandomProduct page).
Proof. intros H. unfold openRandomProduct, awaitOr. walk. Qed.

Hint Resolve phi_return phi_scroll phi_next : walk.
Hint Resolve isBlocked_walk maybeHandleConsent_walk openRandomProduct_walk : walk.

Lemma productLoop_walk config n :
  paced 200 900 -> paced 500 2000 ->
  paced (minDwellMs config) (maxDwellMs config) ->
  Sat ok phi (fun _ => True) (productLoop page config n).
Proof. intros H1 H2 H3. induction n as [| n IH]; cbn [productLoop]; walk. Qed.

Hint Resolve productLoop_walk : walk.

Lemma pageLoop_walk config n :
  paced 200 900 -> paced 500 2000 -> paced 1000 4000 ->
  paced (minDwellMs config) (maxDwellMs config) ->
  Sat ok phi (fun _ => True) (pageLoop page config n).
Proof.
  intros H1 H2 H3 H4. induction n as [| n IH]; cbn [pageLoop]; [walk |].
  unfold scrolls, productOpens. walk.
Qed.

Hint Resolve pageLoop_walk : walk.

Lemma browseShoppingForQuery_walk config query :
  paced 200 900 -> paced 500 2000 -> paced 1000 4000 ->
  paced (minDwellMs config) (maxDwellMs config) ->
  Sat ok phi (fun _ => True)
      (browseShoppingForQuery toLowerCase encodeURIComponent page config query).
Proof.
  intros H1 H2 H3 H4.
  unfold browseShoppingForQuery, encode, pagesToBrowse, perform, await. walk.
Qed.

Hint Resolve browseShoppingForQuery_walk : walk.

Lemma queryLoop_walk config nextQuery n i :
  paced 200 900 -> paced 500 2000 -> paced 1000 4000 ->
  paced (minDwellMs config) (maxDwellMs config) ->
  paced (minBetweenQueriesMs config) (maxBetweenQueriesMs config) ->
  Sat ok phi (fun _ => True)
      (queryLoop toLowerCase encodeURIComponent page config nextQuery n i).
Proof.
  intros H1 H2 H3 H4 H5. revert i. induction n as [| n IH]; intros i; cbn [queryLoop];
    [walk |].
  apply Sat_bind with (Q := fun _ => True);
    [apply Sat_liftGen; apply phi_plain; reflexivity | intros query _].
  apply Sat_bind with (Q := fun _ => True);
    [apply Sat_attempt; auto 2 with walk | intros [[] | err] _].
  - walk.
  - unfold perform. walk.
Qed.

End Walk.

(** Walks through code all of whose operations satisfy the invariant
    outright. *)
Ltac walk_trivially :=
  repeat (cbv zeta;
          match goal with
          | |- Sat _ _ _ (Ret _) => apply Sat_ret; exact I
          | |- Sat _ _ _ (Throw _) => apply Sat_throw
          | |- Sat _ _ _ (liftGen _) => apply Sat_liftGen; first [exact I | reflexivity]
          | |- Sat _ _ _ (Vis _ _) =>
              apply Sat_vis; [first [exact I | reflexivity] | intros ? _]
          | |- Sat _ _ _ (bind _ _) =>
              apply Sat_bind with (Q := fun _ => True); [| intros ? _]
          | |- Sat _ _ _ (if ?b then _ else _) => destruct b
          | |- Sat _ _ _ (match ?x with _ => _ end) => destruct x
          | |- _ => assumption
          end).

Lemma plain_spares page X (e : Eff X) : plain e = true -> spares page e.
Proof. destruct e; intros H; try exact I; discriminate. Qed.

Lemma returnFromProduct_spares ok page :
  Sat ok (spares page) (fun _ => True) (returnFromProduct page).
Proof.
  unfold returnFromProduct, perform, awaitOr. cbn [bind].
  apply Sat_vis; [exact I | intros pages _]. cbv zeta.
  destruct (1 <? length pages)%nat; [| walk_trivially].
  destruct (Nat.eqb_spec (last pages page) page) as [E | Hne]; cbn [negb];
    [walk_trivially |].
  apply Sat_vis; [exact Hne | intros; walk_trivially].
Qed.

Lemma humanScroll_trivially ok (phi : forall X, Eff X -> Prop) page steps :
  phi _ Rand -> (forall dy, phi _ (MouseWheel page 0 dy)) -> (forall ms, phi _ (Sleep ms)) ->
  Sat ok phi (fun _ => True) (humanScroll page steps).
Proof.
  intros Hr Hw Hs. unfold humanScroll.
  induction (Z.to_nat steps) as [| n IH]; cbn [humanScrollLoop].
  - constructor. exact I.
  - apply Sat_bind with (Q := fun _ => True); [apply Sat_liftGen; exact Hr |].
    intros dy _. apply Sat_bind with (Q := fun _ => True).
    { unfold await. apply Sat_vis; [apply Hw |]. intros [[] | err] _; constructor. exact I. }
    intros _ _. apply Sat_bind with (Q := fun _ => True); [| intros _ _; exact IH].
    unfold jitter, sleep, perform.
    apply Sat_bind with (Q := fun _ => True); [apply Sat_liftGen; exact Hr |].
    intros ms _. apply Sat_vis; [apply Hs | intros; constructor; exact I].
Qed.

Lemma jitter_trivially ok (phi : forall X, Eff X -> Prop) a b :
  phi _ Rand -> (forall ms, phi _ (Sleep ms)) ->
  Sat ok phi (fun _ => True) (jitter a b).
Proof.
  intros Hr Hs. unfold jitter, sleep, perform.
  apply Sat_bind with (Q := fun _ => True); [apply Sat_liftGen; exact Hr |].
  intros ms _. apply Sat_vis; [apply Hs | intros; constructor; exact I].
Qed.

(** X13.  The browse phase of a query never closes the session's own page:
    in every environment, a page closed while a query is processed is a
    page other than the one the query runs on (a popup that [returnFromProduct]
    found to be the newest page). *)
Theorem browse_spares_its_page
        (toLowerCase : jsstring -> jsstring)
        (encodeURIComponent : jsstring -> Res jsstring)
        (env : Env) (page : PageId) (config : RunConfig) (query : jsstring)
        (w : World env) :
  each_action (spares page)
    (trace (exec env (browseShoppingForQuery toLowerCase encodeURIComponent
                                             page config query) w)).
Proof.
  refine (proj1 (Sat_sound (respects_any env) _ w)).
  apply browseShoppingForQuery_walk with (paced := fun _ _ => True); try exact I.
  - apply plain_spares.
  - intros a b _. apply jitter_trivially; intros; exact I.
  - apply returnFromProduct_spares.
  - intros steps. apply humanScroll_trivially; intros; exact I.
  - unfold clickNextPageIfPresent, perform, awaitOr. walk_trivially.
  - intros; exact I.
  - intros; exact I.
Qed.

Lemma jitter_at_least floor a b :
  floor <= Qceiling a ->
  Sat ok_rng (pause_at_least floor) (fun _ => True) (jitter a b).
Proof.
  intros Hf. unfold jitter, sleep, perform.
  apply Sat_bind with (Q := fun ms => Qceiling a <= ms).
  - apply Sat_liftGen_Returns; [exact I |].
    apply Returns_weaken with (2 := Returns_randomInt a b).
    intros ms [Hin Hdeg].
    destruct (Z.le_gt_cases (Qceiling a) (Qfloor b)) as [H | H];
      [apply Hin in H | apply Hdeg in H]; lia.
  - intros ms Hms. apply Sat_vis; [cbn; lia | intros; constructor; exact I].
Qed.

Lemma humanScroll_at_least floor page steps :
  floor <= 250 ->
  Sat ok_rng (pause_at_least floor) (fun _ => True) (humanScroll page steps).
Proof.
  intros Hf. unfold humanScroll.
  induction (Z.to_nat steps) as [| n IH]; cbn [humanScrollLoop].
  - constructor. exact I.
  - apply Sat_bind with (Q := fun _ => True); [apply Sat_liftGen; exact I |].
    intros dy _. apply Sat_bind with (Q := fun _ => True).
    { unfold await. apply Sat_vis; [exact I |]. intros [[] | err] _; constructor. exact I. }
    intros _ _. apply Sat_bind with (Q := fun _ => True); [| intros _ _; exact IH].
    apply jitter_at_least. exact Hf.
Qed.

Lemma plain_pause floor X (e : Eff X) : plain e = true -> pause_at_least floor e.
Proof. destruct e; intros H; try exact I; discriminate. Qed.

(** X14.  Requested pauses have a floor.  With draws that are multiples of
    2^-32 in [0, 1) and dwell and between-query ranges in which double
    arithmetic is exact (or which are inverted), every delay a run hands to
    [sleep] is at least the smallest of 200 ms, [ceil(minDwellMs)] and
    [ceil(minBetweenQueriesMs)]. *)
Theorem pauses_have_a_floor
        (toLowerCase : jsstring -> jsstring)
        (encodeURIComponent : jsstring -> Res jsstring)
        (env : Env) (Hgrid : rng_grid env) (config : RunConfig)
        (Hdwell : exact_range (minDwellMs config) (maxDwellMs config))
        (Hbetween : exact_range (minBetweenQueriesMs config) (maxBetweenQueriesMs config))
        (nextQuery : nat -> Gen jsstring) (w : World env) :
  each_action
    (pause_at_least (Z.min 200 (Z.min (Qceiling (minDwellMs config))
                                      (Qceiling (minBetweenQueriesMs config)))))
    (trace (exec env (runShoppingSession toLowerCase encodeURIComponent
                                         config nextQuery) w)).
Proof.
  set (floor := Z.min 200 _).
  pose proof (rng_grid_ok Hgrid) as Hrng.
  refine (proj1 (Sat_sound (Q := fun _ => True) (respects_rng Hrng) _ w)).
  unfold runShoppingSession, await, perform, awaitOr.
  apply Sat_bind with (Q := fun _ => True); [walk_trivially | intros _ _].
  apply Sat_bind with (Q := fun _ => True); [walk_trivially | intros page _].
  apply Sat_bind with (Q := fun _ => True); [walk_trivially | intros _ _].
  apply Sat_bind with (Q := fun _ => True); [walk_trivially | intros _ _].
  apply Sat_bind with (Q := fun _ => True); [| intros _ _; walk_trivially].
  apply queryLoop_walk with (paced := fun a _ => floor <= Qceiling a).
  - apply plain_pause.
  - intros a b. apply jitter_at_least.
  - unfold returnFromProduct, perform, awaitOr. walk_trivially.
  - intros steps. apply humanScroll_at_least. unfold floor. lia.
  - unfold clickNextPageIfPresent, perform, awaitOr. walk_trivially.
  - intros; exact I.
  - intros; exact I.
  - intros; exact I.
  - change (Qceiling 200) with 200. unfold floor. lia.
  - change (Qceiling 500) with 500. unfold floor. lia.
  - change (Qceiling 1000) with 1000. unfold floor. lia.
  - unfold floor. lia.
  - unfold floor. lia.
Qed.

Lemma pauses_have_a_floor_witness :
  rng_grid Stub.env
  /\ exact_range (minDwellMs Stub.threeQueries) (maxDwellMs Stub.threeQueries)
  /\ each_action (pause_at_least 200)
       (trace (exec Stub.env
                    (runShoppingSession Stub.toLowerCase Stub.encodeURIComponent
                                        Stub.threeQueries Stub.abc)
                    (Stub.start 1 2 3))).
Proof.
  assert (Hd : exact_range (minDwellMs Stub.threeQueries) (maxDwellMs Stub.threeQueries))
    by (right; vm_compute; repeat split; discriminate).
  assert (Hb : exact_range (minBetweenQueriesMs Stub.threeQueries)
                           (maxBetweenQueriesMs Stub.threeQueries))
    by (right; vm_compute; repeat split; discriminate).
  split; [exact Stub_rng_grid |]. split; [exact Hd |].
  exact (@pauses_have_a_floor Stub.toLowerCase Stub.encodeURIComponent Stub.env
           Stub_rng_grid Stub.threeQueries Hd Hb Stub.abc (Stub.start 1 2 3)).
Defined.

Lemma plain_off_next_link X (e : Eff X) : plain e = true -> off_next_link e.
Proof. destruct e as [| | | | | | | | | | ? loc | ? loc ? | | | | | | | | | |];
         intros H; try reflexivity; try discriminate;
         destruct loc; try reflexivity; discriminate.
Qed.

(** X15.  With a page budget of one, no next page is looked for: with
    draws in [0, 1) and [maxPagesPerQuery] below 2, the browse phase of a
    query performs no operation on the "next results page" link. *)
Theorem single_page_budget_never_paginates
        (toLowerCase : jsstring -> jsstring)
        (encodeURIComponent : jsstring -> Res jsstring)
        (env : Env) (Hrng : rng_ok env) (page : PageId) (config : RunConfig)
        (Hbudget : Qfloor (Qmax 1 (maxPagesPerQuery config)) = 1)
        (query : jsstring) (w : World env) :
  each_action off_next_link
    (trace (exec env (browseShoppingForQuery toLowerCase encodeURIComponent
                                             page config query) w)).
Proof.
  refine (proj1 (Sat_sound (Q := fun _ => True) (respects_rng Hrng) _ w)).
  assert (Hjit : forall a b, Sat ok_rng off_next_link (fun _ => True) (jitter a b))
    by (intros; apply jitter_trivially; intros; reflexivity).
  assert (Hret : Sat ok_rng off_next_link (fun _ => True) (returnFromProduct page))
    by (unfold returnFromProduct, perform, awaitOr; walk_trivially).
  assert (Hscr : forall steps,
             Sat ok_rng off_next_link (fun _ => True) (humanScroll page steps))
    by (intros; apply humanScroll_trivially; intros; reflexivity).
  unfold browseShoppingForQuery, encode, perform, await.
  destruct (encodeURIComponent _); [| constructor].
  destruct (encodeURIComponent _); [| constructor].
  cbn [bind]. apply Sat_vis; [reflexivity | intros ? _]. cbn [bind].
  apply Sat_vis; [reflexivity | intros [[] | err] _]; [| constructor].
  cbn [bind].
  apply Sat_bind with (Q := fun _ => True);
    [apply maybeHandleConsent_walk; exact plain_off_next_link | intros _ _].
  apply Sat_bind with (Q := fun _ => True);
    [apply isBlocked_walk; exact plain_off_next_link | intros blocked _].
  destruct blocked; [constructor |].
  apply Sat_bind with (Q := fun pages => pages = 1).
  { apply Sat_liftGen_Returns; [reflexivity |]. unfold pagesToBrowse.
    apply Returns_weaken with (2 := Returns_randomInt 1 (Qmax 1 (maxPagesPerQuery config))).
    intros pages [Hin _]. rewrite Hbudget in Hin. change (Qceiling 1) with 1 in Hin. lia. }
  intros pages ->. change (Z.to_nat 1) with 1%nat. cbn [pageLoop].
  apply Sat_bind with (Q := fun _ => True).
  { apply Sat_bind with (Q := fun _ => True); [apply Sat_liftGen; reflexivity |].
    intros s _. apply Sat_bind with (Q := fun _ => True); [apply Hscr | intros _ _].
    apply Sat_bind with (Q := fun _ => True); [apply Sat_liftGen; reflexivity |].
    intros opens _. apply Sat_bind with (Q := fun _ => True); [| intros; constructor; exact I].
    apply productLoop_walk with (paced := fun _ _ => True); try exact I.
    - exact plain_off_next_link.
    - intros ? ? _. apply Hjit.
    - exact Hret. }
  intros _ _. apply Sat_bind with (Q := fun _ => True); [apply Hjit | intros _ _].
  apply Sat_vis; [reflexivity | intros; constructor; exact I].
Qed.

Lemma single_page_budget_never_paginates_witness :
  rng_ok Stub.env
  /\ Qfloor (Qmax 1 (maxPagesPerQuery Stub.threeQueries)) = 1
  /\ each_action off_next_link
       (trace (exec Stub.env
                    (browseShoppingForQuery Stub.toLowerCase Stub.encodeURIComponent
                                            1%nat Stub.threeQueries (js "tent"))
                    (Stub.start 1 5 3))).
Proof.
  split; [exact Stub_rng_ok |]. split; [reflexivity |].
  exact (single_page_budget_never_paginates Stub.toLowerCase Stub.encodeURIComponent
           Stub_rng_ok 1%nat Stub.threeQueries eq_refl (js "tent") (Stub.start 1 5 3)).
Defined.

(* ================================================================== *)
(** * Single steps of the session *)

Lemma returns_with env {A} (Q : A -> Prop) (p : Prog A) (w : World env) :
  NoThrow p -> Sat ok_any (fun _ _ => True) Q p ->
  exists a, outcome (exec env p w) = Ok a /\ Q a.
Proof.
  intros Hn Hs. destruct (NoThrow_sound env w Hn) as [a Ha].
  exists a. split; [exact Ha |].
  exact (proj2 (Sat_sound (respects_any env) Hs w) a Ha).
Qed.

(** X16.  [openRandomProduct] reports an open whenever the page shows at
    least one product link: in every environment its result is [true]
    exactly when the count of links is positive, whether or not the click,
    the popup or the navigation then succeeded. *)
Theorem openRandomProduct_reports (env : Env) (page : PageId) (w : World env) :
  outcome (exec env (openRandomProduct page) w)
  = Ok (0 <? orElse (fst (answer env (Count page ProductLinks) w)) 0).
Proof.
  unfold openRandomProduct. unfold awaitOr at 1. cbn [bind exec].
  destruct (answer env (Count page ProductLinks) w) as [ans w1]. cbn [fst].
  set (count := orElse ans 0).
  destruct (Z.leb_spec count 0) as [Hle | Hpos].
  - cbn [exec]. unfold outcome. cbn [fst]. f_equal. symmetry. apply Z.ltb_ge. exact Hle.
  - match goal with
    | |- context [exec env ?p w1] =>
        assert (H : exists b, outcome (exec env p w1) = Ok b /\ b = true)
    end.
    { apply returns_with.
      - unfold awaitOr, jitter, sleep, perform. no_throw.
      - unfold awaitOr, jitter, sleep, perform. walk_trivially; try (apply Sat_ret; reflexivity). }
    destruct H as [b [Hb ->]].
    destruct (exec env _ w1) as [[r tr] w2]. unfold outcome in *. cbn [fst] in *.
    rewrite Hb. f_equal. symmetry. apply Z.ltb_lt. exact Hpos.
Qed.

Lemma startsWith_iff s p : startsWith s p = true <-> exists r, s = p ++ r.
Proof.
  revert s. induction p as [| a p IH]; intros s.
  - split; [intros _; exists s; reflexivity | intros _; destruct s; reflexivity].
  - destruct s as [| b s]; cbn [startsWith].
    + split; [discriminate | intros [r E]; discriminate].
    + rewrite andb_true_iff, N.eqb_eq, IH. split.
      * intros [-> [r ->]]. exists r. reflexivity.
      * intros [r E]. injection E as -> ->. split; [reflexivity | exists r; reflexivity].
Qed.

Lemma includes_iff s p : includes s p = true <-> occurs_in p s.
Proof.
  unfold occurs_in. induction s as [| c s IH]; cbn [includes].
  - rewrite orb_false_r, startsWith_iff. split.
    + intros [r E]. exists [], r. exact E.
    + intros [a [b E]]. destruct a; [exists b; exact E | discriminate].
  - rewrite orb_true_iff, startsWith_iff, IH. split.
    + intros [[r E] | [a [b E]]].
      * exists [], r. exact E.
      * exists (c :: a), b. rewrite E. reflexivity.
    + intros [a [b E]]. destruct a as [| c' a].
      * left. exists b. exact E.
      * right. injection E as _ E. exists a, b. exact E.
Qed.

Lemma blockPatternTest_iff text :
  blockPatternTest text = true
  <-> exists phrase,
        In phrase blockPhrases
        /\ occurs_in (map canonicalize (js phrase)) (map canonicalize text).
Proof.
  unfold blockPatternTest, includesIgnoreCase, blockPhrases.
  rewrite !orb_true_iff, !includes_iff. split.
  - intros [[[[H | H] | H] | H] | H];
      match type of H with
      | occurs_in (map canonicalize (js ?p)) _ => exists p
      end; (split; [cbn [In]; tauto | exact H]).
  - intros [phrase [Hin Ho]]. cbn [In] in Hin.
    destruct Hin as [<- | [<- | [<- | [<- | [<- | []]]]]]; tauto.
Qed.

(** X17.  The verdict of [isBlocked].  A URL with "/sorry/" gives [true]
    without reading the page.  Otherwise the verdict is [true] exactly when
    the body text, compared without regard to the case of ASCII letters,
    contains one of the block phrases; a body text that cannot be read
    counts as empty, so the verdict is then [false]. *)
Theorem isBlocked_verdict (env : Env) (page : PageId) (w : World env) :
  let url := fst (answer env (PageUrl page) w) in
  let w1 := snd (answer env (PageUrl page) w) in
  let body := fst (answer env (InnerText page Body 3000) w1) in
  (occurs_in (js "/sorry/") url ->
   exec env (isBlocked page) w = (Ok true, [Act (PageUrl page) url], w1))
  /\ (~ occurs_in (js "/sorry/") url ->
      (forall err, body = Err err -> outcome (exec env (isBlocked page) w) = Ok false)
      /\ (forall text, body = Ok text ->
          (outcome (exec env (isBlocked page) w) = Ok true
           <-> exists phrase,
                 In phrase blockPhrases
                 /\ occurs_in (map canonicalize (js phrase)) (map canonicalize text)))).
Proof.
  cbv zeta. unfold isBlocked, perform, awaitOr. cbn [bind exec].
  destruct (answer env (PageUrl page) w) as [url w1]. cbn [fst snd].
  split.
  - intros Hs. apply includes_iff in Hs. rewrite Hs. reflexivity.
  - intros Hs. destruct (includes url (js "/sorry/")) eqn:E;
      [exfalso; apply Hs, includes_iff; exact E |].
    cbn [exec]. destruct (answer env (InnerText page Body 3000) w1) as [body w2].
    cbn [fst]. unfold outcome. cbn [fst]. split.
    + intros err ->. reflexivity.
    + intros text ->. cbn [orElse]. rewrite <- blockPatternTest_iff.
      split; [intros H; injection H as H; exact H | intros ->; reflexivity].
Qed.

Lemma isBlocked_verdict_witness :
  let w := Stub.start 1 0 0 in
  exec Stub.env (isBlocked 1%nat) w
  = (Ok true, [Act (PageUrl 1%nat) (js "https://www.google.com/sorry/index")], w)
  /\ outcome (exec Stub.env (isBlocked 1%nat) (Stub.start 1 5 0)) <> Ok true.
Proof.
  intros w.
  split.
  - refine (proj1 (isBlocked_verdict Stub.env 1%nat w) _).
    exists (js "https://www.google.com"), (js "index"). reflexivity.
  - vm_compute. discriminate.
Defined.

Lemma beforeDash_app lang rest :
  has_no dash lang -> beforeDash (lang ++ dash :: rest) = lang.
Proof.
  induction 1 as [| c r Hc _ IH]; cbn [app beforeDash].
  - reflexivity.
  - destruct (N.eqb_spec c 45) as [E | _]; [contradiction |]. rewrite IH. reflexivity.
Qed.

Lemma beforeDash_whole lang : has_no dash lang -> beforeDash lang = lang.
Proof.
  induction 1 as [| c r Hc _ IH]; cbn [beforeDash]; [reflexivity |].
  destruct (N.eqb_spec c 45) as [E | _]; [contradiction |]. rewrite IH. reflexivity.
Qed.

(** X18.  The language hint is the first subtag of the locale, passed
    through [toLowerCase], whatever follows the first dash; a locale that
    is empty or starts with a dash gives the hint of "en". *)
Theorem getHlFromLocale_first_subtag (toLowerCase : jsstring -> jsstring)
        (lang rest : jsstring) (Hlang : has_no dash lang) :
  let hint := toLowerCase (if nonEmpty lang then lang else js "en") in
  getHlFromLocale toLowerCase (lang ++ dash :: rest) = hint
  /\ getHlFromLocale toLowerCase lang = hint.
Proof.
  cbv zeta. unfold getHlFromLocale.
  rewrite (beforeDash_app rest Hlang), (beforeDash_whole Hlang). split; reflexivity.
Qed.

Lemma getHlFromLocale_first_subtag_witness :
  getHlFromLocale Stub.toLowerCase (js "pt-BR-u-co-trad") = js "pt"
  /\ getHlFromLocale Stub.toLowerCase (js "-US") = js "en"
  /\ getHlFromLocale Stub.toLowerCase (js "EN") = js "en".
Proof.
  assert (Hpt : has_no dash (js "pt")) by (repeat constructor; discriminate).
  assert (Hen : has_no dash (js "EN")) by (repeat constructor; discriminate).
  split; [exact (proj1 (getHlFromLocale_first_subtag Stub.toLowerCase
                          (js "BR-u-co-trad") Hpt)) |].
  split; [exact (proj1 (getHlFromLocale_first_subtag Stub.toLowerCase (lang := [])
                          (js "US") ltac:(constructor))) |].
  exact (proj2 (getHlFromLocale_first_subtag Stub.toLowerCase [] Hen)).
Defined.

(* ================================================================== *)
(** * The log of a session *)

Lemma silent_log tr : each_action silent tr -> logOf tr = [].
Proof.
  unfold each_action, logOf. induction 1 as [| [X e x] rest He _ IH]; [reflexivity |].
  cbn [flat_map]. rewrite IH. destruct e; try reflexivity. destruct He.
Qed.

Lemma silent_run env {A} (p : Prog A) (w : World env) :
  Sat ok_any silent (fun _ => True) p -> logOf (trace (exec env p w)) = [].
Proof.
  intros H. apply silent_log. exact (proj1 (Sat_sound (respects_any env) H w)).
Qed.

Lemma quiet_silent X (e : Eff X) : quiet e = true -> silent e.
Proof. destruct e; intros H; try exact I; discriminate. Qed.

Lemma humanScroll_silent page steps :
  Sat ok_any silent (fun _ => True) (humanScroll page steps).
Proof. apply humanScroll_trivially; intros; exact I. Qed.

Lemma outcome_bind env {A B} (m : Prog A) (f : A -> Prog B) (w : World env) :
  outcome (exec env (bind m f) w)
  = match outcome (exec env m w) with
    | Ok a => outcome (exec env (f a) (final (exec env m w)))
    | Err e => Err e
    end.
Proof.
  rewrite exec_bind. destruct (exec env m w) as [[[a | err] tr] w1];
    unfold trace, outcome, final; cbn [fst snd]; [| reflexivity].
  destruct (exec env (f a) w1) as [[r tr2] w2]. reflexivity.
Qed.

Lemma logs_bind env {A B} good (m : Prog A) (f : A -> Prog B) (w : World env) :
  Sat ok_any silent (fun _ => True) m ->
  (forall a w1, logs good (exec env (f a) w1)) ->
  logs good (exec env (bind m f) w).
Proof.
  intros Hm Hf. unfold logs.
  rewrite trace_bind, logOf_app, outcome_bind, (silent_run env w Hm). cbn [app].
  destruct (outcome (exec env m w)) as [a | err]; [apply Hf | reflexivity].
Qed.

Section SessionLog.

Variable toLowerCase : jsstring -> jsstring.
Variable encodeURIComponent : jsstring -> Res jsstring.
Variable env : Env.
Variable config : RunConfig.

(** What follows the [query_start] line in the processing of a query. *)
Lemma browse_tail_logs page query url (w : World env) :
  logs [query_end query]
       (exec env
             (await (Goto page url 30000) ;;;
              maybeHandleConsent page ;;;
              blocked <- isBlocked page ;;
              if blocked then Throw blockedError
              else
                pages <- liftGen (pagesToBrowse config) ;;
                pageLoop page config (Z.to_nat pages) ;;;
                jitter (minDwellMs config) (maxDwellMs config) ;;;
                perform (ConsoleLog (query_end query)))%prog w).
Proof.
  apply logs_bind.
  { unfold await. apply Sat_vis; [exact I |]. intros [[] | err] _; constructor. exact I. }
  intros _ w1. apply logs_bind.
  { apply maybeHandleConsent_sat. exact quiet_silent. }
  intros _ w2. apply logs_bind.
  { apply isBlocked_sat. exact quiet_silent. }
  intros [|] w3; [reflexivity |]. apply logs_bind.
  { apply Sat_liftGen. exact I. }
  intros pages w4. apply logs_bind.
  { apply pageLoop_sat; [exact quiet_silent | exact humanScroll_silent]. }
  intros _ w5. apply logs_bind.
  { apply jitter_sat. exact quiet_silent. }
  intros _ w6. unfold logs, perform. cbn [exec].
  destruct (answer env (ConsoleLog (query_end query)) w6) as [[] w7]. reflexivity.
Qed.

(** The log of one query: both lines when it completes; when it fails,
    the [query_start] line, or nothing if the URL could not be built. *)
Lemma browse_log_shape page query (w : World env) :
  let x := exec env (browseShoppingForQuery toLowerCase encodeURIComponent
                                            page config query) w in
  match outcome x with
  | Ok _ =>
      exists url, searchUrl toLowerCase encodeURIComponent config query url
                  /\ logOf (trace x) = [query_start query url; query_end query]
  | Err _ =>
      logOf (trace x) = []
      \/ exists url, searchUrl toLowerCase encodeURIComponent config query url
                     /\ logOf (trace x) = [query_start query url]
  end.
Proof.
  cbv zeta. unfold browseShoppingForQuery, encode.
  destruct (encodeURIComponent (getHlFromLocale toLowerCase (locale config)))
    as [encHl | e1] eqn:E1; [| left; reflexivity].
  destruct (encodeURIComponent query) as [encQuery | e2] eqn:E2; [| left; reflexivity].
  cbn [bind]. cbv zeta.
  set (url := js "https://www.google.com/search?tbm=shop&hl=" ++ encHl
              ++ js "&q=" ++ encQuery).
  assert (HU : searchUrl toLowerCase encodeURIComponent config query url).
  { exists encHl, encQuery. rewrite E1, E2. repeat split. }
  rewrite outcome_bind, trace_bind, logOf_app.
  assert (Hp : exec env (perform (ConsoleLog (query_start query url))) w
               = (Ok tt, [Act (ConsoleLog (query_start query url)) tt],
                  snd (answer env (ConsoleLog (query_start query url)) w))).
  { unfold perform. cbn [exec].
    destruct (answer env (ConsoleLog (query_start query url)) w) as [[] w1]. reflexivity. }
  rewrite Hp. clear Hp.
  set (w1 := snd (answer env (ConsoleLog (query_start query url)) w)).
  pose proof (browse_tail_logs page query url w1) as Ht.
  unfold logs in Ht. unfold outcome, trace, final in *. cbn [fst snd] in *.
  destruct (exec env _ w1) as [[[[] | err] tr] w2]; cbn [fst snd] in *.
  - exists url. split; [exact HU |]. rewrite Ht. reflexivity.
  - right. exists url. split; [exact HU |]. rewrite Ht. reflexivity.
Qed.

Variable nextQuery : nat -> Gen jsstring.

Lemma queryLoop_log page n i (w : World env) :
  session_log (searchUrl toLowerCase encodeURIComponent config) n
    (logOf (trace (exec env (queryLoop toLowerCase encodeURIComponent
                                       page config nextQuery n i) w))).
Proof.
  revert i w. induction n as [| n IH]; intros i w; [apply log_over |].
  cbn [queryLoop]. rewrite trace_bind, logOf_app.
  rewrite (silent_run env w (Sat_liftGen ok_any silent (nextQuery i) I)). cbn [app].
  destruct (outcome (exec env (liftGen (nextQuery i)) w)) as [query | err];
    [| apply log_over].
  set (w1 := final (exec env (liftGen (nextQuery i)) w)).
  rewrite trace_bind, logOf_app.
  destruct (trace_attempt env (browseShoppingForQuery toLowerCase encodeURIComponent
                                 page config query) w1) as [Et [Eo Ef]].
  rewrite Et, Eo, Ef.
  pose proof (browse_log_shape page query w1) as Hb. cbv zeta in Hb.
  set (w2 := final (exec env (browseShoppingForQuery toLowerCase encodeURIComponent
                                 page config query) w1)).
  destruct (outcome (exec env (browseShoppingForQuery toLowerCase encodeURIComponent
                                 page config query) w1)) as [[] | err].
  - destruct Hb as [url [HU ->]]. cbn [app].
    apply log_query; [exact HU |].
    rewrite trace_bind, logOf_app.
    rewrite (silent_run env w2 (jitter_sat (fun X e x => True) silent quiet_silent _ _)).
    cbn [app].
    destruct (outcome (exec env (jitter _ _) w2)) as [[] | err];
      [apply IH | apply log_over].
  - unfold perform. cbn [exec].
    destruct (answer env (ConsoleLog (query_error query (String_ err))) w2) as [[] w3].
    destruct Hb as [-> | [url [HU ->]]]; cbn.
    + apply log_refused.
    + apply log_failed. exact HU.
Qed.

End SessionLog.



(* ================================================================== *)
(** * How a session ends *)

Lemma Safe_bind {A B} ok (m : Prog A) (f : A -> Prog B) :
  Safe ok m -> (forall a, Safe ok (f a)) -> Safe ok (bind m f).
Proof.
  intros Hm Hf. induction Hm as [a | X e k _ IH]; cbn [bind].
  - apply Hf.
  - constructor. exact IH.
Qed.

Lemma Safe_sound env {A} ok (p : Prog A) (w : World env) :
  respects env ok -> Safe ok p -> exists a, outcome (exec env p w) = Ok a.
Proof.
  intros Henv H. revert w. induction H as [a | X e k _ IH]; intros w; cbn [exec].
  - exists a. reflexivity.
  - pose proof (Henv X e w) as Hx. destruct (answer env e w) as [x w1].
    destruct (IH x Hx w1) as [a Ha].
    destruct (exec env (k x) w1) as [[r tr] w2]. exists a. exact Ha.
Qed.

Lemma NoThrow_Safe {A} ok (p : Prog A) : NoThrow p -> Safe ok p.
Proof. induction 1 as [a | X e k _ IH]; constructor. intros x _. apply IH. Qed.

Lemma Safe_attempt {A} ok (p : Prog A) : Safe ok (attempt p).
Proof.
  induction p as [a | e | X e k IH]; cbn [attempt]; constructor. intros x _. apply IH.
Qed.

Lemma Safe_liftGen {A} (P : A -> Prop) (m : Gen A) :
  Returns P m -> Safe ok_rng (liftGen m).
Proof.
  induction 1 as [a Ha | k _ IH]; cbn [liftGen]; constructor.
  intros r Hr. exact (IH r Hr).
Qed.

Lemma Safe_queryLoop toLowerCase encodeURIComponent page config
      (nextQuery : nat -> Gen jsstring) n i :
  (forall j, Returns (fun _ => True) (nextQuery j)) ->
  Safe ok_rng (queryLoop toLowerCase encodeURIComponent page config nextQuery n i).
Proof.
  intros Hq. revert i. induction n as [| n IH]; intros i; cbn [queryLoop];
    [constructor |].
  apply Safe_bind; [exact (Safe_liftGen (Hq i)) | intros query].
  apply Safe_bind; [apply Safe_attempt | intros [[] | err]].
  - apply Safe_bind; [apply NoThrow_Safe, NoThrow_jitter | intros _; apply IH].
  - unfold perform. constructor. intros x _. constructor.
Qed.

(** A step that returns and spares the page, before a program that ends by
    closing it. *)
Lemma closes_after env ok page {A} (m : Prog A) (f : A -> Prog unit) (w : World env) :
  respects env ok ->
  Safe ok m -> Sat ok (spares page) (fun _ => True) m ->
  (forall a w1, exists tr r,
      exec env (f a) w1 = (Ok tt, tr ++ [Act (ClosePage page) r],
                           final (exec env (f a) w1))
      /\ each_action (spares page) tr) ->
  exists tr r,
    exec env (bind m f) w = (Ok tt, tr ++ [Act (ClosePage page) r],
                             final (exec env (bind m f) w))
    /\ each_action (spares page) tr.
Proof.
  intros Henv Hsafe Hsat Hf.
  destruct (Safe_sound w Henv Hsafe) as [a Ha].
  pose proof (proj1 (Sat_sound Henv Hsat w)) as Hm.
  rewrite exec_bind. destruct (exec env m w) as [[r1 tr1] w1].
  unfold outcome, trace in *. cbn [fst snd] in *. subst r1.
  destruct (Hf a w1) as [tr [r [E Htr]]]. rewrite E.
  exists (tr1 ++ tr), r. unfold final. cbn [snd]. rewrite app_assoc. split; [reflexivity |].
  apply Forall_app. split; assumption.
Qed.



(* ================================================================== *)
(** * Why a query fails *)

Lemma fails_bind E env {A B} (m : Prog A) (f : A -> Prog B) :
  fails_from E env m -> (forall a, fails_from E env (f a)) ->
  fails_from E env (bind m f).
Proof.
  intros Hm Hf w err. rewrite outcome_bind, trace_bind.
  pose proof (Hm w) as Hm'.
  destruct (outcome (exec env m w)) as [a | e].
  - intros H. destruct (Hf a _ err H) as [HE | [tr [x [Et Hx]]]]; [left; exact HE |].
    right. exists (trace (exec env m w) ++ tr), x. rewrite Et, app_assoc.
    split; [reflexivity | exact Hx].
  - intros H. injection H as ->. rewrite app_nil_r. apply Hm'. reflexivity.
Qed.

Lemma fails_NoThrow E env {A} (p : Prog A) : NoThrow p -> fails_from E env p.
Proof.
  intros Hn w err H. destruct (NoThrow_sound env w Hn) as [a Ha]. congruence.
Qed.

Lemma fails_throw (E : JsError -> Prop) env {A} e :
  E e -> fails_from E env (Throw e : Prog A).
Proof. intros HE w err H. cbn in H. injection H as <-. left. exact HE. Qed.

Lemma fails_await E env {X} (e : Eff (Res X)) :
  (forall r err, r = Err err -> rejection (Act e r) = Some err) ->
  fails_from E env (await e).
Proof.
  intros He w err. unfold await. cbn [exec].
  destruct (answer env e w) as [[x | e0] w1]; cbn; [discriminate |].
  intros H. injection H as ->. right. exists [], (Act e (Err err)).
  split; [reflexivity | apply He; reflexivity].
Qed.

Lemma fails_humanScroll E env page steps : fails_from E env (humanScroll page steps).
Proof.
  unfold humanScroll. induction (Z.to_nat steps) as [| n IH]; cbn [humanScrollLoop].
  - apply fails_NoThrow. constructor.
  - apply fails_bind; [apply fails_NoThrow, NoThrow_randomInt | intros dy].
    apply fails_bind; [apply fails_await; intros r err ->; reflexivity | intros _].
    apply fails_bind; [apply fails_NoThrow, NoThrow_jitter | intros _; exact IH].
Qed.

Lemma fails_productLoop (E : JsError -> Prop) env page config n :
  E blockedError -> fails_from E env (productLoop page config n).
Proof.
  intros HE. induction n as [| n IH]; cbn [productLoop].
  - apply fails_NoThrow. constructor.
  - apply fails_bind; [apply fails_NoThrow, NoThrow_isBlocked | intros [|]].
    + apply fails_throw. exact HE.
    + apply fails_bind; [apply fails_NoThrow, NoThrow_openRandomProduct | intros [|]];
        cbn [negb]; [| apply fails_NoThrow; constructor].
      apply fails_bind; [apply fails_NoThrow, NoThrow_jitter | intros _].
      apply fails_bind; [apply fails_NoThrow, NoThrow_returnFromProduct | intros _].
      apply fails_bind; [apply fails_NoThrow, NoThrow_jitter | intros _; exact IH].
Qed.

Lemma fails_pageLoop (E : JsError -> Prop) env page config n :
  E blockedError -> fails_from E env (pageLoop page config n).
Proof.
  intros HE. induction n as [| n IH]; cbn [pageLoop].
  - apply fails_NoThrow. constructor.
  - apply fails_bind; [apply fails_NoThrow, NoThrow_randomInt | intros s].
    apply fails_bind; [apply fails_humanScroll | intros _].
    apply fails_bind; [apply fails_NoThrow, NoThrow_randomInt | intros opens].
    apply fails_bind; [apply fails_productLoop; exact HE | intros _].
    destruct n as [| n']; [apply fails_NoThrow; constructor |].
    apply fails_bind;
      [apply fails_NoThrow, NoThrow_clickNextPageIfPresent | intros [|]];
      cbn [negb]; [| apply fails_NoThrow; constructor].
    apply fails_bind; [apply fails_NoThrow, NoThrow_jitter | intros _; exact IH].
Qed.

(** X21.  The processing of a query fails for one of four reasons only.  In
    every environment, an error it throws is the "Blocked" error, or the
    error [encodeURIComponent] threw on the language hint or on the query,
    or the rejection reason of the navigation to the search URL or of a
    wheel movement, and that rejected operation is then the last one
    performed. *)
Theorem browse_failure_causes
        (toLowerCase : jsstring -> jsstring)
        (encodeURIComponent : jsstring -> Res jsstring)
        (env : Env) (page : PageId) (config : RunConfig) (query : jsstring)
        (w : World env) (err : JsError) :
  let x := exec env (browseShoppingForQuery toLowerCase encodeURIComponent
                                            page config query) w in
  outcome x = Err err ->
  (err = blockedError
   \/ encodeURIComponent (getHlFromLocale toLowerCase (locale config)) = Err err
   \/ encodeURIComponent query = Err err)
  \/ exists tr a, trace x = tr ++ [a] /\ rejection a = Some err.
Proof.
  cbv zeta.
  set (E := fun e =>
              e = blockedError
              \/ encodeURIComponent (getHlFromLocale toLowerCase (locale config)) = Err e
              \/ encodeURIComponent query = Err e).
  assert (Hb : E blockedError) by (left; reflexivity).
  revert w err. change (fails_from E env
    (browseShoppingForQuery toLowerCase encodeURIComponent page config query)).
  unfold browseShoppingForQuery, encode.
  destruct (encodeURIComponent (getHlFromLocale toLowerCase (locale config)))
    as [encHl | e1] eqn:E1.
  2:{ apply fails_throw. right. left. reflexivity. }
  destruct (encodeURIComponent query) as [encQuery | e2] eqn:E2.
  2:{ apply fails_throw. right. right. reflexivity. }
  cbn [bind]. cbv zeta.
  apply fails_bind; [apply fails_NoThrow; unfold perform; no_throw | intros _].
  apply fails_bind; [apply fails_await; intros r err ->; reflexivity | intros _].
  apply fails_bind; [apply fails_NoThrow, NoThrow_maybeHandleConsent | intros _].
  apply fails_bind; [apply fails_NoThrow, NoThrow_isBlocked | intros [|]].
  - apply fails_throw. exact Hb.
  - apply fails_bind; [apply fails_NoThrow, NoThrow_randomInt | intros pages].
    apply fails_bind; [apply fails_pageLoop; exact Hb | intros _].
    apply fails_bind; [apply fails_NoThrow, NoThrow_jitter | intros _].
    apply fails_NoThrow. unfold perform. no_throw.
Qed.

Lemma browse_failure_causes_witness :
  let x := exec Stub.env
                (browseShoppingForQuery Stub.toLowerCase Stub.encodeURIComponent
                                        1%nat Stub.threeQueries (js "tent"))
                (Stub.start 1 1 3) in
  outcome x = Err blockedError
  /\ ((blockedError = blockedError
       \/ Stub.encodeURIComponent
            (getHlFromLocale Stub.toLowerCase (locale Stub.threeQueries))
          = Err blockedError
       \/ Stub.encodeURIComponent (js "tent") = Err blockedError)
      \/ exists tr a, trace x = tr ++ [a] /\ rejection a = Some blockedError).
Proof.
  intros x.
  assert (H : outcome x = Err blockedError) by (vm_compute; reflexivity).
  split; [exact H |].
  exact (@browse_failure_causes Stub.toLowerCase Stub.encodeURIComponent Stub.env
           1%nat Stub.threeQueries (js "tent") (Stub.start 1 1 3) blockedError H).
Defined.

(* ================================================================== *)
(** * The counts of the browse phase, in the run of a query *)

Lemma randomInt_uniform_on (a b : Q) :
  Qceiling a <= Qfloor b ->
  uniform_on (Qceiling a) (Qfloor b) (Humanize.randomInt a b).
Proof.
  intros Hle. split; [exact Hle |]. split; [apply randomInt_scaled; exact Hle |].
  set (lo := Qceiling a). set (hi := Qfloor b).
  intros r Hr. unfold scaled.
  assert (Hn : 0 < hi - lo + 1) by (unfold lo, hi; lia).
  assert (Hn' : (0 < inject_Z (hi - lo + 1))%Q)
    by (change 0%Q with (inject_Z 0); rewrite <- Zlt_Qlt; exact Hn).
  pose proof (floor_scale (grid_unit Hr) Hn) as Hf. split; [lia |].
  intros k.
  rewrite <- (scaled_le_iff _ _ Hn'), <- (scaled_lt_iff _ _ Hn').
  rewrite <- Qfloor_eq_iff. lia.
Qed.

Section Counts.

Variable toLowerCase : jsstring -> jsstring.
Variable encodeURIComponent : jsstring -> Res jsstring.
Variable env : Env.
Hypothesis Hgrid : rng_grid env.
Variable config : RunConfig.
Variable page : PageId.

Lemma first_draw_bind {A B} (m : Prog A) (f : A -> Prog B) rest (w : World env) :
  Sat ok_any no_draw (fun _ => True) m ->
  (forall a w1, first_draw env rest (exec env (f a) w1)) ->
  first_draw env rest (exec env (bind m f) w).
Proof.
  intros Hm Hf. pose proof (proj1 (Sat_sound (respects_any env) Hm w)) as Htr.
  rewrite exec_bind. destruct (exec env m w) as [[[a | err] tr] w1];
    unfold trace in Htr; cbn [fst snd] in Htr.
  - destruct (Hf a w1) as [[[err He] Hd] | [pre [r [w2 [Hpre [Hr E]]]]]].
    + left. destruct (exec env (f a) w1) as [[res tr2] w2].
      unfold outcome, trace in *. cbn [fst snd] in *. split; [exists err; exact He |].
      apply Forall_app. split; assumption.
    + right. exists (tr ++ pre), r, w2. split; [apply Forall_app; split; assumption |].
      split; [exact Hr |]. rewrite E.
      destruct (exec env (rest r) w2) as [[res tr2] wf]. rewrite app_assoc. reflexivity.
  - left. unfold outcome, trace. cbn [fst snd]. split; [exists err; reflexivity | exact Htr].
Qed.

Lemma first_draw_throw {A} rest e (w : World env) :
  first_draw env rest (exec env (Throw e : Prog A) w).
Proof. left. split; [exists e; reflexivity | constructor]. Qed.

(** A query draws its page count first, and browses that many pages. *)
Lemma browse_draws_pages query (w : World env) :
  first_draw env
    (fun r =>
       pageLoop page config
                (Z.to_nat (scaled 1 (Qfloor (Qmax 1 (maxPagesPerQuery config))) r)) ;;;
       jitter (minDwellMs config) (maxDwellMs config) ;;;
       perform (ConsoleLog (query_end query)))%prog
    (exec env (browseShoppingForQuery toLowerCase encodeURIComponent page config query) w).
Proof.
  unfold browseShoppingForQuery, encode.
  destruct (encodeURIComponent (getHlFromLocale toLowerCase (locale config)))
    as [encHl | e1]; [| apply first_draw_throw].
  destruct (encodeURIComponent query) as [encQuery | e2]; [| apply first_draw_throw].
  cbn [bind]. cbv zeta.
  apply first_draw_bind; [unfold perform; walk_trivially | intros _ w1].
  apply first_draw_bind; [unfold await; walk_trivially | intros _ w2].
  apply first_draw_bind;
    [unfold maybeHandleConsent, awaitOr; walk_trivially | intros _ w3].
  apply first_draw_bind;
    [unfold isBlocked, perform, awaitOr; walk_trivially | intros blocked w4].
  destruct blocked; [apply first_draw_throw |].
  unfold pagesToBrowse.
  rewrite (randomInt_scaled 1 (Qmax 1 (maxPagesPerQuery config)) (floor_max_ge 1 _)).
  change (Qceiling 1) with 1. cbn [liftGen bind exec].
  pose proof (Hgrid w4) as Hr. destruct (answer env Rand w4) as [r w5]. cbn [fst] in Hr.
  right. exists [], r, w5. split; [constructor |]. split; [exact Hr |]. reflexivity.
Qed.

(** A page draws its scroll-step count and scrolls that many steps, then
    draws its product-open count and enters the product-open loop with it. *)
Lemma pageLoop_draws n (w : World env) :
  let r1 := fst (answer env Rand w) in
  let scrolled :=
    exec env (humanScroll page
                (scaled 2 (Qfloor (Qmax 2 (maxScrollsPerPage config))) r1))
         (snd (answer env Rand w)) in
  exec env (pageLoop page config (S n)) w
  = match outcome scrolled with
    | Err err => (Err err, Act Rand r1 :: trace scrolled, final scrolled)
    | Ok _ =>
        let r2 := fst (answer env Rand (final scrolled)) in
        let '(res, tr, wf) :=
          exec env
               (productLoop page config
                  (Z.to_nat (scaled 0 (Qfloor (Qmax 0 (maxProductOpensPerQuery config)))
                                    r2)) ;;;
                match n with
                | O => Ret tt
                | S _ =>
                    ok <- clickNextPageIfPresent page ;;
                    if negb ok then Ret tt
                    else jitter 1000 4000 ;;; pageLoop page config n
                end)%prog
               (snd (answer env Rand (final scrolled))) in
        (res, Act Rand r1 :: trace scrolled ++ Act Rand r2 :: tr, wf)
    end.
Proof.
  cbv zeta. cbn [pageLoop]. unfold ShoppingSession.scrolls, ShoppingSession.productOpens.
  rewrite (randomInt_scaled 2 (Qmax 2 (maxScrollsPerPage config)) (floor_max_ge 2 _)).
  rewrite (randomInt_scaled 0 (Qmax 0 (maxProductOpensPerQuery config))
             (floor_max_ge 0 _)).
  change (Qceiling 2) with 2. change (Qceiling 0) with 0.
  cbn [liftGen bind exec].
  destruct (answer env Rand w) as [r1 w1]. cbn [fst snd].
  rewrite exec_bind.
  destruct (exec env (humanScroll page _) w1) as [[[[] | err] trs] w2];
    unfold outcome, trace, final; cbn [fst snd]; [| reflexivity].
  cbn [exec]. destruct (answer env Rand w2) as [r2 w3]. cbn [fst snd].
  destruct (exec env _ w3) as [[res tr] wf]. reflexivity.
Qed.

End Counts.



